(** * Mode S demodulator: a shallow embedding of [index.ts]

    The development follows the source file top-down: the typed-array
    primitives, the constructor with its option defaults and magnitude
    lookup table, [computeMagnitudeVector], [detectMessage] with its
    helpers [detectOutOfPhase], [applyPhaseCorrection] and [memcpy], and
    finally [process].

    Numbers.  Every JavaScript number that the program manipulates is
    either an integer (array elements, offsets, counters) or the quotient
    of two small integers (an average, a third, a scaled sample).  Integers
    are modelled in [Z] and quotients in [Q].  All the integers involved
    are below 2^24 in absolute value and all divisors are below 2^8, so an
    IEEE double holds every integer exactly and every quotient with a
    relative error of 2^-53; a rounded quotient therefore compares with an
    integer, and truncates, exactly like the rational it approximates. *)

From Stdlib Require Import ZArith QArith Qround List Sorted Lia Bool Reals Lra.
From stdpp Require Import base list.

Local Open Scope Z_scope.

(** ** Typed arrays *)

(** A [Uint16Array] or [Uint8Array] is a list of its elements.  A read
    outside the array yields [undefined] in JavaScript; [rd] returns 0
    there, which is what a typed array stores when [undefined] is written
    to it.  Where a read is compared or added instead, the theorems carry
    the bounds that keep it inside the array: the window of a candidate
    within the magnitudes, [maglen] within the array length.  A write
    outside the array is ignored, as it is for a typed array. *)
Definition rd (a : list Z) (i : Z) : Z :=
  if i <? 0 then 0 else default 0 (a !! Z.to_nat i).

(** Conversion of a number to an unsigned [w]-bit element: truncation
    toward zero, then reduction modulo [2^w]. *)
Definition truncate (x : Q) : Z := Z.quot (Qnum x) (Z.pos (Qden x)).
Definition ToUint16 (x : Q) : Z := truncate x mod 65536.
Definition ToUint8 (x : Z) : Z := x mod 256.

(** [a[i] = v] for a value that is already an element of the array. *)
Definition wr (a : list Z) (i : Z) (v : Z) : list Z :=
  if i <? 0 then a else <[Z.to_nat i := v]> a.

(** [a[i] = x] on a [Uint16Array]. *)
Definition wr16 (a : list Z) (i : Z) (x : Q) : list Z := wr a i (ToUint16 x).

(** [new Uint16Array(n)] for an integer [n >= 0]. *)
Definition new_array (n : Z) : list Z := replicate (Z.to_nat n) 0.

(** ** Loops *)

(** The indices visited by [for (let i = lo; i < hi; i += step)] whose body
    leaves [i] alone, for [step > 0]. *)
Definition js_range (lo hi step : Z) : list Z :=
  (fun k => lo + step * k) <$> seqZ 0 ((hi - lo + step - 1) / step).

Definition for_loop {St : Type} (lo hi step : Z) (body : Z -> St -> St) (s : St) : St :=
  foldl (fun s i => body i s) s (js_range lo hi step).

(** Comparisons of JavaScript numbers. *)
Definition Qltb (x y : Q) : bool := negb (Qle_bool y x).
Definition Qgtb (x y : Q) : bool := Qltb y x.
Definition Qgeb (x y : Q) : bool := Qle_bool y x.

(** ** Constants of the message-length package *)

(** Modelled from the spec: the two constants exported by the
    [mode-s-msglen] package, the fixed maximum of 112 bits and the
    short-message region of 56 bits. *)
Definition LONG_MSG_BITS : Z := 112.
Definition SHORT_MSG_BITS : Z := 56.

Definition PREAMBLE_US : Z := 8.
Definition FULL_LEN : Z := PREAMBLE_US + LONG_MSG_BITS.

(** ** Options *)

(** The options object as the caller passes it: every field may be absent. *)
Record DemodulatorOptions := {
  opt_aggressive : option bool;
  opt_checkCrc : option bool;
  opt_crcOnly : option bool;
  opt_mag : option (list Z)
}.

(** The options object as the constructor stores it. *)
Record Options := {
  aggressive : bool;
  checkCrc : bool;
  crcOnly : bool;
  mag : option (list Z)
}.

(** [options?.f] *)
Definition field {A : Type} (options : option DemodulatorOptions)
    (f : DemodulatorOptions -> option A) : option A :=
  match options with Some o => f o | None => None end.

(** [x !== false] *)
Definition not_false (x : option bool) : bool :=
  match x with Some false => false | _ => true end.

(** [x || d] on an optional boolean: [x] when it is truthy, else [d]. *)
Definition js_or (x : option bool) (d : bool) : bool :=
  match x with Some true => true | _ => d end.

Definition stored_options (options : option DemodulatorOptions) : Options :=
  {| aggressive := not_false (field options opt_aggressive);
     checkCrc := js_or (field options opt_checkCrc) true;
     crcOnly := js_or (field options opt_crcOnly) false;
     mag := field options opt_mag |}.

(** ** The magnitude lookup table *)

(** [Math.round(Math.sqrt(n) * 360)] for an integer [0 <= n <= 2 * 128^2].
    With [x = 360 * sqrt n], [Math.round x = floor (x + 1/2)
    = floor ((floor (2 x) + 1) / 2)] and [floor (2 x)] is the integer
    square root of [4 * 360^2 * n].  The double computation agrees with
    the exact one: [4 * 360^2 * n] is even and [(2 k + 1)^2] is odd, so
    [x] stays at least [1 / (8 * 65168)] away from every half-integer,
    far more than the rounding error of one square root and one product.
    [round_sqrt_360_nearest] below relates the definition to the real
    square root. *)
Definition round_sqrt_360 (n : Z) : Z := (Z.sqrt (4 * 360 * 360 * n) + 1) / 2.

(** The two nested loops of the constructor, writing into a fresh
    [Uint16Array(129 * 129 * 2)]. *)
Definition build_MAG_LUT : list Z :=
  for_loop 0 129 1 (fun i lut =>
    for_loop 0 129 1 (fun q lut =>
      wr lut (i * 129 + q) (round_sqrt_360 (i * i + q * q) mod 65536)) lut)
    (new_array (129 * 129 * 2)).

(** ** computeMagnitudeVector *)

(** The outcome of a call that may throw: the output array as the call
    left it, and whether it returned or threw a [RangeError]. *)
Inductive Completion := Returned (out : list Z) | RangeError (out : list Z).

Definition completion_array (c : Completion) : list Z :=
  match c with Returned m | RangeError m => m end.

(** [data.readInt8(j)]: the byte at [j] as a signed 8-bit integer, or
    [None] when the offset is outside the buffer (the call throws). *)
Definition readInt8 (data : list Z) (j : Z) : option Z :=
  if j <? 0 then None
  else match data !! Z.to_nat j with
       | Some b => Some (if 128 <=? b then b - 256 else b)
       | None => None
       end.

(** [data[j]]: [None] stands for [undefined]. *)
Definition byte_at (data : list Z) (j : Z) : option Z :=
  if j <? 0 then None else data !! Z.to_nat j.

Definition absolute (i : Z) : Z := if i <? 0 then - i else i.

(** One pair of the unsigned loop.  When a byte is [undefined] the index
    [i * 129 + q] is [NaN], the table read is [undefined] and the element
    stored is 0. *)
Definition magnitude_unsigned (lut data : list Z) (j : Z) (m : list Z) : list Z :=
  match byte_at data j, byte_at data (j + 1) with
  | Some a, Some b =>
      let i := absolute (a - 127) in
      let q := absolute (b - 127) in
      wr m (j / 2) (rd lut (i * 129 + q))
  | _, _ => wr m (j / 2) 0
  end.

(** One pair of the signed loop; a thrown [RangeError] ends the call. *)
Definition magnitude_signed (lut data : list Z) (j : Z) (c : Completion) : Completion :=
  match c with
  | RangeError m => RangeError m
  | Returned m =>
      match readInt8 data j, readInt8 data (j + 1) with
      | Some a, Some b =>
          let i := absolute a in
          let q := absolute b in
          Returned (wr m (j / 2) (rd lut (i * 129 + q)))
      | _, _ => RangeError m
      end
  end.

Definition computeMagnitudeVector (lut data m : list Z) (size : Z)
    (signedInt : bool) : Completion :=
  if signedInt then for_loop 0 size 2 (magnitude_signed lut data) (Returned m)
  else Returned (for_loop 0 size 2 (magnitude_unsigned lut data) m).

(** ** Helpers of detectMessage *)

Definition num (z : Z) : Q := inject_Z z.

(** [memcpy] exactly as written: the loop variable starts at [srcOffset],
    stops at [length], and indexes the source by [i] and the destination by
    [dstOffset + i]. *)
Definition memcpy (dst : list Z) (dstOffset : Z) (src : list Z)
    (srcOffset length : Z) : list Z :=
  for_loop srcOffset length 1 (fun i dst => wr dst (dstOffset + i) (rd src i)) dst.

Definition detectOutOfPhase (m : list Z) (offset : Z) : Z :=
  if Qgtb (num (rd m (offset + 3))) (num (rd m (offset + 2)) / 3) then 1
  else if Qgtb (num (rd m (offset + 10))) (num (rd m (offset + 9)) / 3) then 1
  else if Qgtb (num (rd m (offset + 6))) (num (rd m (offset + 7)) / 3) then -1
  else if Qgtb (num (rd m (offset + -1))) (num (rd m (offset + 1)) / 3) then -1
  else 0.

(** One step of [applyPhaseCorrection]: the pair at [offset + j] decides how
    the leading sample of the next pair is scaled. *)
Definition correction_step (offset j : Z) (m : list Z) : list Z :=
  if rd m (offset + j) >? rd m (offset + j + 1)
  then wr16 m (offset + j + 2) (num (rd m (offset + j + 2) * 5) / 4)
  else wr16 m (offset + j + 2) (num (rd m (offset + j + 2) * 4) / 5).

Definition applyPhaseCorrection (m : list Z) (offset : Z) : list Z :=
  for_loop 16 ((LONG_MSG_BITS - 1) * 2) 2 (correction_step offset) m.

(** The first ten samples must have the shape of a preamble. *)
Definition preamble_shape (m : list Z) (j : Z) : bool :=
  (rd m j >? rd m (j + 1)) &&
  (rd m (j + 1) <? rd m (j + 2)) &&
  (rd m (j + 2) >? rd m (j + 3)) &&
  (rd m (j + 3) <? rd m j) &&
  (rd m (j + 4) <? rd m j) &&
  (rd m (j + 5) <? rd m j) &&
  (rd m (j + 6) <? rd m j) &&
  (rd m (j + 7) >? rd m (j + 8)) &&
  (rd m (j + 8) <? rd m (j + 9)) &&
  (rd m (j + 9) >? rd m (j + 6)).

Definition spike_level (m : list Z) (j : Z) : Q :=
  num (rd m j + rd m (j + 2) + rd m (j + 7) + rd m (j + 9)) / 6.

(** The three tests of the first pass; [false] is the [continue]. *)
Definition first_pass (m : list Z) (j : Z) : bool :=
  if negb (preamble_shape m j) then false
  else
    let high := spike_level m j in
    if Qgeb (num (rd m (j + 4))) high || Qgeb (num (rd m (j + 5))) high then false
    else if Qgeb (num (rd m (j + 11))) high || Qgeb (num (rd m (j + 12))) high ||
            Qgeb (num (rd m (j + 13))) high || Qgeb (num (rd m (j + 14))) high then false
    else true.

(** The snapshot and the conditional correction that open a retry. *)
Definition retry_prepare (m aux : list Z) (j : Z) : list Z * list Z :=
  let aux := memcpy aux 0 m (j + PREAMBLE_US * 2) (Z.of_nat (length aux)) in
  if negb (j =? 0) && negb (detectOutOfPhase m j =? 0)
  then (applyPhaseCorrection m j, aux)
  else (m, aux).

(** One step of the bit-slicing loop, on the pair [(bits, errors)]. *)
Definition slice_step (m : list Z) (j i : Z) (s : list Z * Z) : list Z * Z :=
  let '(bits, errors) := s in
  let low := rd m (j + i + PREAMBLE_US * 2) in
  let high := rd m (j + i + PREAMBLE_US * 2 + 1) in
  let delta := absolute (low - high) in
  if (0 <? i) && (delta <? 256) then (wr bits (i / 2) (rd bits (i / 2 - 1)), errors)
  else if low =? high then
    (wr bits (i / 2) 2, if i <? SHORT_MSG_BITS * 2 then errors + 1 else errors)
  else if low >? high then (wr bits (i / 2) 1, errors)
  else (wr bits (i / 2) 0, errors).

(** [bits] is allocated once per call of [detectMessage]; each iteration
    overwrites all of its 112 entries before reading any of them, so the
    model starts each iteration from a fresh array.  The same holds for the
    first 14 entries of [msg], the only ones ever written. *)
Definition sliceBits (m : list Z) (j : Z) : list Z * Z :=
  for_loop 0 (LONG_MSG_BITS * 2) 2 (slice_step m j) (new_array LONG_MSG_BITS, 0).

Definition pack_step (bits : list Z) (i : Z) (msg : list Z) : list Z :=
  wr msg (i / 8)
    (ToUint8
       (Z.lor (Z.lor (Z.lor (Z.lor (Z.lor (Z.lor (Z.lor
          (Z.shiftl (rd bits i) 7)
          (Z.shiftl (rd bits (i + 1)) 6))
          (Z.shiftl (rd bits (i + 2)) 5))
          (Z.shiftl (rd bits (i + 3)) 4))
          (Z.shiftl (rd bits (i + 4)) 3))
          (Z.shiftl (rd bits (i + 5)) 2))
          (Z.shiftl (rd bits (i + 6)) 1))
          (rd bits (i + 7)))).

Definition packBits (bits : list Z) : list Z :=
  for_loop 0 LONG_MSG_BITS 8 (pack_step bits) (new_array (LONG_MSG_BITS / 2)).

(** The sum of [|low - high|] over the pairs of the resolved length.  The
    loop bound [msglen * 8 * 2] is a quotient; an integer [i] is below it
    exactly when it is below its ceiling. *)
Definition signal_delta (m : list Z) (j : Z) (msglen : Q) : Z :=
  for_loop 0 (Qceiling (msglen * 8 * 2)) 2
    (fun i delta => delta + Z.abs (rd m (j + i + PREAMBLE_US * 2) -
                                   rd m (j + i + PREAMBLE_US * 2 + 1))) 0.

(** [delta /= msglen * 4]. *)
Definition average_delta (delta : Z) (msglen : Q) : Q := num delta / (msglen * 4).

(** [delta < 10 * 255] after the division.  A zero [msglen] gives an empty
    sum and the quotient 0/0, which is [NaN] and below nothing. *)
Definition below_threshold (delta : Z) (msglen : Q) : bool :=
  if Qeq_bool (msglen * 4) 0 then false
  else Qltb (average_delta delta msglen) (num (10 * 255)).

(** ** The decoder's result *)

(** The record returned by the external decoder: the two fields the
    detector reads or writes, and the rest kept abstract. *)
Record Message (Fields : Type) := {
  crcOk : bool;
  phaseCorrected : bool;
  fields : Fields
}.
Arguments crcOk {Fields} _.
Arguments phaseCorrected {Fields} _.
Arguments fields {Fields} _.

(** [mm.phaseCorrected = true] *)
Definition mark_phaseCorrected {Fields : Type} (mm : Message Fields) : Message Fields :=
  {| crcOk := crcOk mm; phaseCorrected := true; fields := fields mm |}.

(** ** detectMessage *)

Section Detector.

(** The two external collaborators: the length lookup of
    [mode-s-msglen] and the [parse] method of the [mode-s-decoder]
    object, which may keep state of its own between calls. *)
Context {Fields DecState : Type}.
Variable msgLen : Z -> Z.
Variable parse : DecState -> list Z -> bool -> Message Fields * DecState.

(** The variables of [detectMessage] that live across iterations, the
    calls of [onMsg] made so far (oldest first), and a ghost log of the
    offsets examined, each with the value of [useCorrection] it was
    examined under. *)
Record Scan := {
  scan_j : Z;
  scan_useCorrection : bool;
  scan_mag : list Z;
  scan_aux : list Z;
  scan_decoder : DecState;
  scan_delivered : list (Message Fields);
  scan_examined : list (Z * bool)
}.

(** What the acceptance block leaves behind: the offset, [goodMessage],
    the decoder and the deliveries. *)
Record Accepted := {
  acc_j : Z;
  acc_goodMessage : bool;
  acc_decoder : DecState;
  acc_delivered : list (Message Fields)
}.

(** The block guarded by [errors === 0 || (aggressive && errors < 3)]. *)
Definition accept (o : Options) (useCorrection : bool) (j : Z) (msglen : Q)
    (msg : list Z) (dec : DecState) (delivered : list (Message Fields)) : Accepted :=
  let '(mm, dec) := parse dec msg (crcOnly o) in
  let j' := if crcOk mm
            then j + Qfloor ((num PREAMBLE_US + msglen * 8) * 2)
            else j in
  let mm' := if crcOk mm && useCorrection then mark_phaseCorrected mm else mm in
  {| acc_j := j';
     acc_goodMessage := crcOk mm;
     acc_decoder := dec;
     acc_delivered := if crcOk mm || negb (checkCrc o)
                      then delivered ++ [mm'] else delivered |}.

(** The [continue] of the signal-quality gate: the decoder is not
    consulted, [useCorrection] is cleared and the [for] statement moves to
    the next offset. *)
Definition reject (s : Scan) (m aux : list Z) : Scan :=
  {| scan_j := scan_j s + 1; scan_useCorrection := false;
     scan_mag := m; scan_aux := aux;
     scan_decoder := scan_decoder s;
     scan_delivered := scan_delivered s;
     scan_examined := scan_examined s |}.

(** The rest of the loop body for a candidate that passed the gate: the
    acceptance block and the choice between a retry and the next offset. *)
Definition dispatch (o : Options) (s : Scan) (m aux : list Z) (errors : Z)
    (msglen : Q) (msg : list Z) : Scan :=
  let j := scan_j s in
  let useCorrection := scan_useCorrection s in
  let a := if (errors =? 0) || (aggressive o && (errors <? 3))
           then accept o useCorrection j msglen msg (scan_decoder s) (scan_delivered s)
           else {| acc_j := j; acc_goodMessage := false;
                   acc_decoder := scan_decoder s;
                   acc_delivered := scan_delivered s |} in
  if negb (acc_goodMessage a) && negb useCorrection then
    {| scan_j := acc_j a - 1 + 1; scan_useCorrection := true;
       scan_mag := m; scan_aux := aux;
       scan_decoder := acc_decoder a;
       scan_delivered := acc_delivered a;
       scan_examined := scan_examined s |}
  else
    {| scan_j := acc_j a + 1; scan_useCorrection := false;
       scan_mag := m; scan_aux := aux;
       scan_decoder := acc_decoder a;
       scan_delivered := acc_delivered a;
       scan_examined := scan_examined s |}.

(** The restoration after the bit slicing of a retry. *)
Definition restore (useCorrection : bool) (m aux : list Z) (j : Z) : list Z :=
  if useCorrection
  then memcpy m (j + PREAMBLE_US * 2) aux 0 (Z.of_nat (length aux))
  else m.

(** Everything from the bit slicing to the end of the loop body, on the
    magnitudes [m] left by the first pass or by [retry_prepare]; the
    result is the state at the next evaluation of the loop condition,
    after the [j++] of the [for] statement. *)
Definition decode_candidate (o : Options) (s : Scan) (m aux : list Z) : Scan :=
  let j := scan_j s in
  let '(bits, errors) := sliceBits m j in
  let m := restore (scan_useCorrection s) m aux j in
  let msg := packBits bits in
  let msgtype := Z.shiftr (rd msg 0) 3 in
  let msglen := (num (msgLen msgtype) / 8)%Q in
  let delta := signal_delta m j msglen in
  if below_threshold delta msglen then reject s m aux
  else dispatch o s m aux errors msglen msg.

(** The ghost step that opens an iteration: the offset and the value of
    [useCorrection] are appended to the log. *)
Definition examine (s : Scan) : Scan :=
  {| scan_j := scan_j s; scan_useCorrection := scan_useCorrection s;
     scan_mag := scan_mag s; scan_aux := scan_aux s;
     scan_decoder := scan_decoder s;
     scan_delivered := scan_delivered s;
     scan_examined := scan_examined s ++ [(scan_j s, scan_useCorrection s)] |}.

(** One iteration of the scanning loop, [j++] included. *)
Definition iteration (o : Options) (s0 : Scan) : Scan :=
  let s := examine s0 in
  let j := scan_j s in
  if scan_useCorrection s then
    let '(m, aux) := retry_prepare (scan_mag s) (scan_aux s) j in
    decode_candidate o s m aux
  else if first_pass (scan_mag s) j then
    decode_candidate o s (scan_mag s) (scan_aux s)
  else
    {| scan_j := j + 1; scan_useCorrection := false;
       scan_mag := scan_mag s; scan_aux := scan_aux s;
       scan_decoder := scan_decoder s;
       scan_delivered := scan_delivered s;
       scan_examined := scan_examined s |}.

(** The loop condition [j < maglen - FULL_LEN * 2]; [maglen] is a
    number, and [process] passes the quotient [size / 2]. *)
Definition in_scan (j : Z) (maglen : Q) : bool :=
  Qltb (num j) (maglen - num (FULL_LEN * 2)).

(** The loop [for (let j = 0; j < maglen - FULL_LEN * 2; j++)]; [None]
    means that the fuel ran out before the condition failed. *)
Fixpoint scan_loop (fuel : nat) (o : Options) (maglen : Q) (s : Scan) : option Scan :=
  if in_scan (scan_j s) maglen then
    match fuel with
    | O => None
    | S fuel => scan_loop fuel o maglen (iteration o s)
    end
  else Some s.

Definition scan_start (m : list Z) (dec : DecState) : Scan :=
  {| scan_j := 0; scan_useCorrection := false;
     scan_mag := m; scan_aux := new_array (LONG_MSG_BITS * 2);
     scan_decoder := dec; scan_delivered := []; scan_examined := [] |}.

(** Two iterations for each offset below the bound. *)
Definition scan_fuel (maglen : Q) : nat :=
  Z.to_nat (2 * (Qceiling maglen - FULL_LEN * 2)).

Definition detectMessage (o : Options) (dec : DecState) (m : list Z) (maglen : Q)
    : option Scan :=
  scan_loop (scan_fuel maglen) o maglen (scan_start m dec).

End Detector.

(** ** The Demodulator object and process *)

Section Demodulator.

Context {Fields DecState : Type}.
Variable msgLen : Z -> Z.
(** [new Decoder(options)] and its [parse] method. *)
Variable new_Decoder : Options -> DecState.
Variable parse : DecState -> list Z -> bool -> Message Fields * DecState.
(** Whether the engine grants [new Uint16Array(n)] for a length [n >= 0]:
    it throws a [RangeError] for a length above its typed-array limit and
    for a buffer that it cannot allocate.  The fixed lengths that the
    program asks for elsewhere (33282, 224, 112 and 56 elements) are taken
    as granted. *)
Variable allocates : Z -> bool.

Record Demodulator := {
  options : Options;
  decoder : DecState;
  MAG_LUT : list Z;
  _mag : option (list Z)
}.

Definition constructor (opts : option DemodulatorOptions) : Demodulator :=
  let o := stored_options opts in
  {| options := o;
     decoder := new_Decoder o;
     MAG_LUT := build_MAG_LUT;
     _mag := None |}.

(** How a call of [process] ends: normally, with the object as the call
    left it and the messages passed to [onMsg]; with the [RangeError] of
    [new Uint16Array] for a length that is negative or that the engine
    does not grant; or, in the model only, with the scanning loop out of
    fuel. *)
Inductive Processed :=
| Done (d : Demodulator) (delivered : list (Message Fields))
| AllocationError
| OutOfFuel.

(** [new Uint16Array(size / 2)]: the length is the quotient truncated
    toward zero; a negative length throws, and so does a length that the
    engine does not grant. *)
Definition allocate_mag (size : Z) : option (list Z) :=
  let n := truncate (num size / 2) in
  if (n <? 0) || negb (allocates n) then None else Some (new_array n).

Definition process (d : Demodulator) (data : list Z) (size : Z) : Processed :=
  let allocated := match _mag d with
                   | Some m => Some m
                   | None => allocate_mag size
                   end in
  match allocated with
  | None => AllocationError
  | Some m =>
      let m := completion_array (computeMagnitudeVector (MAG_LUT d) data m size false) in
      match detectMessage msgLen parse (options d) (decoder d) m (num size / 2) with
      | None => OutOfFuel
      | Some s =>
          Done {| options := options d;
                  decoder := scan_decoder s;
                  MAG_LUT := MAG_LUT d;
                  _mag := Some (scan_mag s) |}
               (scan_delivered s)
      end
  end.

(** A sequence of calls of [process] on one object, each with its data and
    size: the messages delivered by each call, or [None] for a call that
    threw; a call that throws leaves the object as it was. *)
Fixpoint process_calls (d : Demodulator) (calls : list (list Z * Z))
    : list (option (list (Message Fields))) :=
  match calls with
  | [] => []
  | (data, size) :: rest =>
      match process d data size with
      | Done d' delivered => Some delivered :: process_calls d' rest
      | AllocationError | OutOfFuel => None :: process_calls d rest
      end
  end.

End Demodulator.

(** * Notions used in the statements *)

(** ** Loops *)

(** The number of iterations of a [for] loop. *)
Definition trip_count (lo hi step : Z) : Z := Z.max 0 ((hi - lo + step - 1) / step).

(** ** The lookup table *)

(** The states of the two table-filling loops: rows below [i] (and, in
    row [i], columns below [q]) hold their values and everything from the
    next index on is still zero. *)
Definition rows_filled (i : Z) (lut : list Z) : Prop :=
  Z.of_nat (length lut) = 129 * 129 * 2 /\
  (forall i' q', 0 <= i' < i -> 0 <= q' <= 128 ->
     rd lut (i' * 129 + q') = round_sqrt_360 (i' * i' + q' * q')) /\
  (forall k, i * 129 <= k -> rd lut k = 0).

Definition row_filled (i q : Z) (lut : list Z) : Prop :=
  Z.of_nat (length lut) = 129 * 129 * 2 /\
  (forall i' q', 0 <= i' < i -> 0 <= q' <= 128 ->
     rd lut (i' * 129 + q') = round_sqrt_360 (i' * i' + q' * q')) /\
  (forall q', 0 <= q' < q -> rd lut (i * 129 + q') = round_sqrt_360 (i * i + q' * q')) /\
  (forall k, i * 129 + q <= k -> rd lut k = 0).

(** ** The magnitude computer *)

Definition is_byte (b : Z) : Prop := 0 <= b <= 255.

(** The absolute deviation the loops derive from a byte: from the bias 127
    in the unsigned encoding, from zero for the byte read as a signed 8-bit
    integer in the signed one. *)
Definition deviation (signedInt : bool) (b : Z) : Z :=
  if signedInt then absolute (if 128 <=? b then b - 256 else b)
  else absolute (b - 127).

(** The magnitude of pair [k] of [data] in each encoding, as the loops
    compute it; [None] when the signed read throws. *)
Definition pair_magnitude (lut data : list Z) (k : Z) : Z :=
  match byte_at data (2 * k), byte_at data (2 * k + 1) with
  | Some a, Some b => rd lut (absolute (a - 127) * 129 + absolute (b - 127))
  | _, _ => 0
  end.

Definition pair_magnitude_signed (lut data : list Z) (k : Z) : option Z :=
  match readInt8 data (2 * k), readInt8 data (2 * k + 1) with
  | Some a, Some b => Some (rd lut (absolute a * 129 + absolute b))
  | _, _ => None
  end.

(** The output array once the pairs below [t] have been visited: each
    visited index inside the array holds its pair's magnitude and every
    other element is the one of the array [m0] passed in. *)
Definition pairs_written (value : Z -> Z) (m0 : list Z) (t : Z) (m : list Z) : Prop :=
  length m = length m0 /\
  forall k, rd m k = if (0 <=? k) && (k <? t) && (k <? Z.of_nat (length m0))
                     then value k else rd m0 k.

(** The state of the signed loop after [t] pairs, none of which threw. *)
Definition signed_pairs_written (lut data m0 : list Z) (t : Z) (c : Completion) : Prop :=
  exists out, c = Returned out /\
    pairs_written (fun k => default 0 (pair_magnitude_signed lut data k)) m0 t out.

(** ** Bit slicing *)

(** The value the decision rule gives bit [b], from the value [prev] of the
    bit before it. *)
Definition bit_rule (m : list Z) (j b prev : Z) : Z :=
  let low := rd m (j + 16 + 2 * b) in
  let high := rd m (j + 16 + 2 * b + 1) in
  if (0 <? b) && (Z.abs (low - high) <? 256) then prev
  else if low =? high then 2
  else if low >? high then 1
  else 0.

(** Bit [b] falls under the second rule and lies in the short-message
    region. *)
Definition counted_erasure (m : list Z) (j b : Z) : bool :=
  let low := rd m (j + 16 + 2 * b) in
  let high := rd m (j + 16 + 2 * b + 1) in
  negb ((0 <? b) && (Z.abs (low - high) <? 256)) && (low =? high) && (b <? 56).

(** The state of the slicing loop after [k] bits. *)
Definition sliced (m : list Z) (j k : Z) (s : list Z * Z) : Prop :=
  length (fst s) = 112%nat /\
  (forall b, 0 <= b < k -> rd (fst s) b = bit_rule m j b (rd (fst s) (b - 1))) /\
  snd s = Z.of_nat (length (List.filter (counted_erasure m j) (seqZ 0 k))).

(** ** The phase correction *)

(** The state of the correction loop after [k] steps, as far as the first
    corrected sample is concerned: it holds [x] from the first step on. *)
Definition first_sample_set (m0 : list Z) (off x k : Z) (m : list Z) : Prop :=
  length m = length m0 /\ (k = 0 -> m = m0) /\ (1 <= k -> rd m (off + 18) = x).

(** ** The signal-quality gate *)

(** [|low - high|] for bit [b] of the candidate at offset [j], and its sum
    over the first [L] bits. *)
Definition pair_difference (m : list Z) (j b : Z) : Z :=
  Z.abs (rd m (j + 16 + 2 * b) - rd m (j + 16 + 2 * b + 1)).

Definition difference_sum (m : list Z) (j L : Z) : Z :=
  foldl Z.add 0 (pair_difference m j <$> seqZ 0 L).

(** The average of the gate as the specification words it, the sum over a
    quarter of the bit count, and with "length * 4" read on the bit length. *)
Definition quarter_average (sum L : Z) : Q := num sum / (num L / 4).
Definition fourfold_average (sum L : Z) : Q := num sum / (num L * 4).

(** ** The order of the scan *)

(** The order in which a scan may examine (offset, useCorrection) pairs:
    a larger offset, or the same offset again with the correction. *)
Definition visit_lt (x y : Z * bool) : Prop :=
  fst x < fst y \/ (fst x = fst y /\ snd x = false /\ snd y = true).

(** The bound of the scan and the number of iterations a state may still
    need: two for each offset below the bound, one less during a retry. *)
Definition scan_bound (maglen : Q) : Z := Qceiling maglen - FULL_LEN * 2.

Definition scan_measure (maglen : Q) (j : Z) (useCorrection : bool) : Z :=
  2 * (scan_bound maglen - j) - (if useCorrection then 1 else 0).

(** What the scanning loop maintains: the log is strictly increasing in
    the visiting order and every entry comes before the pair about to be
    examined. *)
Definition log_ordered (log : list (Z * bool)) (j : Z) (useCorrection : bool) : Prop :=
  StronglySorted visit_lt log /\ Forall (fun e => visit_lt e (j, useCorrection)) log.

(** ** Options *)

(** Two stored option objects that agree on everything but [mag]. *)
Definition same_but_mag (o1 o2 : Options) : Prop :=
  aggressive o1 = aggressive o2 /\ checkCrc o1 = checkCrc o2 /\ crcOnly o1 = crcOnly o2.

(** ** Sample collaborators and signals *)

(** A length lookup with the reference values: 112 bits for the downlink
    formats 16, 17, 19, 20 and 21, and 56 bits for the others. *)
Definition sample_msgLen (t : Z) : Z :=
  if (t =? 16) || (t =? 17) || (t =? 19) || (t =? 20) || (t =? 21) then 112 else 56.

(** A stateless decoder that answers every candidate with the same CRC
    verdict and keeps the packed bytes as its only field. *)
Definition sample_parse (verdict : bool) (dec : unit) (msg : list Z) (crcOnly : bool)
    : Message (list Z) * unit :=
  ({| crcOk := verdict; phaseCorrected := false; fields := msg |}, tt).

Definition sample_new_Decoder (o : Options) : unit := tt.

(** An engine whose typed arrays hold at most [2^32 - 1] elements. *)
Definition sample_allocates (n : Z) : bool := n <=? 2 ^ 32 - 1.

(** A preamble at offset 0 followed by 112 pulses of the given height,
    each in the first half of its bit period, and five trailing samples. *)
Definition pulse_train (height : Z) : list Z :=
  [6000; 0; 6000; 0; 0; 0; 0; 6000; 0; 6000; 0; 0; 0; 0; 0; 0]
  ++ concat (replicate 112 [height; 0]) ++ [7; 7; 7; 7; 7].

Definition clean_signal : list Z := pulse_train 6000.
Definition weak_signal : list Z := pulse_train 1000.

(** The clean signal one sample later. *)
Definition shifted_signal : list Z := 0 :: clean_signal.

(** ** Further notions *)

(** A sliced bit that holds a decision, and one that may also be erased. *)
Definition is_bit (x : Z) : Prop := x = 0 \/ x = 1.
Definition is_bit_or_erased (x : Z) : Prop := x = 0 \/ x = 1 \/ x = 2.

(** The byte that the packing loop stores at index [k]. *)
Definition packed_byte (bits : list Z) (k : Z) : Z :=
  let i := 8 * k in
  ToUint8
    (Z.lor (Z.lor (Z.lor (Z.lor (Z.lor (Z.lor (Z.lor
       (Z.shiftl (rd bits i) 7)
       (Z.shiftl (rd bits (i + 1)) 6))
       (Z.shiftl (rd bits (i + 2)) 5))
       (Z.shiftl (rd bits (i + 3)) 4))
       (Z.shiftl (rd bits (i + 4)) 3))
       (Z.shiftl (rd bits (i + 5)) 2))
       (Z.shiftl (rd bits (i + 6)) 1))
       (rd bits (i + 7))).

(** The state of the packing loop after [k] bytes. *)
Definition packed (bits : list Z) (k : Z) (msg : list Z) : Prop :=
  length msg = 56%nat /\
  (forall t, 0 <= t < k -> rd msg t = packed_byte bits t) /\
  (forall t, k <= t -> rd msg t = 0).

(** Whether the loop body hands the candidate to the decoder: the gate
    lets it through, and either its first pair of samples differs or the
    aggressive mode is on. *)
Definition consulted (msgLen : Z -> Z) (o : Options) (useCorrection : bool)
    (m aux : list Z) (j : Z) : bool :=
  let msg := packBits (fst (sliceBits m j)) in
  let msglen := (num (msgLen (Z.shiftr (rd msg 0) 3)) / 8)%Q in
  let m' := restore useCorrection m aux j in
  negb (below_threshold (signal_delta m' j msglen) msglen)
  && (negb (rd m (j + 16) =? rd m (j + 17)) || aggressive o).

(** Every call of a sequence that returned delivered CRC-valid messages
    only. *)
Definition all_crc_valid {Fields : Type}
    (results : list (option (list (Message Fields)))) : Prop :=
  Forall (fun r => match r with
                   | Some out => Forall (fun mm => crcOk mm = true) out
                   | None => True
                   end) results.

(** The states a scan goes through: the start, and the state after each
    iteration that the loop condition lets run. *)
Inductive reached {Fields DecState : Type} (msgLen : Z -> Z)
    (parse : DecState -> list Z -> bool -> Message Fields * DecState)
    (o : Options) (maglen : Q) (start : @Scan Fields DecState)
    : @Scan Fields DecState -> Prop :=
| reached_start : reached msgLen parse o maglen start start
| reached_step (s : Scan) :
    reached msgLen parse o maglen start s ->
    in_scan (scan_j s) maglen = true ->
    reached msgLen parse o maglen start (iteration msgLen parse o s).

(** What every state of a scan of [m0] satisfies: the offset is not
    negative, the snapshot array has its 224 elements and its first 16 are
    still 0, the magnitudes have their length, their first 16 samples and
    the samples from [ceil maglen - 1] on are those of [m0], and every
    offset examined so far lies below the bound. *)
Definition scan_invariant {Fields DecState : Type} (m0 : list Z) (maglen : Q)
    (s : @Scan Fields DecState) : Prop :=
  0 <= scan_j s /\
  length (scan_aux s) = 224%nat /\
  (forall i, 0 <= i < 16 -> rd (scan_aux s) i = 0) /\
  length (scan_mag s) = length m0 /\
  (forall k, k < 16 \/ Qceiling maglen - 1 <= k -> rd (scan_mag s) k = rd m0 k) /\
  Forall (fun e => 0 <= fst e < scan_bound maglen) (scan_examined s).

(** The state in which a scan of [m] ends when no offset passes the first
    test: every offset below the bound examined once, nothing else done. *)
Definition scanned_quietly {Fields DecState : Type} (m : list Z) (dec : DecState)
    (maglen : Q) : @Scan Fields DecState :=
  {| scan_j := Z.max 0 (scan_bound maglen); scan_useCorrection := false;
     scan_mag := m; scan_aux := new_array (LONG_MSG_BITS * 2);
     scan_decoder := dec; scan_delivered := [];
     scan_examined := (fun j => (j, false)) <$> seqZ 0 (scan_bound maglen) |}.

(** The values the two branches of the correction store for a sample [v]
    in [0,65535]. *)
Definition scaled_up (v : Z) : Z := (v * 5 / 4) mod 65536.
Definition scaled_down (v : Z) : Z := v * 4 / 5.

(** The leading sample of the pair [t] pairs after the first message pair,
    once the correction has gone over it: the first one is left alone, and
    each later one is scaled according to the pair before it, whose leading
    sample has been corrected already. *)
Fixpoint corrected_sample (m : list Z) (off : Z) (t : nat) : Z :=
  match t with
  | O => rd m (off + 16)
  | S t' =>
      let i := off + 16 + 2 * Z.of_nat t' in
      if corrected_sample m off t' >? rd m (i + 1)
      then scaled_up (rd m (i + 2))
      else scaled_down (rd m (i + 2))
  end.

Definition is_uint16 (v : Z) : Prop := 0 <= v <= 65535.

(** The state of the correction loop after [t] steps. *)
Definition corrected_up_to (m : list Z) (off : Z) (t : Z) (m' : list Z) : Prop :=
  length m' = length m /\
  (forall u : nat, Z.of_nat u <= t ->
     rd m' (off + 16 + 2 * Z.of_nat u) = corrected_sample m off u) /\
  (forall k, k < off + 18 \/ off + 16 + 2 * t < k \/ Z.odd (k - off) = true ->
     rd m' k = rd m k).

(** ** The two encodings *)

(** The magnitude the signed loop stores for pair [k] (0 stands in where a
    read of the pair would throw). *)
Definition signed_value (lut data : list Z) (k : Z) : Z :=
  default 0 (pair_magnitude_signed lut data k).

(** The number of pairs that lie inside [data]. *)
Definition whole_pairs (data : list Z) : Z := Z.of_nat (length data) / 2.

(** The state of the signed loop after [t] pairs: it is still running while
    the pairs visited lie inside [data], and it has thrown, with the whole
    pairs written, once it has gone past them. *)
Definition signed_loop_state (lut data m0 : list Z) (t : Z) (c : Completion) : Prop :=
  (t <= whole_pairs data ->
     exists out, c = Returned out /\ pairs_written (signed_value lut data) m0 t out) /\
  (whole_pairs data < t ->
     exists out, c = RangeError out /\
                 pairs_written (signed_value lut data) m0 (whole_pairs data) out).

(** The byte that holds, as a signed 8-bit integer, the sample that the
    byte [u] holds with the bias 127. *)
Definition to_signed_byte (u : Z) : Z := (u - 127) mod 256.

(** The magnitudes of the same signal received [c] times stronger. *)
Definition amplified (c : Z) (m : list Z) : list Z := Z.mul c <$> m.

(** The pulse-position reading of pair [b] of the candidate at offset [j]:
    a one when the leading sample is the higher one. *)
Definition pulse_bit (m : list Z) (j b : Z) : bool :=
  rd m (j + 16 + 2 * b) >? rd m (j + 16 + 2 * b + 1).

(** What the scan keeps between the offset and the messages delivered so
    far: each message uses up at least 129 offsets, and the offset never
    leaves the buffer by more than one position. *)
Definition delivery_budget {Fields DecState : Type} (maglen : Q)
    (s : @Scan Fields DecState) : Prop :=
  129 * Z.of_nat (length (scan_delivered s)) <= scan_j s /\
  scan_j s <= Z.max 0 (Qceiling maglen).

(** ** Calls of process *)

(** The first [n] elements of the lookup table, computed entry by entry. *)
Definition table_prefix (n : Z) : list Z :=
  (fun k => round_sqrt_360 ((k / 129) * (k / 129) + (k mod 129) * (k mod 129)))
    <$> seqZ 0 n.

(** The same object with another lookup table. *)
Definition with_table {DecState : Type} (lut : list Z) (d : @Demodulator DecState)
    : @Demodulator DecState :=
  {| options := options d; decoder := decoder d; MAG_LUT := lut; _mag := _mag d |}.

(** A byte within [r] of the bias 127. *)
Definition near_bias (r b : Z) : Prop := 127 - r <= b <= 127 + r.

(** The I/Q bytes of a signal whose magnitude at sample [k] is 360 times
    the [k]-th level: I sits at the bias and Q above it by the level. *)
Definition iq_bytes (levels : list Z) : list Z :=
  concat ((fun v => [127; 127 + v]) <$> levels).

(** The levels of a frame: the preamble, the 112 bits in pulse position
    and five quiet samples. *)
Definition frame_levels (bits : list bool) : list Z :=
  [8; 0; 8; 0; 0; 0; 0; 8; 0; 8; 0; 0; 0; 0; 0; 0]
  ++ concat ((fun b : bool => if b then [8; 0] else [0; 8]) <$> bits)
  ++ [0; 0; 0; 0; 0].

(** A long frame of format 17 whose other bits are ones, up to the last. *)
Definition df17_bits (last : bool) : list bool :=
  [true; false; false; false; true] ++ replicate 106 true ++ [last].

Definition valid_frame : list Z := iq_bytes (frame_levels (df17_bits true)).
Definition invalid_frame : list Z := iq_bytes (frame_levels (df17_bits false)).

(** A stateless decoder that accepts the CRC of a message exactly when its
    last byte is 255. *)
Definition sample_parse_last_byte (dec : unit) (msg : list Z) (crcOnly : bool)
    : Message (list Z) * unit :=
  ({| crcOk := rd msg 13 =? 255; phaseCorrected := false; fields := msg |}, tt).

(** The outcome of a sequence of calls, reduced to the CRC verdicts of the
    messages each call delivered. *)
Definition verdicts {Fields : Type} (results : list (option (list (Message Fields))))
    : list (option (list bool)) :=
  List.map (option_map (List.map crcOk)) results.

(** * Properties *)

(** ** Arrays and loops *)

Lemma length_wr (a : list Z) (i v : Z) : length (wr a i v) = length a.
Proof. unfold wr. destruct (i <? 0); [reflexivity | apply length_insert]. Qed.

Lemma rd_wr_eq (a : list Z) (i v : Z) :
  0 <= i < Z.of_nat (length a) -> rd (wr a i v) i = v.
Proof.
  intros Hi. unfold rd, wr.
  destruct (Z.ltb_spec i 0) as [Hneg | _]; [lia |].
  rewrite list_lookup_insert_eq by lia. reflexivity.
Qed.

Lemma rd_wr_ne (a : list Z) (i k v : Z) : i <> k -> rd (wr a i v) k = rd a k.
Proof.
  intros Hne. unfold rd, wr.
  destruct (Z.ltb_spec k 0) as [Hk | Hk]; [reflexivity |].
  destruct (Z.ltb_spec i 0) as [Hi | Hi]; [reflexivity |].
  rewrite list_lookup_insert_ne by lia. reflexivity.
Qed.

Lemma rd_new_array (n i : Z) : rd (new_array n) i = 0.
Proof.
  unfold rd, new_array. destruct (i <? 0); [reflexivity |].
  destruct (replicate (Z.to_nat n) 0 !! Z.to_nat i) as [x |] eqn:E; [| reflexivity].
  apply lookup_replicate in E. simpl. tauto.
Qed.

Lemma length_new_array (n : Z) : length (new_array n) = Z.to_nat n.
Proof. apply length_replicate. Qed.

Lemma length_new_array_Z (n : Z) : 0 <= n -> Z.of_nat (length (new_array n)) = n.
Proof. intros Hn. rewrite length_new_array. lia. Qed.

Lemma js_range_snoc (lo step : Z) (k : nat) :
  (fun i => lo + step * i) <$> seqZ 0 (Z.of_nat (S k)) =
  ((fun i => lo + step * i) <$> seqZ 0 (Z.of_nat k)) ++ [lo + step * Z.of_nat k].
Proof. rewrite seqZ_S, fmap_app. reflexivity. Qed.

(** Loop invariants: [I k s] holds of the state [s] after [k] iterations. *)
Lemma for_loop_invariant {St : Type} (I : Z -> St -> Prop)
    (lo hi step : Z) (body : Z -> St -> St) (s : St) :
  0 < step ->
  I 0 s ->
  (forall k s, 0 <= k -> lo + step * k < hi -> I k s ->
               I (k + 1) (body (lo + step * k) s)) ->
  I (trip_count lo hi step) (for_loop lo hi step body s).
Proof.
  intros Hstep H0 Hbody.
  unfold for_loop, js_range, trip_count.
  set (N := (hi - lo + step - 1) / step).
  assert (Hprefix : forall k : nat, Z.of_nat k <= Z.max 0 N ->
            I (Z.of_nat k)
              (foldl (fun s i => body i s) s
                     ((fun i => lo + step * i) <$> seqZ 0 (Z.of_nat k)))).
  { induction k as [| k IH]; intros Hk.
    - exact H0.
    - rewrite js_range_snoc, foldl_snoc.
      replace (Z.of_nat (S k)) with (Z.of_nat k + 1) by lia.
      apply Hbody; [lia | | apply IH; lia].
      assert (step * N <= hi - lo + step - 1) by (apply Z.mul_div_le; lia).
      nia. }
  specialize (Hprefix (Z.to_nat N)).
  replace (seqZ 0 (Z.of_nat (Z.to_nat N))) with (seqZ 0 N) in Hprefix
    by (unfold seqZ; rewrite Nat2Z.id; reflexivity).
  replace (Z.of_nat (Z.to_nat N)) with (Z.max 0 N) in Hprefix by lia.
  apply Hprefix. lia.
Qed.

Lemma trip_count_exact (lo step n : Z) :
  0 < step -> 0 <= n -> trip_count lo (lo + step * n) step = n.
Proof.
  intros Hstep Hn. unfold trip_count.
  replace (lo + step * n - lo + step - 1) with (n * step + (step - 1)) by lia.
  rewrite Z.div_add_l by lia. rewrite Z.div_small by lia. lia.
Qed.

Lemma for_loop_preserves {St : Type} (P : St -> Prop)
    (lo hi step : Z) (body : Z -> St -> St) (s : St) :
  P s -> (forall i s, P s -> P (body i s)) -> P (for_loop lo hi step body s).
Proof.
  intros Hs Hbody. unfold for_loop. generalize (js_range lo hi step).
  intros l. revert s Hs. induction l as [| i l IH]; intros s Hs; simpl; auto.
Qed.

(** ** The magnitude lookup table *)

Lemma round_sqrt_360_mono (n n' : Z) :
  0 <= n <= n' -> round_sqrt_360 n <= round_sqrt_360 n'.
Proof.
  intros H. unfold round_sqrt_360.
  apply Z.div_le_mono; [lia |].
  apply Z.add_le_mono_r. apply Z.sqrt_le_mono. lia.
Qed.

Lemma round_sqrt_360_range (n : Z) :
  0 <= n <= 2 * 128 * 128 -> 0 <= round_sqrt_360 n <= 65167.
Proof.
  intros H. split.
  - change 0 with (round_sqrt_360 0). apply round_sqrt_360_mono. lia.
  - change 65167 with (round_sqrt_360 (2 * 128 * 128)). apply round_sqrt_360_mono. lia.
Qed.

Lemma round_sqrt_360_bracket (n : Z) :
  1 <= n ->
  1 <= round_sqrt_360 n /\
  (2 * round_sqrt_360 n - 1) * (2 * round_sqrt_360 n - 1) < 4 * 360 * 360 * n /\
  4 * 360 * 360 * n < (2 * round_sqrt_360 n + 1) * (2 * round_sqrt_360 n + 1).
Proof.
  intros Hn. unfold round_sqrt_360.
  set (N := 4 * 360 * 360 * n).
  assert (HN : 518400 <= N) by (unfold N; lia).
  pose proof (Z.sqrt_spec N ltac:(lia)) as [Hlo Hhi].
  pose proof (Z.sqrt_nonneg N) as Hs.
  set (s := Z.sqrt N) in *.
  assert (Hs1 : 1 <= s) by nia.
  pose proof (Z.mul_div_le (s + 1) 2 ltac:(lia)) as Hr1.
  pose proof (Z.mul_succ_div_gt (s + 1) 2 ltac:(lia)) as Hr2.
  set (r := (s + 1) / 2) in *.
  assert (Hr : 1 <= r) by lia.
  split; [exact Hr |]. split.
  - assert (Hle : (2 * r - 1) * (2 * r - 1) <= N) by nia.
    assert (Hodd : (2 * r - 1) * (2 * r - 1) = 2 * (2 * (r * r) - 2 * r) + 1) by ring.
    assert (Heven : N = 2 * (2 * 360 * 360 * n)) by (unfold N; ring).
    lia.
  - nia.
Qed.

(** [round_sqrt_360 n] is the integer nearest to the real [sqrt n * 360]. *)
Lemma round_sqrt_360_nearest (n : Z) :
  0 <= n -> (Rabs (sqrt (IZR n) * 360 - IZR (round_sqrt_360 n)) < 1 / 2)%R.
Proof.
  intros Hn. destruct (Z.eq_dec n 0) as [-> | Hne].
  - change (round_sqrt_360 0) with 0. rewrite sqrt_0.
    replace (0 * 360 - 0)%R with 0%R by ring. rewrite Rabs_R0. lra.
  - destruct (round_sqrt_360_bracket n ltac:(lia)) as (Hr & Hlo & Hhi).
    set (r := round_sqrt_360 n) in *.
    apply IZR_lt in Hlo, Hhi. apply IZR_le in Hr.
    rewrite !mult_IZR in Hlo, Hhi. rewrite minus_IZR, mult_IZR in Hlo.
    rewrite plus_IZR, mult_IZR in Hhi.
    assert (Hx : (0 <= sqrt (IZR n))%R) by apply sqrt_pos.
    assert (Hxx : (sqrt (IZR n) * sqrt (IZR n) = IZR n)%R)
      by (apply sqrt_sqrt, IZR_le; lia).
    set (x := sqrt (IZR n)) in *. set (R := IZR r) in *.
    apply Rabs_def1.
    + apply Rnot_le_lt. intros Hc. nra.
    + apply Rnot_le_lt. intros Hc. nra.
Qed.

Lemma row_loop (i : Z) (lut : list Z) :
  0 <= i <= 128 -> rows_filled i lut ->
  rows_filled (i + 1)
    (for_loop 0 129 1 (fun q lut =>
       wr lut (i * 129 + q) (round_sqrt_360 (i * i + q * q) mod 65536)) lut).
Proof.
  intros Hi (Hlen & Hrows & Hzero).
  assert (Hrow : row_filled i 129
            (for_loop 0 129 1 (fun q lut =>
               wr lut (i * 129 + q) (round_sqrt_360 (i * i + q * q) mod 65536)) lut)).
  { change 129 with (trip_count 0 129 1) at 1.
    apply for_loop_invariant with (I := row_filled i); [lia | |].
    - repeat split; auto.
      + intros q' Hq'. lia.
      + intros k Hk. apply Hzero. lia.
    - intros q t Hq Hlt (Hlen' & Hrows' & Hrow' & Hzero').
      replace (0 + 1 * q) with q in * by lia.
      assert (Hval : round_sqrt_360 (i * i + q * q) mod 65536
                     = round_sqrt_360 (i * i + q * q)).
      { apply Z.mod_small.
        assert (0 <= round_sqrt_360 (i * i + q * q) <= 65167)
          by (apply round_sqrt_360_range; nia).
        lia. }
      rewrite Hval. repeat split.
      + rewrite length_wr. exact Hlen'.
      + intros i' q' Hi' Hq'. rewrite rd_wr_ne by lia. apply Hrows'; lia.
      + intros q' Hq'. destruct (Z.eq_dec q' q) as [-> | Hne].
        * apply rd_wr_eq. lia.
        * rewrite rd_wr_ne by lia. apply Hrow'. lia.
      + intros k Hk. rewrite rd_wr_ne by lia. apply Hzero'. lia. }
  destruct Hrow as (Hlen' & Hrows' & Hrow' & Hzero').
  repeat split; auto.
  - intros i' q' Hi' Hq'. destruct (Z.eq_dec i' i) as [-> | Hne].
    + apply Hrow'. lia.
    + apply Hrows'; lia.
  - intros k Hk. apply Hzero'. lia.
Qed.

Lemma MAG_LUT_filled : rows_filled 129 build_MAG_LUT.
Proof.
  unfold build_MAG_LUT.
  change 129 with (trip_count 0 129 1) at 1.
  apply for_loop_invariant with (I := rows_filled); [lia | |].
  - split; [| split].
    + apply length_new_array_Z. lia.
    + intros i' q' Hi'. lia.
    + intros k _. apply rd_new_array.
  - intros i lut Hi Hlt Hfilled.
    replace (0 + 1 * i) with i in * by lia.
    apply row_loop; [lia | exact Hfilled].
Qed.

Lemma MAG_LUT_length : Z.of_nat (length build_MAG_LUT) = 129 * 129 * 2.
Proof. destruct MAG_LUT_filled as (Hlen & _ & _). exact Hlen. Qed.

Lemma MAG_LUT_entry (i q : Z) :
  0 <= i <= 128 -> 0 <= q <= 128 ->
  rd build_MAG_LUT (i * 129 + q) = round_sqrt_360 (i * i + q * q).
Proof.
  intros Hi Hq. destruct MAG_LUT_filled as (_ & Hrows & _). apply Hrows; lia.
Qed.

Lemma MAG_LUT_unused (k : Z) : 129 * 129 <= k -> rd build_MAG_LUT k = 0.
Proof.
  intros Hk. destruct MAG_LUT_filled as (_ & _ & Hzero). apply Hzero. lia.
Qed.

(** C3, refuted as stated.  The table is allocated with 129 * 129 * 2
    elements, not 129 * 129. *)
Lemma MAG_LUT_size_is_doubled :
  Z.of_nat (length build_MAG_LUT) = 33282 /\ 33282 <> 129 * 129.
Proof. split; [apply MAG_LUT_length | lia]. Qed.

(** C3, amended.  The table is allocated with 129 * 129 * 2 elements.  For
    every pair [(i, q)] with [i], [q] in [0,128], the element at
    [i * 129 + q] is the integer nearest to [sqrt (i^2 + q^2) * 360], and
    it does not decrease when [i] or [q] grows with the other fixed.  The
    elements from index 129 * 129 on are never written and stay 0. *)
Theorem MAG_LUT_contract (i q : Z) :
  0 <= i <= 128 -> 0 <= q <= 128 ->
  Z.of_nat (length build_MAG_LUT) = 129 * 129 * 2 /\
  (Rabs (sqrt (IZR (i * i + q * q)) * 360 - IZR (rd build_MAG_LUT (i * 129 + q)))
     < 1 / 2)%R /\
  (forall i', i <= i' <= 128 ->
     rd build_MAG_LUT (i * 129 + q) <= rd build_MAG_LUT (i' * 129 + q)) /\
  (forall q', q <= q' <= 128 ->
     rd build_MAG_LUT (i * 129 + q) <= rd build_MAG_LUT (i * 129 + q')) /\
  (forall k, 129 * 129 <= k -> rd build_MAG_LUT k = 0).
Proof.
  intros Hi Hq. split; [apply MAG_LUT_length |]. split; [| split; [| split]].
  - rewrite MAG_LUT_entry by lia. apply round_sqrt_360_nearest. nia.
  - intros i' Hi'. rewrite !MAG_LUT_entry by lia. apply round_sqrt_360_mono. nia.
  - intros q' Hq'. rewrite !MAG_LUT_entry by lia. apply round_sqrt_360_mono. nia.
  - apply MAG_LUT_unused.
Qed.

Lemma MAG_LUT_contract_witness :
  rd build_MAG_LUT (3 * 129 + 4) <= rd build_MAG_LUT (5 * 129 + 4).
Proof.
  destruct (MAG_LUT_contract 3 4 ltac:(lia) ltac:(lia)) as (_ & _ & Hrow & _).
  apply (Hrow 5). lia.
Defined.

(** ** Bit slicing *)

Lemma absolute_abs (x : Z) : absolute x = Z.abs x.
Proof. unfold absolute. destruct (Z.ltb_spec x 0); lia. Qed.

Lemma seqZ_snoc (k : Z) : 0 <= k -> seqZ 0 (k + 1) = seqZ 0 k ++ [k].
Proof.
  intros Hk. rewrite seqZ_app by lia. f_equal.
Qed.

Lemma slice_step_spec (m : list Z) (j k : Z) (bits : list Z) (errors : Z) :
  0 <= k ->
  slice_step m j (0 + 2 * k) (bits, errors) =
  (wr bits k (bit_rule m j k (rd bits (k - 1))),
   if counted_erasure m j k then errors + 1 else errors).
Proof.
  intros Hk. unfold slice_step, bit_rule, counted_erasure.
  unfold PREAMBLE_US, SHORT_MSG_BITS. rewrite absolute_abs.
  replace ((0 + 2 * k) / 2) with k by (rewrite Z.add_0_l, Z.mul_comm, Z.div_mul; lia).
  replace (j + (0 + 2 * k) + 8 * 2) with (j + 16 + 2 * k) by lia.
  replace (0 <? 0 + 2 * k) with (0 <? k)
    by (destruct (Z.ltb_spec 0 k), (Z.ltb_spec 0 (0 + 2 * k)); lia || reflexivity).
  replace (0 + 2 * k <? 56 * 2) with (k <? 56)
    by (destruct (Z.ltb_spec k 56), (Z.ltb_spec (0 + 2 * k) (56 * 2)); lia || reflexivity).
  destruct ((0 <? k) && (Z.abs _ <? 256)); simpl; [reflexivity |].
  destruct (_ =? _); simpl; [reflexivity |].
  destruct (_ >? _); reflexivity.
Qed.

Lemma bit_rule_first (m : list Z) (j p p' : Z) : bit_rule m j 0 p = bit_rule m j 0 p'.
Proof. unfold bit_rule. reflexivity. Qed.

Lemma sliceBits_sliced (m : list Z) (j : Z) : sliced m j 112 (sliceBits m j).
Proof.
  unfold sliceBits, LONG_MSG_BITS.
  change 112 with (trip_count 0 (112 * 2) 2) at 1.
  apply for_loop_invariant with (I := sliced m j); [lia | |].
  - repeat split.
    + intros b Hb. lia.
  - intros k [bits errors] Hk Hlt (Hlen & Hbits & Herr).
    simpl in Hlen, Hbits, Herr.
    rewrite slice_step_spec by lia. unfold sliced. cbn [fst snd]. repeat split.
    + rewrite length_wr. exact Hlen.
    + intros b Hb. destruct (Z.eq_dec b k) as [-> | Hne].
      * rewrite rd_wr_eq by lia. rewrite rd_wr_ne by lia. reflexivity.
      * rewrite rd_wr_ne by lia.
        destruct (Z.eq_dec b 0) as [-> | Hb0].
        -- rewrite Hbits by lia. apply bit_rule_first.
        -- rewrite (rd_wr_ne _ k (b - 1)) by lia. apply Hbits. lia.
    + rewrite seqZ_snoc by lia. rewrite List.filter_app, length_app. simpl.
      destruct (counted_erasure m j k); simpl; lia.
Qed.

(** C8.  For a candidate at offset [j] whose window lies inside the
    magnitude array, and for every bit index [b] in [0,111], with
    [low = mag[j + 16 + 2b]] and [high = mag[j + 16 + 2b + 1]]: the decoded
    bit is the previous bit's value if [b > 0] and [|low - high| < 256];
    else the erased value 2 if [low = high]; else 1 if [low > high] and 0
    if [low < high].  The error counter is the number of bits below 56
    that fell under the second rule. *)
Theorem bit_slicing_rule (m : list Z) (j b : Z) :
  0 <= j -> j + FULL_LEN * 2 <= Z.of_nat (length m) -> 0 <= b <= 111 ->
  let low := rd m (j + 16 + 2 * b) in
  let high := rd m (j + 16 + 2 * b + 1) in
  let bits := fst (sliceBits m j) in
  let errors := snd (sliceBits m j) in
  rd bits b =
    (if (0 <? b) && (Z.abs (low - high) <? 256) then rd bits (b - 1)
     else if low =? high then 2
     else if low >? high then 1
     else 0) /\
  (low < high -> negb ((0 <? b) && (Z.abs (low - high) <? 256)) = true -> rd bits b = 0) /\
  errors = Z.of_nat (length (List.filter
             (fun b => let low := rd m (j + 16 + 2 * b) in
                       let high := rd m (j + 16 + 2 * b + 1) in
                       negb ((0 <? b) && (Z.abs (low - high) <? 256))
                       && (low =? high) && (b <? 56))
             (seqZ 0 112))).
Proof.
  intros Hj Hwin Hb. destruct (sliceBits_sliced m j) as (Hlen & Hbits & Herr).
  cbv zeta. repeat split.
  - rewrite Hbits by lia. reflexivity.
  - intros Hlt Hrule. rewrite Hbits by lia. unfold bit_rule.
    apply negb_true_iff in Hrule. rewrite Hrule.
    destruct (Z.eqb_spec (rd m (j + 16 + 2 * b)) (rd m (j + 16 + 2 * b + 1))); [lia |].
    destruct (Z.gtb_spec (rd m (j + 16 + 2 * b)) (rd m (j + 16 + 2 * b + 1))); [lia |].
    reflexivity.
  - exact Herr.
Qed.

Lemma bit_slicing_rule_witness : rd (fst (sliceBits clean_signal 0)) 3 = 1.
Proof.
  pose proof (bit_slicing_rule clean_signal 0 3 ltac:(lia)
                ltac:(vm_compute; congruence) ltac:(lia)) as H.
  cbv zeta in H. destruct H as [H _]. rewrite H. vm_compute. reflexivity.
Defined.

(** ** Option defaults and callback delivery *)

Section Delivery.

Context {Fields DecState : Type}.
Variable new_Decoder : Options -> DecState.
Variable parse : DecState -> list Z -> bool -> Message Fields * DecState.

Lemma stored_checkCrc (opts : option DemodulatorOptions) :
  checkCrc (stored_options opts) = true.
Proof. destruct opts as [[a [[|] |] c m] |]; reflexivity. Qed.

(** C2.  Whatever options the Demodulator was constructed with, and in
    particular with [checkCrc: false], its stored [checkCrc] is [true],
    and the acceptance block passes the decoder's result to the callback
    exactly when that result is CRC-valid: a CRC-invalid candidate is
    never delivered. *)
Theorem delivery_requires_crcOk
    (opts : option DemodulatorOptions) (useCorrection : bool) (j : Z) (msglen : Q)
    (msg : list Z) (dec : DecState) (delivered : list (Message Fields)) :
  let d := constructor new_Decoder opts in
  let mm := fst (parse dec msg (crcOnly (options d))) in
  checkCrc (options d) = true /\
  acc_delivered (accept parse (options d) useCorrection j msglen msg dec delivered) =
    (if crcOk mm
     then delivered ++ [if useCorrection then mark_phaseCorrected mm else mm]
     else delivered).
Proof.
  cbv zeta. split; [apply stored_checkCrc |].
  unfold accept. simpl options. rewrite stored_checkCrc.
  destruct (parse dec msg _) as [mm dec']. simpl.
  destruct (crcOk mm); reflexivity.
Qed.

End Delivery.

(** The same on a run: the detector finds the candidate of the clean
    signal twice (first pass and retry), the decoder rejects its CRC, and
    with the options stored for [checkCrc: false] nothing is delivered. *)
Example checkCrc_false_delivers_nothing :
  let opts := Some {| opt_aggressive := None; opt_checkCrc := Some false;
                      opt_crcOnly := None; opt_mag := None |} in
  option_map (fun s => (scan_examined s, scan_delivered s))
    (detectMessage sample_msgLen (sample_parse false) (stored_options opts) tt
       clean_signal (num 245)) =
  Some ([(0, false); (0, true); (1, false); (2, false); (3, false); (4, false)], []).
Proof. vm_compute. reflexivity. Qed.

(** ** The out-of-phase heuristic and the correction *)

Lemma detectOutOfPhase_values (m : list Z) (offset : Z) :
  detectOutOfPhase m offset = 1 \/ detectOutOfPhase m offset = -1 \/
  detectOutOfPhase m offset = 0.
Proof.
  unfold detectOutOfPhase.
  repeat match goal with |- context [if ?c then _ else _] => destruct c end; auto.
Qed.

(** A retry iteration is the snapshot and conditional correction of
    [retry_prepare] followed by the common decoding path. *)
Lemma iteration_retry {Fields DecState : Type} (msgLen : Z -> Z)
    (parse : DecState -> list Z -> bool -> Message Fields * DecState)
    (o : Options) (s : Scan) :
  scan_useCorrection s = true ->
  iteration msgLen parse o s =
  decode_candidate msgLen parse o (examine s)
    (fst (retry_prepare (scan_mag s) (scan_aux s) (scan_j s)))
    (snd (retry_prepare (scan_mag s) (scan_aux s) (scan_j s))).
Proof.
  intros Huc. unfold iteration. simpl. rewrite Huc.
  destruct (retry_prepare _ _ _); reflexivity.
Qed.

(** C5, refuted as stated.  On the shifted clean signal the scan retries
    offset 1, the heuristic reports "not out of phase" there, and the retry
    slices the uncorrected magnitudes although the correction would have
    changed them. *)
Lemma in_phase_retry_is_not_corrected :
  option_map (fun s => scan_examined s)
    (detectMessage sample_msgLen (sample_parse false) (stored_options None) tt
       shifted_signal (num 246)) =
    Some [(0, false); (1, false); (1, true); (2, false); (3, false);
          (4, false); (5, false)] /\
  detectOutOfPhase shifted_signal 1 = 0 /\
  fst (retry_prepare shifted_signal (new_array (LONG_MSG_BITS * 2)) 1) = shifted_signal /\
  applyPhaseCorrection shifted_signal 1 <> shifted_signal.
Proof.
  split; [vm_compute; reflexivity |].
  split; [vm_compute; reflexivity |].
  split; [vm_compute; reflexivity |].
  vm_compute. discriminate.
Qed.

(** C5, amended.  At a retry of an offset [j > 0] whose window lies inside
    the magnitude array, the correction is applied exactly when the
    heuristic returns a direction, 1 or -1, and it is the same
    transformation for both; when the heuristic returns 0 the magnitudes
    are sliced as they are.  At [j = 0] nothing is corrected. *)
Theorem correction_follows_heuristic (m aux : list Z) (j : Z) :
  0 < j -> j + FULL_LEN * 2 <= Z.of_nat (length m) ->
  (detectOutOfPhase m j = 1 \/ detectOutOfPhase m j = -1 ->
   fst (retry_prepare m aux j) = applyPhaseCorrection m j) /\
  (detectOutOfPhase m j = 0 -> fst (retry_prepare m aux j) = m) /\
  (detectOutOfPhase m j = 1 \/ detectOutOfPhase m j = -1 \/ detectOutOfPhase m j = 0) /\
  fst (retry_prepare m aux 0) = m.
Proof.
  intros Hj _. unfold retry_prepare.
  destruct (Z.eqb_spec j 0) as [-> | _]; [lia |]. simpl.
  repeat split.
  - intros [H | H]; rewrite H; reflexivity.
  - intros H; rewrite H; reflexivity.
  - apply detectOutOfPhase_values.
Qed.

Lemma correction_follows_heuristic_witness :
  fst (retry_prepare shifted_signal (new_array 224) 1) = shifted_signal.
Proof.
  destruct (correction_follows_heuristic shifted_signal (new_array 224) 1
              ltac:(lia) ltac:(vm_compute; congruence))
    as (_ & Hzero & _).
  apply Hzero. vm_compute. reflexivity.
Defined.

(** ** The scaled store of the phase correction *)

Lemma truncate_quotient (a : Z) (d : positive) :
  0 <= a -> truncate (num a / num (Z.pos d)) = a / Z.pos d.
Proof.
  intros Ha. unfold truncate, num, inject_Z, Qdiv, Qmult, Qinv. simpl.
  rewrite Z.mul_1_r. apply Z.quot_div_nonneg; lia.
Qed.

Lemma correction_step_one (off j : Z) (m : list Z) :
  rd m (off + j) > rd m (off + j + 1) -> 0 <= rd m (off + j + 2) ->
  correction_step off j m =
  wr m (off + j + 2) ((rd m (off + j + 2) * 5 / 4) mod 65536).
Proof.
  intros Hgt Hnn. unfold correction_step.
  destruct (Z.gtb_spec (rd m (off + j)) (rd m (off + j + 1))) as [_ | Hle]; [| lia].
  unfold wr16, ToUint16. f_equal. f_equal.
  apply (truncate_quotient _ 4). lia.
Qed.

Lemma correction_step_length (off j : Z) (m : list Z) :
  length (correction_step off j m) = length m.
Proof.
  unfold correction_step, wr16. destruct (_ >? _); apply length_wr.
Qed.

Lemma correction_step_frame (off j k : Z) (m : list Z) :
  k <> off + j + 2 -> rd (correction_step off j m) k = rd m k.
Proof.
  intros Hne. unfold correction_step, wr16.
  destruct (_ >? _); apply rd_wr_ne; lia.
Qed.

(** C10.  When the pair at [offset + 16] decodes as a one, the sample [v]
    at [offset + 18] is replaced by [floor (5 v / 4)] reduced modulo 2^16:
    for [v <= 52428] that is [floor (5 v / 4)] itself, and for
    [v >= 52429] it is [floor (5 v / 4) - 65536], which is smaller than
    [v].  Every later step of the correction stores the same expression.
    Values from 52429 on occur: the lookup table holds 65167 for the pair
    (128, 128). *)
Theorem phase_correction_store_wraps (m : list Z) (off v : Z) :
  0 <= off -> off + 18 < Z.of_nat (length m) ->
  rd m (off + 16) > rd m (off + 17) ->
  rd m (off + 18) = v -> 0 <= v <= 65535 ->
  let stored := rd (applyPhaseCorrection m off) (off + 18) in
  stored = (5 * v / 4) mod 65536 /\
  (v <= 52428 -> stored = 5 * v / 4) /\
  (52429 <= v -> stored = 5 * v / 4 - 65536 /\ stored < v) /\
  (forall j m', 0 <= off + j + 2 < Z.of_nat (length m') ->
     rd m' (off + j) > rd m' (off + j + 1) -> 0 <= rd m' (off + j + 2) ->
     rd (correction_step off j m') (off + j + 2)
       = (5 * rd m' (off + j + 2) / 4) mod 65536) /\
  rd build_MAG_LUT (128 * 129 + 128) = 65167.
Proof.
  intros Hoff Hlen Hone Hv Hrange. cbv zeta.
  assert (Hstored : rd (applyPhaseCorrection m off) (off + 18) = (5 * v / 4) mod 65536).
  { assert (Hinv : first_sample_set m off ((5 * v / 4) mod 65536)
                     (trip_count 16 ((LONG_MSG_BITS - 1) * 2) 2)
                     (applyPhaseCorrection m off)).
    { unfold applyPhaseCorrection.
      apply for_loop_invariant
        with (I := first_sample_set m off ((5 * v / 4) mod 65536)); [lia | |].
      - split; [reflexivity |]. split; [reflexivity | lia].
      - intros k m' Hk Hlt (Hlen' & Hfirst & Hlater).
        split; [rewrite correction_step_length; exact Hlen' |].
        split; [lia |]. intros _.
        destruct (Z.eq_dec k 0) as [-> | Hk0].
        + rewrite (Hfirst eq_refl). change (16 + 2 * 0) with 16.
          rewrite correction_step_one.
          * replace (off + 16 + 2) with (off + 18) by lia.
            rewrite rd_wr_eq by lia. rewrite Hv. f_equal. f_equal. lia.
          * replace (off + 16 + 1) with (off + 17) by lia. exact Hone.
          * replace (off + 16 + 2) with (off + 18) by lia. lia.
        + rewrite correction_step_frame by lia. apply Hlater. lia. }
    destruct Hinv as (_ & _ & Hlater). apply Hlater.
    vm_compute. congruence. }
  rewrite Hstored. split; [reflexivity |]. split; [| split; [| split]].
  - intros Hsmall. apply Z.mod_small.
    split; [apply Z.div_pos; lia |].
    apply Z.div_lt_upper_bound; lia.
  - intros Hbig.
    assert (H1 : 65536 <= 5 * v / 4) by (apply Z.div_le_lower_bound; lia).
    assert (H2 : 5 * v / 4 < 2 * 65536) by (apply Z.div_lt_upper_bound; lia).
    assert (H3 : 4 * (5 * v / 4) <= 5 * v) by (apply Z.mul_div_le; lia).
    assert (Hmod : (5 * v / 4) mod 65536 = 5 * v / 4 - 65536).
    { symmetry. apply (Z.mod_unique _ _ 1); lia. }
    rewrite Hmod. lia.
  - intros j m' Hin Hgt Hnn. rewrite correction_step_one by assumption.
    rewrite rd_wr_eq by lia. f_equal. f_equal. lia.
  - rewrite MAG_LUT_entry by lia. vm_compute. reflexivity.
Qed.

Lemma phase_correction_store_wraps_witness :
  rd (applyPhaseCorrection (replicate 16 0 ++ [9; 0; 65167] ++ replicate 230 0) 0) 18
  = 15922.
Proof.
  pose proof (phase_correction_store_wraps
                (replicate 16 0 ++ [9; 0; 65167] ++ replicate 230 0) 0 65167
                ltac:(lia) ltac:(vm_compute; reflexivity) ltac:(vm_compute; reflexivity)
                ltac:(vm_compute; reflexivity) ltac:(lia)) as H.
  cbv zeta in H. destruct H as (H & _). exact H.
Defined.

(** ** The signal-quality gate *)

Lemma difference_sum_snoc (m : list Z) (j k : Z) :
  0 <= k -> difference_sum m j (k + 1) = difference_sum m j k + pair_difference m j k.
Proof.
  intros Hk. unfold difference_sum.
  rewrite seqZ_snoc by lia. rewrite fmap_app, foldl_app. reflexivity.
Qed.

Lemma sample_count (L : Z) : Qceiling (num L / 8 * 8 * 2) = 2 * L.
Proof.
  assert (H : (num L / 8 * 8 * 2 == num (2 * L))%Q).
  { unfold num. rewrite inject_Z_mult. field. }
  rewrite H. apply Qceiling_Z.
Qed.

Lemma signal_delta_sum (m : list Z) (j L : Z) :
  0 <= L -> signal_delta m j (num L / 8) = difference_sum m j L.
Proof.
  intros HL. unfold signal_delta. rewrite sample_count.
  replace (2 * L) with (0 + 2 * L) by lia.
  pose proof (for_loop_invariant
    (fun k acc => acc = difference_sum m j k) 0 (0 + 2 * L) 2
    (fun i delta => delta + Z.abs (rd m (j + i + PREAMBLE_US * 2) -
                                   rd m (j + i + PREAMBLE_US * 2 + 1))) 0) as H.
  rewrite trip_count_exact in H by lia. apply H; [lia | reflexivity |].
  intros k acc Hk _ ->. rewrite difference_sum_snoc by lia.
  unfold pair_difference, PREAMBLE_US.
  replace (j + (0 + 2 * k) + 8 * 2) with (j + 16 + 2 * k) by lia. reflexivity.
Qed.

Lemma below_threshold_as_integers (delta L : Z) :
  0 < L -> below_threshold delta (num L / 8) = (2 * delta <? 2550 * L).
Proof.
  intros HL. destruct L as [| p | p]; try lia.
  unfold below_threshold, average_delta, Qeq_bool, Qltb, Qle_bool.
  unfold num, Qdiv, Qmult, Qinv, inject_Z. simpl.
  destruct (Z.leb_spec (10 * 255 * Z.pos (1 * (p * 1 * 4))) (delta * Z.pos (1 * 8 * 1) * 1)),
           (Z.ltb_spec (2 * delta) (2550 * Z.pos p)); simpl; try reflexivity; lia.
Qed.

Lemma average_as_integers (delta L : Z) :
  0 < L -> Qltb (num delta / (num L / 2)) (num (10 * 255)) = (2 * delta <? 2550 * L).
Proof.
  intros HL. destruct L as [| p | p]; try lia.
  unfold Qltb, Qle_bool, num, Qdiv, Qmult, Qinv, inject_Z. simpl.
  destruct (Z.leb_spec (10 * 255 * Z.pos (1 * (p * 1))) (delta * Z.pos (1 * 2) * 1)),
           (Z.ltb_spec (2 * delta) (2550 * Z.pos p)); simpl; try reflexivity; lia.
Qed.

Lemma below_threshold_half (delta L : Z) :
  0 < L ->
  below_threshold delta (num L / 8) = Qltb (num delta / (num L / 2)) (num (10 * 255)).
Proof.
  intros HL. rewrite below_threshold_as_integers, average_as_integers by lia.
  reflexivity.
Qed.

Section Gate.

Context {Fields DecState : Type}.
Variable msgLen : Z -> Z.
Variable parse : DecState -> list Z -> bool -> Message Fields * DecState.

(** C6, amended.  For a candidate at offset [j] whose window lies inside
    the magnitude array and whose resolved bit length [L] is positive and
    at most 112, the gate sums [|low - high|] over the [L] bit positions,
    on the magnitudes as the restoration step left them, and divides the
    sum by [msglen * 4] for the byte length [msglen = L / 8], that is by
    half the bit count.  The candidate is rejected, without consulting the
    decoder and with the scan moving to the next offset, exactly when this
    average is below 10 * 255; otherwise the acceptance logic runs. *)
Theorem quality_gate (o : Options) (s : Scan) (m aux : list Z) :
  let j := scan_j s in
  let errors := snd (sliceBits m j) in
  let m' := restore (scan_useCorrection s) m aux j in
  let msg := packBits (fst (sliceBits m j)) in
  let L := msgLen (Z.shiftr (rd msg 0) 3) in
  let average := (num (difference_sum m' j L) / (num L / 2))%Q in
  0 <= j -> j + FULL_LEN * 2 <= Z.of_nat (length m) -> 0 < L <= 112 ->
  decode_candidate msgLen parse o s m aux =
    (if Qltb average (num (10 * 255)) then reject s m' aux
     else dispatch parse o s m' aux errors (num L / 8) msg) /\
  scan_j (reject s m' aux) = j + 1 /\
  scan_useCorrection (reject s m' aux) = false /\
  scan_decoder (reject s m' aux) = scan_decoder s /\
  scan_delivered (reject s m' aux) = scan_delivered s.
Proof.
  cbv zeta. intros Hj Hwin HL. split; [| repeat split].
  unfold decode_candidate. destruct (sliceBits m (scan_j s)) as [bits errors].
  cbn [fst snd] in *.
  rewrite signal_delta_sum by lia. rewrite below_threshold_half by lia.
  reflexivity.
Qed.

End Gate.

(** C6, refuted as stated.  On the weak signal the resolved length is 56
    bits and the sum is 56000; divided by a quarter of the bit count it
    gives 4000, not below the threshold, yet the candidate is rejected even
    though the decoder would have validated it.  On the clean signal the
    sum is 336000; divided by four times the bit length it gives 1500,
    below the threshold, yet the candidate is accepted and delivered. *)
Lemma gate_divisor_is_half_the_bit_count :
  let o := stored_options None in
  let weak := examine (scan_start weak_signal tt) in
  let clean := examine (scan_start clean_signal tt) in
  let aux := new_array (LONG_MSG_BITS * 2) in
  (sample_msgLen (Z.shiftr (rd (packBits (fst (sliceBits weak_signal 0))) 0) 3) = 56 /\
   difference_sum weak_signal 0 56 = 56000 /\
   Qltb (quarter_average 56000 56) (num (10 * 255)) = false /\
   decode_candidate sample_msgLen (sample_parse true) o weak weak_signal aux =
     reject weak weak_signal aux) /\
  (sample_msgLen (Z.shiftr (rd (packBits (fst (sliceBits clean_signal 0))) 0) 3) = 56 /\
   difference_sum clean_signal 0 56 = 336000 /\
   Qltb (fourfold_average 336000 56) (num (10 * 255)) = true /\
   length (scan_delivered
     (decode_candidate sample_msgLen (sample_parse true) o clean clean_signal aux)) = 1%nat).
Proof. vm_compute. repeat split. Qed.

Lemma quality_gate_witness :
  decode_candidate sample_msgLen (sample_parse true) (stored_options None)
    (examine (scan_start weak_signal tt)) weak_signal (new_array 224) =
  reject (examine (scan_start weak_signal tt)) weak_signal (new_array 224).
Proof.
  pose proof (quality_gate sample_msgLen (sample_parse true) (stored_options None)
                (examine (scan_start weak_signal tt)) weak_signal (new_array 224)
                ltac:(vm_compute; congruence) ltac:(vm_compute; congruence)
                ltac:(vm_compute; split; congruence)) as H.
  destruct H as (H & _). rewrite H. vm_compute. reflexivity.
Defined.

(** ** The snapshot and the restoration of a retry *)

Lemma rd_wr (a : list Z) (i k v : Z) :
  rd (wr a i v) k =
  if (i =? k) && (0 <=? k) && (k <? Z.of_nat (length a)) then v else rd a k.
Proof.
  destruct (Z.eqb_spec i k) as [-> | Hne]; simpl.
  - destruct (Z.leb_spec 0 k) as [Hk | Hk]; simpl.
    + destruct (Z.ltb_spec k (Z.of_nat (length a))) as [Hlt | Hge].
      * apply rd_wr_eq. lia.
      * unfold wr. destruct (k <? 0); [reflexivity |].
        rewrite list_insert_ge by lia. reflexivity.
    + unfold wr. destruct (Z.ltb_spec k 0); [reflexivity | lia].
  - apply rd_wr_ne. exact Hne.
Qed.

(** What [memcpy] does, element by element: the destination index [k] is
    overwritten, with [src[k - dstOffset]], exactly when [k - dstOffset]
    lies between [srcOffset] and [length]. *)
Lemma memcpy_rd (dst src : list Z) (dstOffset srcOffset len k : Z) :
  length (memcpy dst dstOffset src srcOffset len) = length dst /\
  rd (memcpy dst dstOffset src srcOffset len) k =
    if (srcOffset <=? k - dstOffset) && (k - dstOffset <? len)
       && (0 <=? k) && (k <? Z.of_nat (length dst))
    then rd src (k - dstOffset) else rd dst k.
Proof.
  unfold memcpy.
  pose proof (for_loop_invariant
    (fun t d => length d = length dst /\
       forall k, rd d k =
         if (srcOffset <=? k - dstOffset) && (k - dstOffset <? srcOffset + t)
            && (0 <=? k) && (k <? Z.of_nat (length dst))
         then rd src (k - dstOffset) else rd dst k)
    srcOffset len 1 (fun i dst => wr dst (dstOffset + i) (rd src i)) dst
    ltac:(lia)) as H.
  destruct H as [Hlen Hrd].
  - split; [reflexivity |]. intros k'.
    destruct (Z.leb_spec srcOffset (k' - dstOffset)),
             (Z.ltb_spec (k' - dstOffset) (srcOffset + 0)); simpl; try reflexivity; lia.
  - intros t d Ht Hlt [Hlen Hrd]. split; [rewrite length_wr; exact Hlen |].
    intros k'. rewrite rd_wr, Hrd, Hlen.
    replace (srcOffset + 1 * t) with (srcOffset + t) by lia.
    destruct (Z.eqb_spec (dstOffset + (srcOffset + t)) k') as [Heq | Hne]; simpl.
    + replace (k' - dstOffset) with (srcOffset + t) by lia.
      destruct (Z.leb_spec srcOffset (srcOffset + t)); [| lia].
      destruct (Z.ltb_spec (srcOffset + t) (srcOffset + (t + 1))); [| lia].
      destruct (Z.ltb_spec (srcOffset + t) (srcOffset + t)); [lia |]. simpl.
      destruct (0 <=? k'); simpl; [| reflexivity].
      destruct (k' <? Z.of_nat (length dst)); reflexivity.
    + destruct (Z.leb_spec srcOffset (k' - dstOffset)); simpl; [| reflexivity].
      destruct (Z.ltb_spec (k' - dstOffset) (srcOffset + t)),
               (Z.ltb_spec (k' - dstOffset) (srcOffset + (t + 1)));
        simpl; try reflexivity; lia.
  - split; [exact Hlen |]. rewrite Hrd. unfold trip_count.
    replace ((len - srcOffset + 1 - 1) / 1) with (len - srcOffset)
      by (rewrite Z.div_1_r; lia).
    destruct (Z.leb_spec srcOffset (k - dstOffset)); simpl; [| reflexivity].
    destruct (Z.ltb_spec (k - dstOffset) (srcOffset + Z.max 0 (len - srcOffset))),
             (Z.ltb_spec (k - dstOffset) len); simpl; try reflexivity; lia.
Qed.

Lemma applyPhaseCorrection_length (m : list Z) (off : Z) :
  length (applyPhaseCorrection m off) = length m.
Proof.
  unfold applyPhaseCorrection.
  apply for_loop_preserves with (P := fun m' => length m' = length m); [reflexivity |].
  intros i m' Hlen. rewrite correction_step_length. exact Hlen.
Qed.

(** The correction only writes the leading samples of bits 1 to 103. *)
Lemma applyPhaseCorrection_frame (m : list Z) (off k : Z) :
  k < off + 18 \/ off + 222 < k -> rd (applyPhaseCorrection m off) k = rd m k.
Proof.
  intros Hk. unfold applyPhaseCorrection.
  apply (for_loop_invariant (fun _ m' => rd m' k = rd m k)); [lia | reflexivity |].
  intros t m' Ht Hlt Hrd. rewrite correction_step_frame; [exact Hrd |].
  unfold LONG_MSG_BITS in Hlt. lia.
Qed.

Section Retry.

Context {Fields DecState : Type}.
Variable msgLen : Z -> Z.
Variable parse : DecState -> list Z -> bool -> Message Fields * DecState.

Lemma dispatch_mag (o : Options) (s : Scan) (m aux : list Z) (errors : Z)
    (msglen : Q) (msg : list Z) :
  scan_mag (dispatch parse o s m aux errors msglen msg) = m /\
  scan_aux (dispatch parse o s m aux errors msglen msg) = aux.
Proof. unfold dispatch. destruct (negb _ && negb _); split; reflexivity. Qed.

Lemma decode_candidate_mag (o : Options) (s : Scan) (m aux : list Z) :
  scan_mag (decode_candidate msgLen parse o s m aux)
    = restore (scan_useCorrection s) m aux (scan_j s) /\
  scan_aux (decode_candidate msgLen parse o s m aux) = aux.
Proof.
  unfold decode_candidate. destruct (sliceBits m (scan_j s)) as [bits errors].
  destruct (below_threshold _ _); [split; reflexivity | apply dispatch_mag].
Qed.

(** The first half of the restoration invariant: a retry at offset [j]
    leaves every sample before [j + 16] and from [j + 240] on as it was. *)
Lemma retry_outside_window (o : Options) (s : Scan) (k : Z) :
  scan_useCorrection s = true ->
  length (scan_aux s) = 224%nat ->
  k < scan_j s + 16 \/ scan_j s + 240 <= k ->
  rd (scan_mag (iteration msgLen parse o s)) k = rd (scan_mag s) k.
Proof.
  intros Huc Haux Hk. rewrite (iteration_retry msgLen parse o s Huc).
  destruct (decode_candidate_mag o (examine s)
              (fst (retry_prepare (scan_mag s) (scan_aux s) (scan_j s)))
              (snd (retry_prepare (scan_mag s) (scan_aux s) (scan_j s)))) as [-> _].
  simpl. rewrite Huc. unfold restore.
  destruct (memcpy_rd (fst (retry_prepare (scan_mag s) (scan_aux s) (scan_j s)))
              (snd (retry_prepare (scan_mag s) (scan_aux s) (scan_j s)))
              (scan_j s + PREAMBLE_US * 2) 0
              (Z.of_nat (length (snd (retry_prepare (scan_mag s) (scan_aux s) (scan_j s)))))
              k) as [_ ->].
  assert (Hlen : length (snd (retry_prepare (scan_mag s) (scan_aux s) (scan_j s)))
                 = 224%nat).
  { unfold retry_prepare. destruct (negb _ && negb _); simpl;
      rewrite (proj1 (memcpy_rd _ _ _ _ _ 0)); exact Haux. }
  rewrite Hlen. unfold PREAMBLE_US.
  assert (Hout : (0 <=? k - (scan_j s + 8 * 2)) && (k - (scan_j s + 8 * 2) <? Z.of_nat 224)
                 = false).
  { destruct (Z.leb_spec 0 (k - (scan_j s + 8 * 2))); simpl; [| reflexivity].
    destruct (Z.ltb_spec (k - (scan_j s + 8 * 2)) (Z.of_nat 224)); [lia | reflexivity]. }
  rewrite Hout. simpl.
  unfold retry_prepare. destruct (negb _ && negb _); simpl; [| reflexivity].
  apply applyPhaseCorrection_frame. lia.
Qed.

(** What the restoration really writes.  The snapshot stored [mag[i]] at
    [aux[i]] for [j + 16 <= i < 224] and the restoration copies [aux[i]] to
    [mag[j + 16 + i]]: sample [j + 16 + i] of the window ends up holding
    the old [mag[i]], or whatever [aux[i]] held before, and not its own
    value from before the retry. *)
Lemma retry_inside_window (o : Options) (s : Scan) (i : Z) :
  scan_useCorrection s = true ->
  length (scan_aux s) = 224%nat ->
  0 <= scan_j s -> scan_j s + 240 <= Z.of_nat (length (scan_mag s)) ->
  0 <= i < 224 ->
  rd (scan_mag (iteration msgLen parse o s)) (scan_j s + 16 + i) =
  if scan_j s + 16 <=? i then rd (scan_mag s) i else rd (scan_aux s) i.
Proof.
  intros Huc Haux Hj Hwin Hi. rewrite (iteration_retry msgLen parse o s Huc).
  destruct (decode_candidate_mag o (examine s)
              (fst (retry_prepare (scan_mag s) (scan_aux s) (scan_j s)))
              (snd (retry_prepare (scan_mag s) (scan_aux s) (scan_j s)))) as [-> _].
  simpl. rewrite Huc. unfold restore.
  set (m' := fst (retry_prepare (scan_mag s) (scan_aux s) (scan_j s))).
  set (aux' := snd (retry_prepare (scan_mag s) (scan_aux s) (scan_j s))).
  assert (Haux' : aux' = memcpy (scan_aux s) 0 (scan_mag s) (scan_j s + PREAMBLE_US * 2)
                           (Z.of_nat (length (scan_aux s)))).
  { unfold aux', retry_prepare. destruct (negb _ && negb _); reflexivity. }
  assert (Hlen' : length aux' = 224%nat).
  { rewrite Haux'. rewrite (proj1 (memcpy_rd _ _ _ _ _ 0)). exact Haux. }
  assert (Hm' : length m' = length (scan_mag s)).
  { unfold m', retry_prepare. destruct (negb _ && negb _); simpl;
      [apply applyPhaseCorrection_length | reflexivity]. }
  destruct (memcpy_rd m' aux' (scan_j s + PREAMBLE_US * 2) 0 (Z.of_nat (length aux'))
              (scan_j s + 16 + i)) as [_ ->].
  rewrite Hlen', Hm'. unfold PREAMBLE_US.
  replace (scan_j s + 16 + i - (scan_j s + 8 * 2)) with i by lia.
  destruct (Z.leb_spec 0 i); [| lia].
  destruct (Z.ltb_spec i (Z.of_nat 224)); [| lia].
  destruct (Z.leb_spec 0 (scan_j s + 16 + i)); [| lia].
  destruct (Z.ltb_spec (scan_j s + 16 + i) (Z.of_nat (length (scan_mag s)))); [| lia].
  simpl. rewrite Haux'.
  destruct (memcpy_rd (scan_aux s) (scan_mag s) 0 (scan_j s + PREAMBLE_US * 2)
              (Z.of_nat (length (scan_aux s))) i) as [_ ->].
  rewrite Haux. unfold PREAMBLE_US. replace (i - 0) with i by lia.
  replace (scan_j s + 8 * 2) with (scan_j s + 16) by lia.
  destruct (Z.leb_spec (scan_j s + 16) i); simpl; [| reflexivity].
  destruct (Z.ltb_spec i (Z.of_nat 224)); [| lia].
  destruct (Z.leb_spec 0 i); [| lia]. reflexivity.
Qed.

End Retry.

(** C1, at a failing input.  On the clean signal, with a decoder that
    rejects the CRC, the first pass at offset 0 asks for a retry; the retry
    applies no correction (the offset is 0), delivers nothing, and leaves
    the samples 16, 18, ..., 30 of the window at 0 where they were 6000
    before the retry.  Nothing outside the window changes. *)
Theorem retry_clobbers_window :
  let o := stored_options None in
  let before := iteration sample_msgLen (sample_parse false) o
                  (scan_start clean_signal tt) in
  let after := iteration sample_msgLen (sample_parse false) o before in
  (scan_j before, scan_useCorrection before) = (0, true) /\
  scan_mag before = clean_signal /\
  scan_examined after = [(0, false); (0, true)] /\
  scan_delivered after = [] /\
  rd (scan_mag before) 16 = 6000 /\
  rd (scan_mag after) 16 = 0 /\
  List.filter (fun k => negb (rd (scan_mag after) k =? rd (scan_mag before) k))
              (seqZ 0 245) = [16; 18; 20; 22; 24; 26; 28; 30].
Proof. vm_compute. repeat split. Qed.

(** ** Progress of the scan *)

Lemma in_scan_bound (j : Z) (maglen : Q) : in_scan j maglen = (j <? scan_bound maglen).
Proof.
  unfold in_scan, scan_bound, Qltb.
  pose proof (Qle_ceiling maglen) as Hup.
  pose proof (Qceiling_lt maglen) as Hdown.
  destruct (Z.ltb_spec j (Qceiling maglen - FULL_LEN * 2)) as [Hlt | Hge].
  - apply negb_true_iff. destruct (Qle_bool _ _) eqn:E; [| reflexivity].
    apply Qle_bool_iff in E. exfalso.
    assert (H : (inject_Z (j + FULL_LEN * 2) <= inject_Z (Qceiling maglen - 1))%Q)
      by (rewrite <- Zle_Qle; lia).
    unfold num in E. rewrite inject_Z_plus in H.
    apply (Qlt_irrefl maglen).
    apply Qle_lt_trans with (inject_Z j + inject_Z (FULL_LEN * 2))%Q.
    + apply Qplus_le_l with (z := (- inject_Z (FULL_LEN * 2))%Q).
      ring_simplify. ring_simplify in E. exact E.
    + apply Qle_lt_trans with (inject_Z (Qceiling maglen - 1)); assumption.
  - apply negb_false_iff. apply Qle_bool_iff.
    assert (H : (inject_Z (Qceiling maglen) <= inject_Z (j + FULL_LEN * 2))%Q)
      by (rewrite <- Zle_Qle; lia).
    unfold num. rewrite inject_Z_plus in H.
    apply Qplus_le_l with (z := inject_Z (FULL_LEN * 2)).
    ring_simplify.
    apply Qle_trans with (inject_Z (Qceiling maglen)); [exact Hup |].
    rewrite Qplus_comm. exact H.
Qed.

Lemma jump_length (L : Z) : Qfloor ((num PREAMBLE_US + num L / 8 * 8) * 2) = 16 + 2 * L.
Proof.
  assert (H : ((num PREAMBLE_US + num L / 8 * 8) * 2 == num (16 + 2 * L))%Q).
  { unfold num, PREAMBLE_US. rewrite inject_Z_plus, inject_Z_mult. field. }
  rewrite H. apply Qfloor_Z.
Qed.

Lemma visit_lt_trans (x y z : Z * bool) : visit_lt x y -> visit_lt y z -> visit_lt x z.
Proof. unfold visit_lt. intros [H1 | (H1 & H2 & H3)] [H4 | (H4 & H5 & H6)]; try lia.
  rewrite H3 in H5. discriminate. Qed.

Lemma visit_lt_irrefl (x : Z * bool) : ~ visit_lt x x.
Proof. unfold visit_lt. intros [H | (_ & H1 & H2)]; [lia | congruence]. Qed.

Lemma StronglySorted_snoc {A : Type} (R : A -> A -> Prop) (l : list A) (x : A) :
  StronglySorted R l -> Forall (fun e => R e x) l -> StronglySorted R (l ++ [x]).
Proof.
  induction 1 as [| a l Hs IH Ha]; intros Hall; simpl.
  - constructor; constructor.
  - inversion Hall as [| ? ? Hax Hlx]; subst. constructor; [apply IH; exact Hlx |].
    apply Forall_app. split; [exact Ha | constructor; [exact Hax | constructor]].
Qed.

Lemma StronglySorted_adjacent {A : Type} (R : A -> A -> Prop)
    (pre post : list A) (x y : A) :
  StronglySorted R (pre ++ x :: y :: post) -> R x y.
Proof.
  induction pre as [| a pre IH]; simpl; intros Hs.
  - inversion Hs as [| ? ? _ Hall]; subst. inversion Hall; subst. assumption.
  - inversion Hs; subst. apply IH. assumption.
Qed.

Lemma StronglySorted_irrefl_NoDup {A : Type} (R : A -> A -> Prop) (l : list A) :
  (forall x, ~ R x x) -> StronglySorted R l -> NoDup l.
Proof.
  intros Hirr. induction 1 as [| a l Hs IH Ha]; constructor; [| exact IH].
  intros Hin. rewrite Forall_forall in Ha. apply (Hirr a). apply Ha. exact Hin.
Qed.

Section Progress.

Context {Fields DecState : Type}.
Variable msgLen : Z -> Z.
Variable parse : DecState -> list Z -> bool -> Message Fields * DecState.
Hypothesis msgLen_range : forall t, 0 <= msgLen t <= 112.

(** After the common decoding path the scan either stays on the offset,
    switching the correction on, or is at a larger offset with the
    correction off. *)
Lemma decode_candidate_step (o : Options) (s : Scan) (m aux : list Z) :
  let s' := decode_candidate msgLen parse o s m aux in
  scan_examined s' = scan_examined s /\
  ((scan_useCorrection s = false /\ scan_j s' = scan_j s /\ scan_useCorrection s' = true) \/
   (scan_j s + 1 <= scan_j s' /\ scan_useCorrection s' = false)).
Proof.
  cbv zeta. unfold decode_candidate.
  destruct (sliceBits m (scan_j s)) as [bits errors].
  pose proof (msgLen_range (Z.shiftr (rd (packBits bits) 0) 3)) as HL.
  set (L := msgLen _) in *. clearbody L.
  set (m' := restore _ _ _ _). clearbody m'.
  destruct (below_threshold _ _).
  - split; [reflexivity |]. right. unfold reject.
    cbn [scan_j scan_useCorrection]. split; [lia | reflexivity].
  - unfold dispatch.
    destruct ((errors =? 0) || aggressive o && (errors <? 3)).
    + unfold accept. destruct (parse _ _ _) as [mm dec'].
      rewrite jump_length.
      destruct (crcOk mm), (scan_useCorrection s);
        cbn [scan_j scan_useCorrection scan_examined acc_j acc_goodMessage negb andb];
        (split; [reflexivity |]); try (right; split; [lia | reflexivity]).
      left. repeat split. lia.
    + destruct (scan_useCorrection s);
        cbn [scan_j scan_useCorrection scan_examined acc_j acc_goodMessage negb andb];
        (split; [reflexivity |]).
      * right. split; [lia | reflexivity].
      * left. repeat split. lia.
Qed.

Lemma iteration_step (o : Options) (s : Scan) :
  let s' := iteration msgLen parse o s in
  scan_examined s' = scan_examined s ++ [(scan_j s, scan_useCorrection s)] /\
  ((scan_useCorrection s = false /\ scan_j s' = scan_j s /\ scan_useCorrection s' = true) \/
   (scan_j s + 1 <= scan_j s' /\ scan_useCorrection s' = false)).
Proof.
  cbv zeta. unfold iteration.
  change (scan_useCorrection (examine s)) with (scan_useCorrection s).
  change (scan_j (examine s)) with (scan_j s).
  change (scan_mag (examine s)) with (scan_mag s).
  change (scan_aux (examine s)) with (scan_aux s).
  destruct (scan_useCorrection s) eqn:Huc.
  - destruct (retry_prepare _ _ _) as [m aux].
    pose proof (decode_candidate_step o (examine s) m aux) as H. cbv zeta in H.
    change (scan_useCorrection (examine s)) with (scan_useCorrection s) in H.
    change (scan_j (examine s)) with (scan_j s) in H.
    cbn [scan_examined examine] in H. rewrite Huc in H. exact H.
  - destruct (first_pass _ _).
    + pose proof (decode_candidate_step o (examine s) (scan_mag s) (scan_aux s)) as H.
      cbv zeta in H.
      change (scan_useCorrection (examine s)) with (scan_useCorrection s) in H.
      change (scan_j (examine s)) with (scan_j s) in H.
      cbn [scan_examined examine] in H. rewrite Huc in H. exact H.
    + cbn [scan_j scan_useCorrection scan_examined examine]. rewrite ?Huc.
      split; [reflexivity |]. right. split; [lia | reflexivity].
Qed.

(** With fuel for the measure the loop ends because its condition fails,
    and it keeps the log ordered. *)
Lemma scan_loop_enough_fuel (o : Options) (maglen : Q) (fuel : nat) :
  forall s : Scan,
  scan_measure maglen (scan_j s) (scan_useCorrection s) <= Z.of_nat fuel ->
  log_ordered (scan_examined s) (scan_j s) (scan_useCorrection s) ->
  exists s', scan_loop msgLen parse fuel o maglen s = Some s' /\
             in_scan (scan_j s') maglen = false /\
             StronglySorted visit_lt (scan_examined s').
Proof.
  induction fuel as [| fuel IH]; intros s Hfuel [Hsorted Hbelow].
  - simpl. rewrite in_scan_bound.
    destruct (Z.ltb_spec (scan_j s) (scan_bound maglen)) as [Hlt | Hge].
    + exfalso. unfold scan_measure in Hfuel.
      destruct (scan_useCorrection s); lia.
    + exists s. rewrite in_scan_bound.
      repeat split; [apply Z.ltb_ge; exact Hge | exact Hsorted].
  - simpl. destruct (in_scan (scan_j s) maglen) eqn:Hin.
    + rewrite in_scan_bound in Hin. apply Z.ltb_lt in Hin.
      destruct (iteration_step o s) as [Hlog Hstep].
      apply IH.
      * unfold scan_measure in *.
        destruct Hstep as [(Hu & Hj & Hu') | (Hj & Hu')]; rewrite Hu'.
        -- rewrite Hj. rewrite Hu in Hfuel. lia.
        -- destruct (scan_useCorrection s); lia.
      * assert (Hnext : visit_lt (scan_j s, scan_useCorrection s)
                          (scan_j (iteration msgLen parse o s),
                           scan_useCorrection (iteration msgLen parse o s))).
        { unfold visit_lt. cbn [fst snd].
          destruct Hstep as [(Hu & Hj & Hu') | (Hj & Hu')]; [right | left]; auto with zarith. }
        split; rewrite Hlog.
        -- apply StronglySorted_snoc; assumption.
        -- apply Forall_app. split.
           ++ eapply Forall_impl; [exact Hbelow |].
              intros e He.
              apply (visit_lt_trans e (scan_j s, scan_useCorrection s));
                [exact He | exact Hnext].
           ++ constructor; [exact Hnext | constructor].
    + exists s. repeat split; assumption.
Qed.

(** C7.  For a length lookup with values in [0,112] and a magnitude array
    of at least [maglen] elements, the scan terminates with its loop
    condition false.  Every two consecutive entries of the sequence of
    examined offsets are either strictly increasing or the same offset
    first without and then with the correction; no (offset, correction)
    pair is examined twice, so no offset is retried more than once. *)
Theorem scan_progress (o : Options) (dec : DecState) (m : list Z) (maglen : Q) :
  (maglen <= num (Z.of_nat (length m)))%Q ->
  exists s, detectMessage msgLen parse o dec m maglen = Some s /\
    in_scan (scan_j s) maglen = false /\
    (forall pre x y post, scan_examined s = pre ++ x :: y :: post ->
       fst x < fst y \/ (fst x = fst y /\ snd x = false /\ snd y = true)) /\
    NoDup (scan_examined s) /\
    (forall j : Z,
       (length (List.filter (fun e => (fst e =? j)%Z && snd e) (scan_examined s))
        <= 1)%nat).
Proof.
  intros Hlen. unfold detectMessage.
  destruct (scan_loop_enough_fuel o maglen (scan_fuel maglen) (scan_start m dec))
    as (s & Hrun & Hend & Hsorted).
  - unfold scan_measure, scan_fuel, scan_bound, scan_start.
    cbn [scan_j scan_useCorrection]. lia.
  - split; constructor.
  - exists s. split; [exact Hrun |]. split; [exact Hend |].
    split; [| split].
    + intros pre x y post Hlog. rewrite Hlog in Hsorted.
      apply (StronglySorted_adjacent visit_lt pre post x y Hsorted).
    + apply (StronglySorted_irrefl_NoDup visit_lt); [apply visit_lt_irrefl | exact Hsorted].
    + intros j. revert Hsorted. generalize (scan_examined s). intros log Hs.
      induction Hs as [| e log Hs IH He]; simpl; [lia |].
      destruct ((fst e =? j) && snd e) eqn:E; [| lia].
      simpl. apply andb_true_iff in E. destruct E as [Ej Ec]. apply Z.eqb_eq in Ej.
      assert (Hnone : List.filter (fun e0 => (fst e0 =? j) && snd e0) log = []).
      { clear IH Hs. induction log as [| e' log IH']; simpl; [reflexivity |].
        inversion He as [| ? ? He' Hrest]; subst.
        destruct ((fst e' =? fst e) && snd e') eqn:E'.
        - apply andb_true_iff in E'. destruct E' as [Ej' Ec']. apply Z.eqb_eq in Ej'.
          unfold visit_lt in He'. rewrite Ec in He'. destruct He' as [H | (_ & H & _)];
            [lia | discriminate].
        - apply IH'. exact Hrest. }
      rewrite Hnone. simpl. lia.
Qed.

End Progress.

(** ** computeMagnitudeVector *)

Lemma magnitude_unsigned_pair (lut data m : list Z) (t : Z) :
  magnitude_unsigned lut data (0 + 2 * t) m = wr m t (pair_magnitude lut data t).
Proof.
  unfold magnitude_unsigned, pair_magnitude.
  replace ((0 + 2 * t) / 2) with t by (rewrite Z.add_0_l, Z.mul_comm, Z.div_mul; lia).
  replace (0 + 2 * t) with (2 * t) by lia.
  destruct (byte_at data (2 * t)) as [a |]; [| reflexivity].
  destruct (byte_at data (2 * t + 1)) as [b |]; reflexivity.
Qed.

Lemma pairs_written_step (value : Z -> Z) (m0 m : list Z) (t : Z) :
  0 <= t -> pairs_written value m0 t m ->
  pairs_written value m0 (t + 1) (wr m t (value t)).
Proof.
  intros Ht [Hlen Hrd]. split; [rewrite length_wr; exact Hlen |].
  intros k. rewrite rd_wr, Hrd, Hlen.
  destruct (Z.eqb_spec t k) as [-> | Hne]; simpl.
  - destruct (Z.leb_spec 0 k); [| lia]. simpl.
    destruct (Z.ltb_spec k (k + 1)); [| lia].
    destruct (Z.ltb_spec k k); [lia |]. simpl.
    destruct (k <? Z.of_nat (length m0)); reflexivity.
  - destruct (0 <=? k); simpl; [| reflexivity].
    destruct (Z.ltb_spec k t), (Z.ltb_spec k (t + 1)); simpl; try reflexivity; lia.
Qed.

Lemma pairs_written_start (value : Z -> Z) (m0 : list Z) : pairs_written value m0 0 m0.
Proof.
  split; [reflexivity |]. intros k.
  destruct (Z.leb_spec 0 k); simpl; [| reflexivity].
  destruct (Z.ltb_spec k 0); [lia | reflexivity].
Qed.

(** The unsigned loop visits the pair indices below [ceil (size / 2)]. *)
Lemma unsigned_loop_pairs (lut data m : list Z) (size : Z) :
  pairs_written (pair_magnitude lut data) m (Z.max 0 ((size + 1) / 2))
    (for_loop 0 size 2 (magnitude_unsigned lut data) m).
Proof.
  replace (Z.max 0 ((size + 1) / 2)) with (trip_count 0 size 2)
    by (unfold trip_count; do 2 f_equal; lia).
  apply for_loop_invariant with (I := pairs_written (pair_magnitude lut data) m);
    [lia | apply pairs_written_start |].
  intros t m' Ht _ Hm'. rewrite magnitude_unsigned_pair.
  apply pairs_written_step; assumption.
Qed.

Lemma readInt8_range (data : list Z) (j a : Z) :
  Forall is_byte data -> readInt8 data j = Some a -> -128 <= a <= 127.
Proof.
  intros Hbytes. unfold readInt8. destruct (j <? 0); [discriminate |].
  destruct (data !! Z.to_nat j) as [b |] eqn:E; [| discriminate].
  intros [= <-]. rewrite Forall_forall in Hbytes.
  assert (Hb : is_byte b) by (apply Hbytes; eapply list_elem_of_lookup_2; exact E).
  unfold is_byte in Hb. destruct (Z.leb_spec 128 b); lia.
Qed.

Lemma readInt8_inside (data : list Z) (j : Z) :
  0 <= j < Z.of_nat (length data) -> exists a, readInt8 data j = Some a.
Proof.
  intros Hj. unfold readInt8. destruct (Z.ltb_spec j 0); [lia |].
  destruct (data !! Z.to_nat j) as [b |] eqn:E; [eexists; reflexivity |].
  apply lookup_ge_None in E. lia.
Qed.

Lemma byte_at_inside (data : list Z) (j : Z) :
  Forall is_byte data -> 0 <= j < Z.of_nat (length data) ->
  exists b, byte_at data j = Some b /\ 0 <= b <= 255.
Proof.
  intros Hbytes Hj. unfold byte_at. destruct (Z.ltb_spec j 0); [lia |].
  destruct (data !! Z.to_nat j) as [b |] eqn:E.
  - exists b. split; [reflexivity |]. rewrite Forall_forall in Hbytes.
    apply Hbytes. eapply list_elem_of_lookup_2. exact E.
  - apply lookup_ge_None in E. lia.
Qed.

Lemma absolute_range (x lo : Z) : - lo <= x <= lo -> 0 <= absolute x <= lo.
Proof. intros H. rewrite absolute_abs. lia. Qed.

Lemma signed_loop_pairs (lut data m : list Z) (size : Z) :
  (forall t, 0 <= t -> 2 * t < size -> 2 * t + 1 < Z.of_nat (length data)) ->
  signed_pairs_written lut data m (Z.max 0 ((size + 1) / 2))
    (for_loop 0 size 2 (magnitude_signed lut data) (Returned m)).
Proof.
  intros Hin.
  replace (Z.max 0 ((size + 1) / 2)) with (trip_count 0 size 2)
    by (unfold trip_count; do 2 f_equal; lia).
  apply for_loop_invariant with (I := signed_pairs_written lut data m); [lia | |].
  - exists m. split; [reflexivity | apply pairs_written_start].
  - intros t c Ht Hlt (out & -> & Hout).
    replace (0 + 2 * t) with (2 * t) in * by lia.
    specialize (Hin t Ht Hlt).
    destruct (readInt8_inside data (2 * t) ltac:(lia)) as [a Ha].
    destruct (readInt8_inside data (2 * t + 1) ltac:(lia)) as [b Hb].
    unfold magnitude_signed. rewrite Ha, Hb.
    replace (2 * t / 2) with t by (rewrite Z.mul_comm, Z.div_mul; lia).
    eexists. split; [reflexivity |].
    assert (Hval : default 0 (pair_magnitude_signed lut data t)
                   = rd lut (absolute a * 129 + absolute b))
      by (unfold pair_magnitude_signed; rewrite Ha, Hb; reflexivity).
    rewrite <- Hval.
    exact (pairs_written_step
             (fun k => default 0 (pair_magnitude_signed lut data k)) m out t Ht Hout).
Qed.

Lemma even_halves (size : Z) :
  Z.even size = true -> size = 2 * (size / 2) /\ (size + 1) / 2 = size / 2.
Proof.
  intros He. apply Z.even_spec in He. destruct He as [h ->].
  replace (2 * h / 2) with h by (rewrite Z.mul_comm, Z.div_mul; lia).
  split; [reflexivity |].
  replace (2 * h + 1) with (h * 2 + 1) by lia.
  rewrite Z.div_add_l by lia. rewrite (Z.div_small 1 2) by lia. lia.
Qed.

(** The calls of the counterexample on an arbitrary table: only the
    element for the pair (3, 4) is read. *)
Lemma sample_calls (lut : list Z) :
  computeMagnitudeVector lut [130; 131; 127] [9; 9] 3 false
    = Returned [rd lut (3 * 129 + 4); 0] /\
  computeMagnitudeVector lut [130; 131; 127; 127] [9] 4 false
    = Returned [rd lut (3 * 129 + 4)] /\
  computeMagnitudeVector lut [3; 4; 0] [9; 9] 3 true
    = RangeError [rd lut (3 * 129 + 4); 9].
Proof. repeat split. Qed.

(** C4, refuted as stated.  An odd size, and an output array shorter than
    half the size, both return normally: the first writes a magnitude for
    the complete pair and 0 for the pair with the missing byte, the second
    drops the write that does not fit. *)
Lemma odd_size_and_short_output_return :
  computeMagnitudeVector build_MAG_LUT [130; 131; 127] [9; 9] 3 false
    = Returned [1800; 0] /\
  computeMagnitudeVector build_MAG_LUT [130; 131; 127; 127] [9] 4 false
    = Returned [1800].
Proof.
  destruct (sample_calls build_MAG_LUT) as (Hodd & Hshort & _).
  rewrite Hodd, Hshort, MAG_LUT_entry by lia. split; reflexivity.
Qed.

(** In the signed encoding the only failure is the [RangeError] of a read
    outside [data], raised after the earlier pairs have been written. *)
Example signed_odd_size_throws_late :
  computeMagnitudeVector build_MAG_LUT [3; 4; 0] [9; 9] 3 true = RangeError [1800; 9].
Proof.
  destruct (sample_calls build_MAG_LUT) as (_ & _ & Hsigned).
  rewrite Hsigned, MAG_LUT_entry by lia. reflexivity.
Qed.

(** C4, amended.  [computeMagnitudeVector] checks neither the size nor the
    capacity.  In the default unsigned encoding every call returns
    normally: the loop visits the pair indices below [ceil (size / 2)],
    stores at each visited index inside the output array the magnitude of
    its pair (0 when a byte of the pair lies outside [data]), drops the
    writes outside the array and leaves the other elements alone.  For an
    even size with at least [size] bytes of data and a capacity of at least
    [size / 2], in both encodings, the call returns normally and writes
    exactly [size / 2] values, the table value of each I/Q pair. *)
Theorem magnitude_vector_unchecked (data m : list Z) (size : Z) (signedInt : bool) :
  Forall is_byte data ->
  let result := computeMagnitudeVector build_MAG_LUT data m size signedInt in
  let out := completion_array result in
  (signedInt = false ->
     result = Returned out /\
     pairs_written (pair_magnitude build_MAG_LUT data) m (Z.max 0 ((size + 1) / 2)) out) /\
  (Z.even size = true -> 0 <= size <= Z.of_nat (length data) ->
   size / 2 <= Z.of_nat (length m) ->
     result = Returned out /\ length out = length m /\
     (forall k, 0 <= k < size / 2 ->
        let i := deviation signedInt (rd data (2 * k)) in
        let q := deviation signedInt (rd data (2 * k + 1)) in
        0 <= i <= 128 /\ 0 <= q <= 128 /\
        rd out k = rd build_MAG_LUT (i * 129 + q) /\
        rd out k = round_sqrt_360 (i * i + q * q)) /\
     (forall k, size / 2 <= k -> rd out k = rd m k)).
Proof.
  intros Hbytes. cbv zeta. split.
  - intros ->. unfold computeMagnitudeVector. simpl completion_array.
    split; [reflexivity | apply unsigned_loop_pairs].
  - intros Heven Hsize Hcap.
    destruct (even_halves size Heven) as [Hdouble Hceil].
    assert (Hreads : forall k, 0 <= k < size / 2 ->
              exists a b, data !! Z.to_nat (2 * k) = Some a /\
                          data !! Z.to_nat (2 * k + 1) = Some b /\
                          is_byte a /\ is_byte b).
    { intros k Hk.
      destruct (byte_at_inside data (2 * k) Hbytes ltac:(lia)) as (a & Ha & Hra).
      destruct (byte_at_inside data (2 * k + 1) Hbytes ltac:(lia)) as (b & Hb & Hrb).
      unfold byte_at in Ha, Hb.
      destruct (Z.ltb_spec (2 * k) 0); [lia |].
      destruct (Z.ltb_spec (2 * k + 1) 0); [lia |].
      exists a, b. repeat split; assumption || apply Hra || apply Hrb. }
    assert (Hwritten : exists value,
              computeMagnitudeVector build_MAG_LUT data m size signedInt
                = Returned (completion_array
                    (computeMagnitudeVector build_MAG_LUT data m size signedInt)) /\
              pairs_written value m (size / 2)
                (completion_array
                   (computeMagnitudeVector build_MAG_LUT data m size signedInt)) /\
              forall k, 0 <= k < size / 2 ->
                value k = rd build_MAG_LUT
                            (deviation signedInt (rd data (2 * k)) * 129
                             + deviation signedInt (rd data (2 * k + 1)))).
    { destruct signedInt; unfold computeMagnitudeVector.
      - destruct (signed_loop_pairs build_MAG_LUT data m size) as (out & Hrun & Hout).
        { intros t Ht Hlt. lia. }
        rewrite Hrun. simpl completion_array. eexists. split; [reflexivity |].
        split; [replace (size / 2) with (Z.max 0 ((size + 1) / 2)) by lia; exact Hout |].
        intros k Hk. destruct (Hreads k Hk) as (a & b & Ha & Hb & _ & _).
        unfold pair_magnitude_signed, readInt8, deviation, rd.
        destruct (Z.ltb_spec (2 * k) 0); [lia |].
        destruct (Z.ltb_spec (2 * k + 1) 0); [lia |].
        rewrite Ha, Hb. reflexivity.
      - simpl completion_array. eexists. split; [reflexivity |].
        split; [replace (size / 2) with (Z.max 0 ((size + 1) / 2)) by lia;
                apply unsigned_loop_pairs |].
        intros k Hk. destruct (Hreads k Hk) as (a & b & Ha & Hb & _ & _).
        unfold pair_magnitude, byte_at, deviation, rd.
        destruct (Z.ltb_spec (2 * k) 0); [lia |].
        destruct (Z.ltb_spec (2 * k + 1) 0); [lia |].
        rewrite Ha, Hb. reflexivity. }
    destruct Hwritten as (value & Hrun & [Hlen Hrd] & Hvalue).
    split; [exact Hrun |]. split; [exact Hlen |]. split.
    + intros k Hk. destruct (Hreads k Hk) as (a & b & Ha & Hb & Hra & Hrb).
      assert (Hi : 0 <= deviation signedInt (rd data (2 * k)) <= 128).
      { unfold deviation, rd. destruct (Z.ltb_spec (2 * k) 0); [lia |]. rewrite Ha.
        simpl. unfold is_byte in Hra.
        destruct signedInt; [destruct (Z.leb_spec 128 a) |]; apply absolute_range; lia. }
      assert (Hq : 0 <= deviation signedInt (rd data (2 * k + 1)) <= 128).
      { unfold deviation, rd. destruct (Z.ltb_spec (2 * k + 1) 0); [lia |]. rewrite Hb.
        simpl. unfold is_byte in Hrb.
        destruct signedInt; [destruct (Z.leb_spec 128 b) |]; apply absolute_range; lia. }
      split; [exact Hi |]. split; [exact Hq |].
      assert (Hout : rd (completion_array
                      (computeMagnitudeVector build_MAG_LUT data m size signedInt)) k
                     = rd build_MAG_LUT
                         (deviation signedInt (rd data (2 * k)) * 129
                          + deviation signedInt (rd data (2 * k + 1)))).
      { rewrite Hrd, <- Hvalue by lia.
        destruct (Z.leb_spec 0 k); [| lia].
        destruct (Z.ltb_spec k (size / 2)); [| lia].
        destruct (Z.ltb_spec k (Z.of_nat (length m))); [| lia]. reflexivity. }
      split; [exact Hout |]. rewrite Hout. apply MAG_LUT_entry; assumption.
    + intros k Hk. rewrite Hrd.
      destruct (Z.leb_spec 0 k); simpl; [| reflexivity].
      destruct (Z.ltb_spec k (size / 2)); [lia | reflexivity].
Qed.

Lemma magnitude_vector_unchecked_witness :
  rd (completion_array
        (computeMagnitudeVector build_MAG_LUT [130; 131; 127; 127] [9; 9; 9] 4 false)) 2 = 9.
Proof.
  destruct (magnitude_vector_unchecked [130; 131; 127; 127] [9; 9; 9] 4 false
              ltac:(repeat constructor; unfold is_byte; lia)) as [_ H].
  destruct (H eq_refl ltac:(simpl; lia) ltac:(vm_compute; congruence))
    as (_ & _ & _ & Hrest).
  rewrite Hrest by (vm_compute; congruence). reflexivity.
Defined.

(** ** process and the mag option *)

Section MagOption.

Context {Fields DecState : Type}.
Variable msgLen : Z -> Z.
Variable new_Decoder : Options -> DecState.
Variable parse : DecState -> list Z -> bool -> Message Fields * DecState.
Variable allocates : Z -> bool.

Lemma accept_same_but_mag (o1 o2 : Options) (useCorrection : bool) (j : Z)
    (msglen : Q) (msg : list Z) (dec : DecState) (delivered : list (Message Fields)) :
  same_but_mag o1 o2 ->
  accept parse o1 useCorrection j msglen msg dec delivered =
  accept parse o2 useCorrection j msglen msg dec delivered.
Proof. intros (Ha & Hc & Ho). unfold accept. rewrite Hc, Ho. reflexivity. Qed.

Lemma iteration_same_but_mag (o1 o2 : Options) (s : Scan) :
  same_but_mag o1 o2 ->
  iteration msgLen parse o1 s = iteration msgLen parse o2 s.
Proof.
  intros Hsame. pose proof Hsame as (Ha & Hc & Ho).
  unfold iteration, decode_candidate, dispatch.
  rewrite Ha.
  destruct (scan_useCorrection (examine s)).
  - destruct (retry_prepare _ _ _) as [m aux].
    destruct (sliceBits m _) as [bits errors].
    destruct (below_threshold _ _); [reflexivity |].
    destruct ((errors =? 0) || _); [| reflexivity].
    rewrite (accept_same_but_mag o1 o2) by exact Hsame. reflexivity.
  - destruct (first_pass _ _); [| reflexivity].
    destruct (sliceBits _ _) as [bits errors].
    destruct (below_threshold _ _); [reflexivity |].
    destruct ((errors =? 0) || _); [| reflexivity].
    rewrite (accept_same_but_mag o1 o2) by exact Hsame. reflexivity.
Qed.

Lemma scan_loop_same_but_mag (o1 o2 : Options) (maglen : Q) (fuel : nat) :
  same_but_mag o1 o2 ->
  forall s : Scan,
  scan_loop msgLen parse fuel o1 maglen s = scan_loop msgLen parse fuel o2 maglen s.
Proof.
  intros Hsame. induction fuel as [| fuel IH]; intros s; simpl; [reflexivity |].
  destruct (in_scan _ _); [| reflexivity].
  rewrite (iteration_same_but_mag o1 o2) by exact Hsame. apply IH.
Qed.

(** One call on two objects that differ at most in the stored [mag]
    option: the same outcome, the same deliveries, and again two objects
    that differ at most in that option, which the call does not change. *)
Lemma process_same_but_mag (d1 d2 : Demodulator) (data : list Z) (size : Z) :
  same_but_mag (options d1) (options d2) ->
  decoder d1 = decoder d2 -> MAG_LUT d1 = MAG_LUT d2 -> _mag d1 = _mag d2 ->
  match process msgLen parse allocates d1 data size, process msgLen parse allocates d2 data size with
  | Done d1' out1, Done d2' out2 =>
      out1 = out2 /\
      options d1' = options d1 /\ options d2' = options d2 /\
      decoder d1' = decoder d2' /\ MAG_LUT d1' = MAG_LUT d2' /\ _mag d1' = _mag d2'
  | AllocationError, AllocationError => True
  | OutOfFuel, OutOfFuel => True
  | _, _ => False
  end.
Proof.
  intros Hsame Hdec Hlut Hmag. unfold process, detectMessage.
  rewrite Hdec, Hlut, Hmag.
  destruct (match _mag d2 with Some m => Some m | None => allocate_mag allocates size end)
    as [m |]; [| exact I].
  rewrite (scan_loop_same_but_mag (options d1) (options d2)) by exact Hsame.
  destruct (scan_loop _ _ _ _ _ _) as [s |]; [| exact I].
  simpl. repeat split.
Qed.

Lemma process_calls_same_but_mag (calls : list (list Z * Z)) :
  forall d1 d2 : Demodulator,
  same_but_mag (options d1) (options d2) ->
  decoder d1 = decoder d2 -> MAG_LUT d1 = MAG_LUT d2 -> _mag d1 = _mag d2 ->
  process_calls msgLen parse allocates d1 calls = process_calls msgLen parse allocates d2 calls.
Proof.
  induction calls as [| [data size] rest IH]; intros d1 d2 Hsame Hdec Hlut Hmag;
    simpl; [reflexivity |].
  pose proof (process_same_but_mag d1 d2 data size Hsame Hdec Hlut Hmag) as H.
  destruct (process msgLen parse allocates d1 data size) as [d1' out1 | |],
           (process msgLen parse allocates d2 data size) as [d2' out2 | |];
    try contradiction.
  - destruct H as (-> & Ho1 & Ho2 & Hdec' & Hlut' & Hmag').
    f_equal. apply IH; try assumption. rewrite Ho1, Ho2. exact Hsame.
  - f_equal. apply IH; assumption.
  - f_equal. apply IH; assumption.
Qed.

Lemma restore_length (useCorrection : bool) (m aux : list Z) (j : Z) :
  length (restore useCorrection m aux j) = length m.
Proof.
  unfold restore. destruct useCorrection; [| reflexivity].
  apply (proj1 (memcpy_rd m aux _ 0 _ 0)).
Qed.

Lemma iteration_length (o : Options) (s : Scan) :
  length (scan_mag (iteration msgLen parse o s)) = length (scan_mag s).
Proof.
  unfold iteration.
  change (scan_useCorrection (examine s)) with (scan_useCorrection s).
  change (scan_j (examine s)) with (scan_j s).
  change (scan_mag (examine s)) with (scan_mag s).
  change (scan_aux (examine s)) with (scan_aux s).
  destruct (scan_useCorrection s).
  - destruct (retry_prepare _ _ _) as [m aux] eqn:E.
    rewrite (proj1 (decode_candidate_mag msgLen parse o (examine s) m aux)).
    rewrite restore_length.
    unfold retry_prepare in E. destruct (negb _ && negb _); injection E as <- _;
      [apply applyPhaseCorrection_length | reflexivity].
  - destruct (first_pass _ _); [| reflexivity].
    rewrite (proj1 (decode_candidate_mag msgLen parse o (examine s) _ _)).
    apply restore_length.
Qed.

Lemma scan_loop_length (o : Options) (maglen : Q) (fuel : nat) :
  forall s s' : Scan,
  scan_loop msgLen parse fuel o maglen s = Some s' ->
  length (scan_mag s') = length (scan_mag s).
Proof.
  induction fuel as [| fuel IH]; intros s s'; simpl;
    destruct (in_scan _ _); try discriminate.
  - intros [= <-]. reflexivity.
  - intros Hrun. rewrite (IH _ _ Hrun). apply iteration_length.
  - intros [= <-]. reflexivity.
Qed.

Lemma allocate_mag_length (size : Z) (array : list Z) :
  allocate_mag allocates size = Some array -> length array = Z.to_nat (Z.quot size 2).
Proof.
  unfold allocate_mag.
  assert (Htrunc : truncate (num size / 2) = Z.quot size 2).
  { unfold truncate, num, inject_Z, Qdiv, Qmult, Qinv. simpl.
    rewrite Z.mul_1_r. reflexivity. }
  rewrite Htrunc. destruct ((_ <? 0) || _); [discriminate |].
  intros [= <-]. apply length_new_array.
Qed.

(** A call keeps the stored [mag] option, and its working array has the
    length of the array it started from: the one found in [_mag], or else
    the one it allocates. *)
Lemma process_private_array (d d' : Demodulator) (data : list Z) (size : Z)
    (out : list (Message Fields)) :
  process msgLen parse allocates d data size = Done d' out ->
  mag (options d') = mag (options d) /\
  exists array', _mag d' = Some array' /\
    match _mag d with
    | Some array => length array' = length array
    | None => length array' = Z.to_nat (Z.quot size 2)
    end.
Proof.
  unfold process. intros Hrun.
  destruct (match _mag d with Some m => Some m | None => allocate_mag allocates size end)
    as [m |] eqn:Harray; [| discriminate].
  destruct (detectMessage _ _ _ _ _ _) as [s |] eqn:Hscan; [| discriminate].
  injection Hrun as <- <-. cbn [options _mag]. split; [reflexivity |].
  exists (scan_mag s). split; [reflexivity |].
  unfold detectMessage in Hscan. apply scan_loop_length in Hscan.
  rewrite Hscan. unfold scan_start. cbn [scan_mag].
  unfold computeMagnitudeVector. cbn [completion_array].
  rewrite (proj1 (unsigned_loop_pairs (MAG_LUT d) data m size)).
  destruct (_mag d) as [array |].
  - injection Harray as ->. reflexivity.
  - apply allocate_mag_length. exact Harray.
Qed.

End MagOption.

Lemma sample_msgLen_range (t : Z) : 0 <= sample_msgLen t <= 112.
Proof. unfold sample_msgLen. destruct (_ || _); lia. Qed.

Lemma scan_progress_witness :
  exists s, detectMessage sample_msgLen (sample_parse false) (stored_options None) tt
              clean_signal (num 245) = Some s /\
            in_scan (scan_j s) (num 245) = false /\
            NoDup (scan_examined s).
Proof.
  destruct (scan_progress sample_msgLen (sample_parse false) sample_msgLen_range
              (stored_options None) tt clean_signal (num 245)
              ltac:(vm_compute; congruence))
    as (s & Hrun & Hend & _ & Hnodup & _).
  exists s. repeat split; assumption.
Defined.

(** * Further properties *)

(** ** What the bit slicing can produce *)

Lemma filter_none {A : Type} (f : A -> bool) (l : list A) :
  (forall x, In x l -> f x = false) -> List.filter f l = [].
Proof.
  induction l as [| a l IH]; intros H; simpl; [reflexivity |].
  rewrite (H a (or_introl eq_refl)). apply IH. intros x Hx. apply H. right. exact Hx.
Qed.

Lemma counted_erasure_later (m : list Z) (j b : Z) : 0 < b -> counted_erasure m j b = false.
Proof.
  intros Hb. unfold counted_erasure.
  destruct (Z.ltb_spec 0 b) as [_ | Hle]; [| lia]. simpl.
  destruct (Z.eqb_spec (rd m (j + 16 + 2 * b)) (rd m (j + 16 + 2 * b + 1))) as [-> | Hne].
  - rewrite Z.sub_diag. simpl. reflexivity.
  - rewrite andb_false_r. reflexivity.
Qed.

Lemma counted_erasure_first (m : list Z) (j : Z) :
  counted_erasure m j 0 = (rd m (j + 16) =? rd m (j + 17)).
Proof.
  unfold counted_erasure.
  replace (j + 16 + 2 * 0) with (j + 16) by lia.
  replace (j + 16 + 1) with (j + 17) by lia.
  change (0 <? 0) with false. change (0 <? 56) with true.
  rewrite andb_false_l, andb_true_l, andb_true_r. reflexivity.
Qed.

Lemma sliced_errors (m : list Z) (j : Z) :
  snd (sliceBits m j) = if rd m (j + 16) =? rd m (j + 17) then 1 else 0.
Proof.
  destruct (sliceBits_sliced m j) as (_ & _ & ->).
  replace 112 with (1 + 111) by reflexivity.
  rewrite seqZ_app by lia. rewrite List.filter_app.
  rewrite (filter_none _ (seqZ (0 + 1) 111)).
  - change (seqZ 0 1) with [0]. cbn [List.filter app].
    rewrite counted_erasure_first.
    destruct (rd m (j + 16) =? rd m (j + 17)); reflexivity.
  - intros b Hb. apply list_elem_of_In in Hb. apply elem_of_seqZ in Hb.
    apply counted_erasure_later. lia.
Qed.

Lemma sliced_values (m : list Z) (j : Z) (b : Z) :
  0 <= b < 112 ->
  is_bit_or_erased (rd (fst (sliceBits m j)) b) /\
  (rd m (j + 16) <> rd m (j + 17) -> is_bit (rd (fst (sliceBits m j)) b)).
Proof.
  destruct (sliceBits_sliced m j) as (_ & Hbits & _).
  intros Hb. assert (Hnn : 0 <= b) by lia.
  revert Hb. pattern b. apply natlike_ind with (x := b); [| | exact Hnn].
  - intros _. rewrite Hbits by lia. unfold bit_rule, is_bit_or_erased, is_bit.
    replace (j + 16 + 2 * 0) with (j + 16) by lia.
    replace (j + 16 + 1) with (j + 17) by lia.
    change (0 <? 0) with false. rewrite andb_false_l.
    destruct (Z.eqb_spec (rd m (j + 16)) (rd m (j + 17))); [split; [auto | tauto] |].
    destruct (_ >? _); split; auto.
  - intros k Hk IH Hrange. specialize (IH ltac:(lia)). destruct IH as [IH1 IH2].
    rewrite Hbits by lia. unfold bit_rule.
    replace (Z.succ k - 1) with k by lia.
    destruct (Z.ltb_spec 0 (Z.succ k)) as [_ | Hle]; [| lia]. rewrite andb_true_l.
    destruct (Z.ltb_spec (Z.abs (rd m (j + 16 + 2 * Z.succ k)
                                 - rd m (j + 16 + 2 * Z.succ k + 1))) 256) as [_ | Hbig];
      [split; assumption |].
    unfold is_bit_or_erased, is_bit.
    destruct (Z.eqb_spec (rd m (j + 16 + 2 * Z.succ k)) (rd m (j + 16 + 2 * Z.succ k + 1)));
      [lia |].
    destruct (_ >? _); split; auto.
Qed.

(** X1.  For a candidate whose window lies inside the magnitude array, the
    error counter is 1 when the two samples of the first bit are equal and
    0 otherwise, so it never reaches the bound 3 of the aggressive mode;
    every sliced bit is 0, 1 or 2; and when the first pair differs no bit
    is erased. *)
Theorem slicing_outcomes (m : list Z) (j : Z) :
  0 <= j -> j + FULL_LEN * 2 <= Z.of_nat (length m) ->
  snd (sliceBits m j) = (if rd m (j + 16) =? rd m (j + 17) then 1 else 0) /\
  snd (sliceBits m j) < 3 /\
  (forall b, 0 <= b < 112 -> is_bit_or_erased (rd (fst (sliceBits m j)) b)) /\
  (rd m (j + 16) <> rd m (j + 17) ->
   forall b, 0 <= b < 112 -> is_bit (rd (fst (sliceBits m j)) b)).
Proof.
  intros _ _. split; [apply sliced_errors |]. split; [| split].
  - rewrite sliced_errors. destruct (_ =? _); lia.
  - intros b Hb. apply sliced_values. exact Hb.
  - intros Hfirst b Hb. apply sliced_values; assumption.
Qed.

Lemma slicing_outcomes_witness : snd (sliceBits clean_signal 0) = 0.
Proof.
  destruct (slicing_outcomes clean_signal 0 ltac:(lia) ltac:(vm_compute; congruence))
    as (H & _).
  rewrite H. reflexivity.
Defined.

(** ** Packing *)

Lemma pack_step_byte (bits msg : list Z) (k : Z) :
  pack_step bits (0 + 8 * k) msg = wr msg k (packed_byte bits k).
Proof.
  unfold pack_step, packed_byte. cbv zeta.
  replace (0 + 8 * k) with (8 * k) by lia.
  replace (8 * k / 8) with k by (rewrite Z.mul_comm, Z.div_mul; lia).
  reflexivity.
Qed.

Lemma packBits_packed (bits : list Z) : packed bits 14 (packBits bits).
Proof.
  unfold packBits, LONG_MSG_BITS.
  change 14 with (trip_count 0 112 8) at 1.
  apply for_loop_invariant with (I := packed bits); [lia | |].
  - split; [reflexivity |]. split; [intros t Ht; lia |].
    intros t _. apply rd_new_array.
  - intros k msg Hk Hlt (Hlen & Hdone & Hrest).
    rewrite pack_step_byte. split; [rewrite length_wr; exact Hlen |]. split.
    + intros t Ht. destruct (Z.eq_dec t k) as [-> | Hne].
      * apply rd_wr_eq. lia.
      * rewrite rd_wr_ne by lia. apply Hdone. lia.
    + intros t Ht. rewrite rd_wr_ne by lia. apply Hrest. lia.
Qed.

(** Eight decided bits, most significant first, make a byte that holds
    each of them at its place; its top five bits read as a number. *)
Lemma byte_of_bits (c0 c1 c2 c3 c4 c5 c6 c7 : bool) :
  let v := Z.lor (Z.lor (Z.lor (Z.lor (Z.lor (Z.lor (Z.lor
             (Z.shiftl (Z.b2z c0) 7)
             (Z.shiftl (Z.b2z c1) 6))
             (Z.shiftl (Z.b2z c2) 5))
             (Z.shiftl (Z.b2z c3) 4))
             (Z.shiftl (Z.b2z c4) 3))
             (Z.shiftl (Z.b2z c5) 2))
             (Z.shiftl (Z.b2z c6) 1))
             (Z.b2z c7) in
  ToUint8 v = v /\
  Z.testbit v 7 = c0 /\ Z.testbit v 6 = c1 /\ Z.testbit v 5 = c2 /\ Z.testbit v 4 = c3 /\
  Z.testbit v 3 = c4 /\ Z.testbit v 2 = c5 /\ Z.testbit v 1 = c6 /\ Z.testbit v 0 = c7 /\
  Z.shiftr v 3 = 16 * Z.b2z c0 + 8 * Z.b2z c1 + 4 * Z.b2z c2 + 2 * Z.b2z c3 + Z.b2z c4.
Proof.
  destruct c0, c1, c2, c3, c4, c5, c6, c7; cbv; repeat split.
Qed.

Lemma is_bit_b2z (x : Z) : is_bit x -> x = Z.b2z (x =? 1).
Proof. intros [-> | ->]; reflexivity. Qed.

Lemma packed_byte_decided (bits : list Z) (k : Z) :
  (forall i, 0 <= i < 8 -> is_bit (rd bits (8 * k + i))) ->
  (forall i, 0 <= i < 8 ->
     Z.testbit (packed_byte bits k) (7 - i) = (rd bits (8 * k + i) =? 1)) /\
  Z.shiftr (packed_byte bits k) 3 =
    16 * rd bits (8 * k) + 8 * rd bits (8 * k + 1) + 4 * rd bits (8 * k + 2)
    + 2 * rd bits (8 * k + 3) + rd bits (8 * k + 4).
Proof.
  intros Hbits.
  pose proof (is_bit_b2z _ (Hbits 0 ltac:(lia))) as H0.
  pose proof (is_bit_b2z _ (Hbits 1 ltac:(lia))) as H1.
  pose proof (is_bit_b2z _ (Hbits 2 ltac:(lia))) as H2.
  pose proof (is_bit_b2z _ (Hbits 3 ltac:(lia))) as H3.
  pose proof (is_bit_b2z _ (Hbits 4 ltac:(lia))) as H4.
  pose proof (is_bit_b2z _ (Hbits 5 ltac:(lia))) as H5.
  pose proof (is_bit_b2z _ (Hbits 6 ltac:(lia))) as H6.
  pose proof (is_bit_b2z _ (Hbits 7 ltac:(lia))) as H7.
  replace (8 * k + 0) with (8 * k) in H0 by lia.
  unfold packed_byte. cbv zeta.
  set (x0 := rd bits (8 * k)) in *. set (x1 := rd bits (8 * k + 1)) in *.
  set (x2 := rd bits (8 * k + 2)) in *. set (x3 := rd bits (8 * k + 3)) in *.
  set (x4 := rd bits (8 * k + 4)) in *. set (x5 := rd bits (8 * k + 5)) in *.
  set (x6 := rd bits (8 * k + 6)) in *. set (x7 := rd bits (8 * k + 7)) in *.
  pose proof (byte_of_bits (x0 =? 1) (x1 =? 1) (x2 =? 1) (x3 =? 1)
                (x4 =? 1) (x5 =? 1) (x6 =? 1) (x7 =? 1)) as Hbyte.
  cbv zeta in Hbyte.
  rewrite <- H0, <- H1, <- H2, <- H3, <- H4, <- H5, <- H6, <- H7 in Hbyte.
  destruct Hbyte as (Hfit & T7 & T6 & T5 & T4 & T3 & T2 & T1 & T0 & Hshift).
  rewrite Hfit. split; [| exact Hshift].
  intros i Hi.
  assert (Hcases : i = 0 \/ i = 1 \/ i = 2 \/ i = 3 \/ i = 4 \/ i = 5 \/ i = 6 \/ i = 7)
    by lia.
  destruct Hcases as [-> | [-> | [-> | [-> | [-> | [-> | [-> | ->]]]]]]];
    [replace (8 * k + 0) with (8 * k) by lia | | | | | | |]; assumption.
Qed.

Lemma packed_byte_range (bits : list Z) (k : Z) : 0 <= packed_byte bits k <= 255.
Proof.
  unfold packed_byte, ToUint8. cbv zeta.
  match goal with |- 0 <= ?v mod 256 <= 255 =>
    pose proof (Z.mod_pos_bound v 256 ltac:(lia)) end.
  lia.
Qed.

(** X2.  Whatever the bits, the packed message is 56 bytes long, its
    first 14 bytes are below 256 and the other 42 are 0.  Packing is most
    significant bit first and loses nothing in a byte whose eight bits are
    decided: bit [7 - i] of byte [k] is then set exactly when bit
    [8 k + i] is 1, whatever the bits of the other bytes are. *)
Theorem packed_message_holds_the_bits (bits : list Z) :
  length (packBits bits) = 56%nat /\
  (forall k, 0 <= k < 14 -> 0 <= rd (packBits bits) k <= 255) /\
  (forall t, 14 <= t -> rd (packBits bits) t = 0) /\
  (forall k i, 0 <= k < 14 -> 0 <= i < 8 ->
     (forall i', 0 <= i' < 8 -> is_bit (rd bits (8 * k + i'))) ->
     Z.testbit (rd (packBits bits) k) (7 - i) = (rd bits (8 * k + i) =? 1)).
Proof.
  destruct (packBits_packed bits) as (Hlen & Hdone & Hrest).
  split; [exact Hlen |]. split; [| split; [exact Hrest |]].
  - intros k Hk. rewrite Hdone by lia. apply packed_byte_range.
  - intros k i Hk Hi Hbits. rewrite Hdone by lia.
    apply packed_byte_decided; assumption.
Qed.

Lemma packed_message_holds_the_bits_witness :
  Z.testbit (rd (packBits (2 :: 2 :: replicate 110 1)) 3) (7 - 2) = true /\
  length (packBits (2 :: 2 :: replicate 110 1)) = 56%nat.
Proof.
  destruct (packed_message_holds_the_bits (2 :: 2 :: replicate 110 1))
    as (Hlen & _ & _ & Hbits).
  split; [| exact Hlen].
  rewrite (Hbits 3 2); [reflexivity | lia | lia |].
  intros i' Hi'.
  assert (Hcase : i' = 0 \/ i' = 1 \/ i' = 2 \/ i' = 3 \/ i' = 4 \/ i' = 5 \/
                  i' = 6 \/ i' = 7) by lia.
  destruct Hcase as [-> | [-> | [-> | [-> | [-> | [-> | [-> | ->]]]]]]];
    right; reflexivity.
Defined.

(** X3.  The format code handed to the length lookup always lies in
    [0,31].  For a candidate inside the magnitude array whose first pair of
    samples differs, it is the number whose five binary digits are the
    first five sliced bits. *)
Theorem format_code (m : list Z) (j : Z) :
  0 <= j -> j + FULL_LEN * 2 <= Z.of_nat (length m) ->
  let bits := fst (sliceBits m j) in
  let msgtype := Z.shiftr (rd (packBits bits) 0) 3 in
  0 <= msgtype <= 31 /\
  (rd m (j + 16) <> rd m (j + 17) ->
   msgtype = 16 * rd bits 0 + 8 * rd bits 1 + 4 * rd bits 2 + 2 * rd bits 3 + rd bits 4).
Proof.
  intros _ _. cbv zeta.
  destruct (packBits_packed (fst (sliceBits m j))) as (_ & Hdone & _).
  rewrite Hdone by lia. split.
  - pose proof (packed_byte_range (fst (sliceBits m j)) 0) as Hrange.
    rewrite Z.shiftr_div_pow2 by lia. change (2 ^ 3) with 8.
    split; [apply Z.div_pos; lia | ].
    assert (packed_byte (fst (sliceBits m j)) 0 / 8 < 32)
      by (apply Z.div_lt_upper_bound; lia).
    lia.
  - intros Hfirst.
    destruct (packed_byte_decided (fst (sliceBits m j)) 0) as [_ Hshift].
    + intros i Hi. apply sliced_values; [lia | exact Hfirst].
    + exact Hshift.
Qed.

Lemma format_code_witness :
  Z.shiftr (rd (packBits (fst (sliceBits clean_signal 0))) 0) 3 = 31.
Proof.
  pose proof (format_code clean_signal 0 ltac:(lia) ltac:(vm_compute; congruence)) as H.
  cbv zeta in H. destruct H as [_ H]. rewrite H; vm_compute; congruence.
Defined.

(** ** Acceptance, delivery and advancement *)

Section Acceptance.

Context {Fields DecState : Type}.
Variable msgLen : Z -> Z.
Variable parse : DecState -> list Z -> bool -> Message Fields * DecState.

Lemma decode_candidate_cases (o : Options) (s : Scan) (m aux : list Z) :
  let j := scan_j s in
  let msg := packBits (fst (sliceBits m j)) in
  let L := msgLen (Z.shiftr (rd msg 0) 3) in
  let m' := restore (scan_useCorrection s) m aux j in
  decode_candidate msgLen parse o s m aux =
  if below_threshold (signal_delta m' j (num L / 8)) (num L / 8) then reject s m' aux
  else dispatch parse o s m' aux (if rd m (j + 16) =? rd m (j + 17) then 1 else 0)
         (num L / 8) msg.
Proof.
  cbv zeta. unfold decode_candidate. pose proof (sliced_errors m (scan_j s)) as He.
  destruct (sliceBits m (scan_j s)) as [bits errors]. cbn [fst snd] in *.
  rewrite He. reflexivity.
Qed.

Lemma dispatch_errors_test (o : Options) (equal : bool) :
  (((if equal then 1 else 0) =? 0) || aggressive o && ((if equal then 1 else 0) <? 3))
  = (negb equal || aggressive o).
Proof. destruct equal, (aggressive o); reflexivity. Qed.

(** X4.  For a candidate inside the magnitude array, the decoder is
    consulted exactly when the candidate passes the signal-quality gate and
    either its first pair of samples differs or the aggressive mode is on:
    then the decoder moves to the state [parse] returns, and otherwise it
    keeps its state and nothing is delivered. *)
Theorem decoder_consulted_iff (o : Options) (s : Scan) (m aux : list Z) :
  0 <= scan_j s -> scan_j s + FULL_LEN * 2 <= Z.of_nat (length m) ->
  let j := scan_j s in
  let msg := packBits (fst (sliceBits m j)) in
  let s' := decode_candidate msgLen parse o s m aux in
  (consulted msgLen o (scan_useCorrection s) m aux j = true ->
   scan_decoder s' = snd (parse (scan_decoder s) msg (crcOnly o))) /\
  (consulted msgLen o (scan_useCorrection s) m aux j = false ->
   scan_decoder s' = scan_decoder s /\ scan_delivered s' = scan_delivered s).
Proof.
  intros _ _. cbv zeta. rewrite decode_candidate_cases. unfold consulted. cbv zeta.
  set (msg := packBits _). set (msglen := (num _ / 8)%Q).
  set (m' := restore _ _ _ _). clearbody msg msglen m'.
  destruct (below_threshold _ _); cbn [negb andb].
  - split; [discriminate | intros _; split; reflexivity].
  - unfold dispatch. rewrite dispatch_errors_test.
    destruct (negb _ || aggressive o).
    + split; [intros _ | discriminate].
      unfold accept. destruct (parse _ _ _) as [mm dec'].
      cbn [acc_goodMessage acc_decoder snd].
      destruct (negb (crcOk mm) && negb (scan_useCorrection s)); reflexivity.
    + split; [discriminate | intros _].
      cbn [acc_goodMessage acc_decoder acc_delivered negb andb].
      destruct (negb (scan_useCorrection s)); split; reflexivity.
Qed.

(** X5.  When the decoder is consulted and reports a valid CRC for a
    candidate of resolved length [L], the message is delivered, marked as
    phase corrected exactly when the iteration is a retry, no further retry
    is asked for, and the next offset examined is
    [j + 2 * (8 + L) + 1]: the scan skips the whole message. *)
Theorem crc_valid_advances (o : Options) (s : Scan) (m aux : list Z) :
  0 <= scan_j s -> scan_j s + FULL_LEN * 2 <= Z.of_nat (length m) ->
  let j := scan_j s in
  let msg := packBits (fst (sliceBits m j)) in
  let L := msgLen (Z.shiftr (rd msg 0) 3) in
  let mm := fst (parse (scan_decoder s) msg (crcOnly o)) in
  let s' := decode_candidate msgLen parse o s m aux in
  consulted msgLen o (scan_useCorrection s) m aux j = true ->
  crcOk mm = true ->
  scan_j s' = j + 2 * (8 + L) + 1 /\
  scan_useCorrection s' = false /\
  scan_delivered s' =
    scan_delivered s ++ [if scan_useCorrection s then mark_phaseCorrected mm else mm].
Proof.
  intros _ _. cbv zeta. rewrite decode_candidate_cases. unfold consulted. cbv zeta.
  set (msg := packBits _). set (L := msgLen _).
  set (m' := restore _ _ _ _). clearbody msg L m'.
  destruct (below_threshold _ _); cbn [negb andb]; [discriminate |].
  intros Hc Hok. unfold dispatch. rewrite dispatch_errors_test, Hc.
  unfold accept. destruct (parse _ _ _) as [mm dec']. cbn [fst] in Hok.
  rewrite jump_length, Hok.
  cbn [acc_goodMessage acc_j acc_delivered negb andb orb scan_j scan_useCorrection
       scan_delivered].
  repeat split; lia.
Qed.

(** An iteration under a stored [checkCrc] of [true] only ever appends
    CRC-valid messages, at most one. *)
Lemma decode_candidate_delivers (o : Options) (s : Scan) (m aux : list Z) :
  checkCrc o = true ->
  let s' := decode_candidate msgLen parse o s m aux in
  scan_delivered s' = scan_delivered s \/
  exists mm, crcOk mm = true /\ scan_delivered s' = scan_delivered s ++ [mm].
Proof.
  intros Hcheck. cbv zeta. rewrite decode_candidate_cases.
  set (msg := packBits _). set (L := msgLen _).
  set (m' := restore _ _ _ _). clearbody msg L m'.
  destruct (below_threshold _ _); [left; reflexivity |].
  unfold dispatch. destruct (_ || _).
  - unfold accept. destruct (parse _ _ _) as [mm dec']. rewrite Hcheck.
    cbn [acc_goodMessage acc_delivered negb orb].
    destruct (crcOk mm) eqn:Hok; cbn [negb andb orb].
    + right. eexists. split; [| reflexivity].
      destruct (scan_useCorrection s); exact Hok.
    + left. destruct (negb (scan_useCorrection s)); reflexivity.
  - left. cbn [acc_goodMessage acc_delivered negb andb].
    destruct (negb (scan_useCorrection s)); reflexivity.
Qed.

Lemma iteration_delivers (o : Options) (s : Scan) :
  checkCrc o = true ->
  scan_delivered (iteration msgLen parse o s) = scan_delivered s \/
  exists mm, crcOk mm = true /\
    scan_delivered (iteration msgLen parse o s) = scan_delivered s ++ [mm].
Proof.
  intros Hcheck. unfold iteration.
  destruct (scan_useCorrection (examine s)).
  - destruct (retry_prepare _ _ _) as [m aux].
    apply (decode_candidate_delivers o (examine s) m aux Hcheck).
  - destruct (first_pass _ _); [| left; reflexivity].
    apply (decode_candidate_delivers o (examine s) _ _ Hcheck).
Qed.

Lemma scan_loop_delivers (o : Options) (maglen : Q) (fuel : nat) :
  checkCrc o = true ->
  forall s s' : Scan,
  Forall (fun mm => crcOk mm = true) (scan_delivered s) ->
  scan_loop msgLen parse fuel o maglen s = Some s' ->
  Forall (fun mm => crcOk mm = true) (scan_delivered s').
Proof.
  intros Hcheck. induction fuel as [| fuel IH]; intros s s' Hall; simpl;
    destruct (in_scan _ _); try discriminate.
  - intros [= <-]. exact Hall.
  - apply IH. destruct (iteration_delivers o s Hcheck) as [-> | (mm & Hok & ->)];
      [exact Hall |].
    apply Forall_app. split; [exact Hall | constructor; [exact Hok | constructor]].
  - intros [= <-]. exact Hall.
Qed.

End Acceptance.

Lemma decoder_consulted_iff_witness :
  scan_decoder
    (decode_candidate sample_msgLen (sample_parse true) (stored_options None)
       (examine (scan_start weak_signal tt)) weak_signal (new_array 224)) = tt.
Proof.
  pose proof (decoder_consulted_iff sample_msgLen (sample_parse true) (stored_options None)
                (examine (scan_start weak_signal tt)) weak_signal (new_array 224)
                ltac:(vm_compute; congruence) ltac:(vm_compute; congruence)) as H.
  cbv zeta in H. destruct H as [_ H].
  destruct (H ltac:(vm_compute; reflexivity)) as [Hdec _]. exact Hdec.
Defined.

Lemma crc_valid_advances_witness :
  scan_j
    (decode_candidate sample_msgLen (sample_parse true) (stored_options None)
       (examine (scan_start clean_signal tt)) clean_signal (new_array 224)) = 129.
Proof.
  pose proof (crc_valid_advances sample_msgLen (sample_parse true) (stored_options None)
                (examine (scan_start clean_signal tt)) clean_signal (new_array 224)
                ltac:(vm_compute; congruence) ltac:(vm_compute; congruence)) as H.
  cbv zeta in H.
  destruct (H ltac:(vm_compute; reflexivity) ltac:(reflexivity)) as [Hj _].
  rewrite Hj. vm_compute. reflexivity.
Defined.

(** ** What process delivers *)

Section Delivered.

Context {Fields DecState : Type}.
Variable msgLen : Z -> Z.
Variable new_Decoder : Options -> DecState.
Variable parse : DecState -> list Z -> bool -> Message Fields * DecState.
Variable allocates : Z -> bool.

Lemma process_delivers (d : Demodulator) (data : list Z) (size : Z) :
  checkCrc (options d) = true ->
  match process msgLen parse allocates d data size with
  | Done d' out => options d' = options d /\ Forall (fun mm => crcOk mm = true) out
  | _ => True
  end.
Proof.
  intros Hcheck. unfold process.
  destruct (match _mag d with Some m => Some m | None => allocate_mag allocates size end)
    as [m |]; [| exact I].
  destruct (detectMessage _ _ _ _ _ _) as [s |] eqn:Hscan; [| exact I].
  split; [reflexivity |].
  unfold detectMessage in Hscan.
  apply (scan_loop_delivers msgLen parse (options d) _ _ Hcheck _ _) in Hscan;
    [exact Hscan | constructor].
Qed.

Lemma process_calls_deliver (calls : list (list Z * Z)) :
  forall d : Demodulator,
  checkCrc (options d) = true -> all_crc_valid (process_calls msgLen parse allocates d calls).
Proof.
  unfold all_crc_valid.
  induction calls as [| [data size] rest IH]; intros d Hcheck; simpl; [constructor |].
  pose proof (process_delivers d data size Hcheck) as H.
  destruct (process msgLen parse allocates d data size) as [d' out | |].
  - destruct H as [Hopt Hall]. constructor; [exact Hall |].
    apply IH. rewrite Hopt. exact Hcheck.
  - constructor; [exact I | apply IH; exact Hcheck].
  - constructor; [exact I | apply IH; exact Hcheck].
Qed.

(** X6.  Whatever options a Demodulator is constructed with, every message
    that [process] passes to the callback has a valid CRC, on a first call
    with any data and size and on every later call whose size does not
    exceed the first. *)
Theorem delivered_messages_are_crc_valid (opts : option DemodulatorOptions)
    (data : list Z) (size : Z) (later : list (list Z * Z)) :
  Forall (fun call => snd call <= size) later ->
  all_crc_valid
    (process_calls msgLen parse allocates (constructor new_Decoder opts) ((data, size) :: later)).
Proof.
  intros _. apply process_calls_deliver. apply stored_checkCrc.
Qed.

End Delivered.

(** ** What a scan keeps *)

Section ScanInvariant.

Context {Fields DecState : Type}.
Variable msgLen : Z -> Z.
Variable parse : DecState -> list Z -> bool -> Message Fields * DecState.
Hypothesis msgLen_range : forall t, 0 <= msgLen t <= 112.

Lemma iteration_first_pass (o : Options) (s : Scan) :
  scan_useCorrection s = false ->
  scan_mag (iteration msgLen parse o s) = scan_mag s /\
  scan_aux (iteration msgLen parse o s) = scan_aux s.
Proof.
  intros Huc. unfold iteration.
  change (scan_useCorrection (examine s)) with (scan_useCorrection s).
  change (scan_j (examine s)) with (scan_j s).
  change (scan_mag (examine s)) with (scan_mag s).
  change (scan_aux (examine s)) with (scan_aux s).
  rewrite Huc. destruct (first_pass _ _); [| split; reflexivity].
  destruct (decode_candidate_mag msgLen parse o (examine s) (scan_mag s) (scan_aux s))
    as [-> ->].
  change (scan_useCorrection (examine s)) with (scan_useCorrection s).
  rewrite Huc. split; reflexivity.
Qed.

Lemma iteration_retry_aux (o : Options) (s : Scan) :
  scan_useCorrection s = true ->
  scan_aux (iteration msgLen parse o s) =
  memcpy (scan_aux s) 0 (scan_mag s) (scan_j s + PREAMBLE_US * 2)
    (Z.of_nat (length (scan_aux s))).
Proof.
  intros Huc. rewrite (iteration_retry msgLen parse o s Huc).
  rewrite (proj2 (decode_candidate_mag msgLen parse o (examine s) _ _)).
  unfold retry_prepare. destruct (negb _ && negb _); reflexivity.
Qed.

Lemma scan_start_invariant (m : list Z) (dec : DecState) (maglen : Q) :
  scan_invariant m maglen (scan_start (Fields := Fields) m dec).
Proof.
  unfold scan_invariant, scan_start. cbn [scan_j scan_aux scan_mag scan_examined].
  split; [lia |]. split; [reflexivity |]. split; [intros i _; apply rd_new_array |].
  split; [reflexivity |]. split; [reflexivity | constructor].
Qed.

Lemma iteration_invariant (o : Options) (m0 : list Z) (maglen : Q) (s : Scan) :
  scan_invariant m0 maglen s -> in_scan (scan_j s) maglen = true ->
  scan_invariant m0 maglen (iteration msgLen parse o s).
Proof.
  intros (Hj & Haux & Hzero & Hlen & Hframe & Hlog) Hin.
  rewrite in_scan_bound in Hin. apply Z.ltb_lt in Hin.
  destruct (iteration_step msgLen parse msgLen_range o s) as [Hlog' Hstep].
  unfold scan_invariant.
  split; [destruct Hstep as [(_ & -> & _) | (Hnext & _)]; lia |].
  destruct (scan_useCorrection s) eqn:Huc.
  - rewrite (iteration_retry_aux o s Huc).
    split; [rewrite (proj1 (memcpy_rd _ _ _ _ _ 0)); exact Haux |].
    split.
    { intros i Hi. rewrite (proj2 (memcpy_rd _ _ _ _ _ i)).
      unfold PREAMBLE_US.
      destruct (Z.leb_spec (scan_j s + 8 * 2) (i - 0)); [lia |].
      cbn [andb]. apply Hzero. exact Hi. }
    split; [rewrite iteration_length; exact Hlen |].
    split.
    { intros k Hk. rewrite retry_outside_window; [apply Hframe; exact Hk | exact Huc
        | exact Haux |].
      unfold scan_bound, FULL_LEN, PREAMBLE_US, LONG_MSG_BITS in Hin. lia. }
    rewrite Hlog'. apply Forall_app. split; [exact Hlog |].
    constructor; [cbn [fst]; lia | constructor].
  - destruct (iteration_first_pass o s Huc) as [-> ->].
    split; [exact Haux |]. split; [exact Hzero |]. split; [exact Hlen |].
    split; [exact Hframe |].
    rewrite Hlog'. apply Forall_app. split; [exact Hlog |].
    constructor; [cbn [fst]; lia | constructor].
Qed.

Lemma reached_invariant (o : Options) (m : list Z) (dec : DecState) (maglen : Q)
    (s : Scan) :
  reached msgLen parse o maglen (scan_start m dec) s -> scan_invariant m maglen s.
Proof.
  induction 1 as [| s Hreached IH Hin].
  - apply scan_start_invariant.
  - apply iteration_invariant; assumption.
Qed.

Lemma scan_loop_reached (o : Options) (maglen : Q) (start : Scan) (fuel : nat) :
  forall s s' : Scan,
  reached msgLen parse o maglen start s ->
  scan_loop msgLen parse fuel o maglen s = Some s' ->
  reached msgLen parse o maglen start s'.
Proof.
  induction fuel as [| fuel IH]; intros s s' Hs; simpl;
    destruct (in_scan (scan_j s) maglen) eqn:Hin; try discriminate.
  - intros [= <-]. exact Hs.
  - apply IH. apply reached_step; assumption.
  - intros [= <-]. exact Hs.
Qed.

Lemma detectMessage_reached (o : Options) (dec : DecState) (m : list Z) (maglen : Q)
    (s : Scan) :
  detectMessage msgLen parse o dec m maglen = Some s ->
  reached msgLen parse o maglen (scan_start m dec) s.
Proof.
  unfold detectMessage. apply scan_loop_reached. apply reached_start.
Qed.

End ScanInvariant.

Lemma scan_bound_inside (m : list Z) (maglen : Q) (j : Z) :
  (maglen <= num (Z.of_nat (length m)))%Q -> j < scan_bound maglen ->
  j + FULL_LEN * 2 < Z.of_nat (length m).
Proof.
  intros Hlen Hj. unfold scan_bound in Hj.
  assert (Hceil : Qceiling maglen <= Z.of_nat (length m)).
  { rewrite <- (Qceiling_Z (Z.of_nat (length m))). apply Qceiling_resp_le. exact Hlen. }
  lia.
Qed.

Section ScanFacts.

Context {Fields DecState : Type}.
Variable msgLen : Z -> Z.
Variable parse : DecState -> list Z -> bool -> Message Fields * DecState.
Hypothesis msgLen_range : forall t, 0 <= msgLen t <= 112.

(** X7.  For a length lookup with values in [0,112] and a magnitude array
    of at least [maglen] elements, every offset [j] that a scan examines
    satisfies [0 <= j] and [j + 240 < length]: the 240 samples of its window,
    and the sample before it when [j > 0], all lie inside the array. *)
Theorem examined_windows_inside (o : Options) (dec : DecState) (m : list Z)
    (maglen : Q) (s : Scan) :
  (maglen <= num (Z.of_nat (length m)))%Q ->
  detectMessage msgLen parse o dec m maglen = Some s ->
  Forall (fun e => 0 <= fst e /\ fst e + FULL_LEN * 2 < Z.of_nat (length m))
         (scan_examined s).
Proof.
  intros Hlen Hrun.
  apply (detectMessage_reached msgLen parse) in Hrun.
  apply (reached_invariant msgLen parse msgLen_range) in Hrun.
  destruct Hrun as (_ & _ & _ & _ & _ & Hlog).
  eapply Forall_impl; [exact Hlog |].
  intros e He. cbv beta in He. split; [lia |].
  apply (scan_bound_inside m maglen); [exact Hlen | lia].
Qed.

(** X8.  A scan keeps the length of the magnitude array and never changes
    its first 16 samples nor any sample from index [ceil maglen - 1] on:
    whatever the retries do, they do it to the samples in between. *)
Theorem scan_frame (o : Options) (dec : DecState) (m : list Z) (maglen : Q)
    (s : Scan) (k : Z) :
  (maglen <= num (Z.of_nat (length m)))%Q ->
  detectMessage msgLen parse o dec m maglen = Some s ->
  k < 16 \/ Qceiling maglen - 1 <= k ->
  length (scan_mag s) = length m /\ rd (scan_mag s) k = rd m k.
Proof.
  intros _ Hrun Hk.
  apply (detectMessage_reached msgLen parse) in Hrun.
  apply (reached_invariant msgLen parse msgLen_range) in Hrun.
  destruct Hrun as (_ & _ & _ & Hlength & Hframe & _).
  split; [exact Hlength | apply Hframe; exact Hk].
Qed.

(** X9.  In every state that a scan goes through, a retry leaves the first
    16 samples of its message window at 0: the restoration copies the first
    16 elements of the snapshot array there, and the snapshot never writes
    them. *)
Theorem retry_zeroes_window_head (o : Options) (dec : DecState) (m : list Z)
    (maglen : Q) (s : Scan) (i : Z) :
  (maglen <= num (Z.of_nat (length m)))%Q ->
  reached msgLen parse o maglen (scan_start m dec) s ->
  in_scan (scan_j s) maglen = true ->
  scan_useCorrection s = true ->
  0 <= i < 16 ->
  rd (scan_mag (iteration msgLen parse o s)) (scan_j s + 16 + i) = 0.
Proof.
  intros Hlen Hreached Hin Huc Hi.
  apply (reached_invariant msgLen parse msgLen_range) in Hreached.
  destruct Hreached as (Hj & Haux & Hzero & Hlength & _ & _).
  rewrite in_scan_bound in Hin. apply Z.ltb_lt in Hin.
  pose proof (scan_bound_inside m maglen (scan_j s) Hlen Hin) as Hinside.
  unfold FULL_LEN, PREAMBLE_US, LONG_MSG_BITS in Hinside.
  rewrite (retry_inside_window msgLen parse o s i Huc Haux Hj); [| lia | lia].
  destruct (Z.leb_spec (scan_j s + 16) i); [lia |].
  apply Hzero. exact Hi.
Qed.

End ScanFacts.

Lemma examined_windows_inside_witness :
  match detectMessage sample_msgLen (sample_parse false) (stored_options None) tt
          clean_signal (num 245) with
  | Some s => Forall (fun e => 0 <= fst e /\ fst e + FULL_LEN * 2 < 245) (scan_examined s)
  | None => False
  end.
Proof.
  destruct (detectMessage sample_msgLen (sample_parse false) (stored_options None) tt
              clean_signal (num 245)) as [s |] eqn:Hrun.
  - apply (examined_windows_inside sample_msgLen (sample_parse false) sample_msgLen_range
             (stored_options None) tt clean_signal (num 245) s
             ltac:(vm_compute; congruence) Hrun).
  - vm_compute in Hrun. discriminate Hrun.
Defined.

Lemma scan_frame_witness :
  match detectMessage sample_msgLen (sample_parse false) (stored_options None) tt
          clean_signal (num 245) with
  | Some s => rd (scan_mag s) 15 = 0
  | None => False
  end.
Proof.
  destruct (detectMessage sample_msgLen (sample_parse false) (stored_options None) tt
              clean_signal (num 245)) as [s |] eqn:Hrun.
  - destruct (scan_frame sample_msgLen (sample_parse false) sample_msgLen_range
                (stored_options None) tt clean_signal (num 245) s 15
                ltac:(vm_compute; congruence) Hrun ltac:(lia)) as [_ H].
    rewrite H. reflexivity.
  - vm_compute in Hrun. discriminate Hrun.
Defined.

Lemma retry_zeroes_window_head_witness :
  rd (scan_mag
        (iteration sample_msgLen (sample_parse false) (stored_options None)
           (iteration sample_msgLen (sample_parse false) (stored_options None)
              (scan_start clean_signal tt)))) (0 + 16 + 3) = 0.
Proof.
  apply (retry_zeroes_window_head sample_msgLen (sample_parse false) sample_msgLen_range
           (stored_options None) tt clean_signal (num 245)
           (iteration sample_msgLen (sample_parse false) (stored_options None)
              (scan_start clean_signal tt)) 3).
  - vm_compute. congruence.
  - apply reached_step; [apply reached_start | vm_compute; reflexivity].
  - vm_compute. reflexivity.
  - vm_compute. reflexivity.
  - lia.
Defined.

(** ** Buffers with nothing to find *)

Section Quiet.

Context {Fields DecState : Type}.
Variable msgLen : Z -> Z.
Variable parse : DecState -> list Z -> bool -> Message Fields * DecState.

(** X10.  A buffer of at most 240 magnitudes is not scanned at all: no
    offset is examined, nothing is delivered and the state is the initial
    one.  A message needs its 240 samples and one more to be looked at. *)
Theorem short_buffer_not_scanned (o : Options) (dec : DecState) (m : list Z)
    (maglen : Q) :
  (maglen <= num 240)%Q ->
  detectMessage msgLen parse o dec m maglen = Some (scan_start m dec).
Proof.
  intros Hshort. unfold detectMessage.
  assert (Hout : in_scan (scan_j (scan_start (Fields := Fields) m dec)) maglen = false).
  { rewrite in_scan_bound. apply Z.ltb_ge. unfold scan_bound, scan_start.
    cbn [scan_j].
    assert (Qceiling maglen <= 240)
      by (rewrite <- (Qceiling_Z 240); apply Qceiling_resp_le; exact Hshort).
    unfold FULL_LEN, PREAMBLE_US, LONG_MSG_BITS. lia. }
  destruct (scan_fuel maglen); cbn [scan_loop]; rewrite Hout; reflexivity.
Qed.

Lemma first_pass_needs_falling_edge (m : list Z) (j : Z) :
  rd m j <= rd m (j + 1) -> first_pass m j = false.
Proof.
  intros Hle. unfold first_pass, preamble_shape.
  destruct (Z.gtb_spec (rd m j) (rd m (j + 1))) as [Hgt | _]; [lia |].
  reflexivity.
Qed.

Lemma quiet_loop (o : Options) (maglen : Q) (fuel : nat) :
  forall s : Scan,
  scan_useCorrection s = false -> 0 <= scan_j s ->
  (forall j, scan_j s <= j < scan_bound maglen ->
             rd (scan_mag s) j <= rd (scan_mag s) (j + 1)) ->
  scan_bound maglen - scan_j s <= Z.of_nat fuel ->
  scan_loop msgLen parse fuel o maglen s =
  Some {| scan_j := Z.max (scan_j s) (scan_bound maglen); scan_useCorrection := false;
          scan_mag := scan_mag s; scan_aux := scan_aux s;
          scan_decoder := scan_decoder s; scan_delivered := scan_delivered s;
          scan_examined := scan_examined s ++
            ((fun j => (j, false)) <$> seqZ (scan_j s) (scan_bound maglen - scan_j s)) |}.
Proof.
  induction fuel as [| fuel IH]; intros s Huc Hj Hquiet Hfuel.
  - simpl. rewrite in_scan_bound.
    destruct (Z.ltb_spec (scan_j s) (scan_bound maglen)); [lia |].
    rewrite seqZ_nil by lia. rewrite app_nil_r.
    replace (Z.max (scan_j s) (scan_bound maglen)) with (scan_j s) by lia.
    destruct s; cbn in *. rewrite Huc. reflexivity.
  - simpl. rewrite in_scan_bound.
    destruct (Z.ltb_spec (scan_j s) (scan_bound maglen)) as [Hlt | Hge].
    + assert (Hstep : iteration msgLen parse o s =
                {| scan_j := scan_j s + 1; scan_useCorrection := false;
                   scan_mag := scan_mag s; scan_aux := scan_aux s;
                   scan_decoder := scan_decoder s; scan_delivered := scan_delivered s;
                   scan_examined := scan_examined s ++ [(scan_j s, false)] |}).
      { unfold iteration.
        change (scan_useCorrection (examine s)) with (scan_useCorrection s).
        change (scan_j (examine s)) with (scan_j s).
        change (scan_mag (examine s)) with (scan_mag s).
        rewrite Huc. rewrite first_pass_needs_falling_edge by (apply Hquiet; lia).
        cbn [examine scan_aux scan_decoder scan_delivered scan_examined].
        rewrite Huc. reflexivity. }
      rewrite Hstep. rewrite IH; cbn [scan_j scan_useCorrection scan_mag scan_aux
                                      scan_decoder scan_delivered scan_examined];
        [| reflexivity | lia | intros j Hjr; apply Hquiet; lia | lia].
      replace (Z.max (scan_j s + 1) (scan_bound maglen))
        with (Z.max (scan_j s) (scan_bound maglen)) by lia.
      assert (Hlog : (scan_examined s ++ [(scan_j s, false)]) ++
                     ((fun j => (j, false)) <$>
                      seqZ (scan_j s + 1) (scan_bound maglen - (scan_j s + 1)))
                     = scan_examined s ++
                       ((fun j => (j, false)) <$>
                        seqZ (scan_j s) (scan_bound maglen - scan_j s))).
      { rewrite <- app_assoc. f_equal.
        rewrite (seqZ_cons (scan_j s)) by lia. rewrite fmap_cons. cbn [app].
        replace (Z.succ (scan_j s)) with (scan_j s + 1) by lia.
        replace (Z.pred (scan_bound maglen - scan_j s))
          with (scan_bound maglen - (scan_j s + 1)) by lia.
        reflexivity. }
      rewrite Hlog. reflexivity.
    + rewrite seqZ_nil by lia. rewrite app_nil_r.
      replace (Z.max (scan_j s) (scan_bound maglen)) with (scan_j s) by lia.
      destruct s; cbn in *. rewrite Huc. reflexivity.
Qed.

(** X11.  When no scanned offset starts with a falling edge, that is when
    [mag[j] <= mag[j + 1]] for every [j] below the bound (silence, a
    constant level, a rising ramp), the scan examines every offset once,
    never retries, leaves the magnitudes and the decoder untouched and
    delivers nothing. *)
Theorem quiet_buffer (o : Options) (dec : DecState) (m : list Z) (maglen : Q) :
  (maglen <= num (Z.of_nat (length m)))%Q ->
  (forall j, 0 <= j < scan_bound maglen -> rd m j <= rd m (j + 1)) ->
  detectMessage msgLen parse o dec m maglen = Some (scanned_quietly m dec maglen).
Proof.
  intros _ Hquiet. unfold detectMessage.
  rewrite quiet_loop; cbn [scan_start scan_j scan_useCorrection scan_mag].
  - unfold scanned_quietly. cbn [scan_start scan_aux scan_decoder scan_delivered
                                  scan_examined app].
    replace (scan_bound maglen - 0) with (scan_bound maglen) by lia. reflexivity.
  - reflexivity.
  - lia.
  - exact Hquiet.
  - unfold scan_fuel, scan_bound. lia.
Qed.

End Quiet.

Lemma short_buffer_not_scanned_witness :
  detectMessage sample_msgLen (sample_parse true) (stored_options None) tt
    (firstn 240 clean_signal) (num 240) = Some (scan_start (firstn 240 clean_signal) tt).
Proof.
  apply short_buffer_not_scanned. vm_compute. congruence.
Defined.

Lemma quiet_buffer_witness :
  detectMessage sample_msgLen (sample_parse true) (stored_options None) tt
    (replicate 300 5) (num 300) = Some (scanned_quietly (replicate 300 5) tt (num 300)).
Proof.
  apply quiet_buffer.
  - vm_compute. congruence.
  - intros j Hj. unfold rd.
    destruct (Z.ltb_spec j 0); [lia |]. destruct (Z.ltb_spec (j + 1) 0); [lia |].
    assert (Hb : scan_bound (num 300) = 60) by reflexivity.
    rewrite !lookup_replicate_2 by lia. simpl. lia.
Defined.

(** ** The scan always returns *)

Section Returns.

Context {Fields DecState : Type}.
Variable msgLen : Z -> Z.
Variable parse : DecState -> list Z -> bool -> Message Fields * DecState.
Hypothesis msgLen_range : forall t, 0 <= msgLen t <= 112.

Lemma detectMessage_returns (o : Options) (dec : DecState) (m : list Z) (maglen : Q) :
  exists s, detectMessage msgLen parse o dec m maglen = Some s.
Proof.
  destruct (scan_loop_enough_fuel msgLen parse msgLen_range o maglen (scan_fuel maglen)
              (scan_start m dec)) as (s & Hrun & _).
  - unfold scan_measure, scan_fuel, scan_bound, scan_start.
    cbn [scan_j scan_useCorrection]. lia.
  - split; constructor.
  - exists s. exact Hrun.
Qed.

End Returns.

(** ** The correction, sample by sample *)

Lemma rd_uint16 (m : list Z) (k : Z) : Forall is_uint16 m -> is_uint16 (rd m k).
Proof.
  intros Hall. unfold rd. destruct (k <? 0); [unfold is_uint16; lia |].
  destruct (m !! Z.to_nat k) as [v |] eqn:E; [| unfold is_uint16; simpl; lia].
  rewrite Forall_forall in Hall. apply Hall. eapply list_elem_of_lookup_2. exact E.
Qed.

Lemma all_uint16 (m : list Z) :
  forallb (fun v => (0 <=? v) && (v <=? 65535)) m = true -> Forall is_uint16 m.
Proof.
  induction m as [| v m IH]; intros H; [constructor |].
  cbn [forallb] in H. apply andb_true_iff in H as [Hv Hm].
  apply andb_true_iff in Hv as [Hlo Hhi].
  constructor; [unfold is_uint16; lia | exact (IH Hm)].
Qed.

Lemma correction_step_store (off j : Z) (m : list Z) :
  is_uint16 (rd m (off + j + 2)) ->
  correction_step off j m =
  wr m (off + j + 2)
     (if rd m (off + j) >? rd m (off + j + 1)
      then scaled_up (rd m (off + j + 2)) else scaled_down (rd m (off + j + 2))).
Proof.
  intros [Hlo Hhi]. unfold correction_step, wr16, ToUint16, scaled_up, scaled_down.
  destruct (_ >? _); f_equal.
  - rewrite (truncate_quotient _ 4) by lia. reflexivity.
  - rewrite (truncate_quotient _ 5) by lia. apply Z.mod_small.
    split; [apply Z.div_pos; lia | apply Z.div_lt_upper_bound; lia].
Qed.

Lemma applyPhaseCorrection_corrected (m : list Z) (off : Z) :
  0 <= off -> off + 224 <= Z.of_nat (length m) -> Forall is_uint16 m ->
  corrected_up_to m off 103 (applyPhaseCorrection m off).
Proof.
  intros Hoff Hlen Hall. unfold applyPhaseCorrection, LONG_MSG_BITS.
  change 103 with (trip_count 16 ((112 - 1) * 2) 2) at 1.
  apply for_loop_invariant with (I := corrected_up_to m off); [lia | |].
  - split; [reflexivity |]. split; [| intros k _; reflexivity].
    intros u Hu. assert (u = 0%nat) as -> by lia.
    cbn [corrected_sample]. f_equal. lia.
  - intros t m' Ht Hlt (Hlen' & Hdone & Hrest).
    assert (Hv : rd m' (off + (16 + 2 * t) + 2) = rd m (off + (16 + 2 * t) + 2))
      by (apply Hrest; lia).
    assert (Hhigh : rd m' (off + (16 + 2 * t) + 1) = rd m (off + (16 + 2 * t) + 1)).
    { apply Hrest. right. right.
      replace (off + (16 + 2 * t) + 1 - off) with (1 + 2 * (8 + t)) by lia.
      rewrite Z.odd_add_mul_2. reflexivity. }
    assert (Hlow : rd m' (off + (16 + 2 * t)) = corrected_sample m off (Z.to_nat t)).
    { rewrite <- (Hdone (Z.to_nat t)) by lia. f_equal. lia. }
    rewrite correction_step_store by (rewrite Hv; apply rd_uint16; exact Hall).
    rewrite Hv, Hhigh, Hlow.
    split; [rewrite length_wr; exact Hlen' |]. split.
    + intros u Hu. destruct (Z.eq_dec (Z.of_nat u) (t + 1)) as [Heq | Hne].
      * replace (off + 16 + 2 * Z.of_nat u) with (off + (16 + 2 * t) + 2) by lia.
        rewrite rd_wr_eq by lia.
        replace u with (S (Z.to_nat t)) by lia.
        cbn [corrected_sample]. cbv zeta. rewrite Z2Nat.id by lia.
        replace (off + 16 + 2 * t + 1) with (off + (16 + 2 * t) + 1) by lia.
        replace (off + 16 + 2 * t + 2) with (off + (16 + 2 * t) + 2) by lia.
        reflexivity.
      * rewrite rd_wr_ne by lia. apply Hdone. lia.
    + intros k Hk. rewrite rd_wr_ne; [apply Hrest |].
      * destruct Hk as [Hk | [Hk | Hk]]; [left; lia | right; left; lia | right; right; exact Hk].
      * intros Heq. destruct Hk as [Hk | [Hk | Hk]]; [lia | lia |].
        replace (k - off) with (0 + 2 * (9 + t)) in Hk by lia.
        rewrite Z.odd_add_mul_2 in Hk. discriminate Hk.
Qed.

(** X13.  What [applyPhaseCorrection] does to a window of 16-bit samples
    that lies inside the array.  It keeps the length and changes only the
    leading samples of the message pairs 1 to 103: the preamble, the first
    pair, every trailing sample and the pairs 104 to 111 stay as they are.
    Each changed sample is scaled up when the pair before it decodes as a
    one and down otherwise, the pair before it being read with its own
    leading sample already corrected. *)
Theorem phase_correction_cascade (m : list Z) (off : Z) :
  0 <= off -> off + 224 <= Z.of_nat (length m) -> Forall is_uint16 m ->
  length (applyPhaseCorrection m off) = length m /\
  (forall t : nat, (t <= 103)%nat ->
     rd (applyPhaseCorrection m off) (off + 16 + 2 * Z.of_nat t)
       = corrected_sample m off t) /\
  (forall k, k < off + 18 \/ off + 222 < k \/ Z.odd (k - off) = true ->
     rd (applyPhaseCorrection m off) k = rd m k).
Proof.
  intros Hoff Hlen Hall.
  destruct (applyPhaseCorrection_corrected m off Hoff Hlen Hall) as (H1 & H2 & H3).
  split; [exact H1 |]. split.
  - intros t Ht. apply H2. lia.
  - intros k Hk. apply H3.
    destruct Hk as [Hk | [Hk | Hk]]; [left; lia | right; left; lia | right; right; exact Hk].
Qed.

Lemma phase_correction_cascade_witness :
  rd (applyPhaseCorrection clean_signal 0) (0 + 16 + 2 * Z.of_nat 2) = 7500.
Proof.
  destruct (phase_correction_cascade clean_signal 0) as (_ & H & _).
  - lia.
  - vm_compute. congruence.
  - apply all_uint16. vm_compute. reflexivity.
  - rewrite H by lia. vm_compute. reflexivity.
Defined.

(** X14.  The scale-down store is exact and never wraps: when the pair at
    [offset + j], inside the array, does not decode as a one, a 16-bit
    sample [v] at [offset + j + 2] becomes [floor (4 v / 5)], which is at
    most [v] and smaller than [v] unless [v] is 0. *)
Theorem scale_down_is_exact (m : list Z) (off j v : Z) :
  0 <= off + j -> off + j + 2 < Z.of_nat (length m) ->
  rd m (off + j) <= rd m (off + j + 1) ->
  rd m (off + j + 2) = v -> 0 <= v <= 65535 ->
  rd (correction_step off j m) (off + j + 2) = 4 * v / 5 /\
  4 * v / 5 <= v /\ (0 < v -> 4 * v / 5 < v).
Proof.
  intros Hlow Hin Hzero Hv Hrange.
  rewrite correction_step_store by (rewrite Hv; exact Hrange).
  destruct (Z.gtb_spec (rd m (off + j)) (rd m (off + j + 1))) as [Hgt | _]; [lia |].
  rewrite rd_wr_eq by lia. rewrite Hv. unfold scaled_down.
  replace (v * 4) with (4 * v) by lia.
  split; [reflexivity |].
  split; [apply Z.div_le_upper_bound; lia |].
  intros Hpos. apply Z.div_lt_upper_bound; lia.
Qed.

Lemma scale_down_is_exact_witness :
  rd (correction_step 0 16 [0; 0; 0; 0; 0; 0; 0; 0; 0; 0; 0; 0; 0; 0; 0; 0; 3; 9; 101]) 18 = 80.
Proof.
  destruct (scale_down_is_exact [0; 0; 0; 0; 0; 0; 0; 0; 0; 0; 0; 0; 0; 0; 0; 0; 3; 9; 101]
              0 16 101) as (H & _).
  - lia.
  - simpl. lia.
  - vm_compute. congruence.
  - reflexivity.
  - lia.
  - exact H.
Defined.

(** ** The lookup table as an order on magnitudes *)

Lemma round_sqrt_360_strict (n n' : Z) :
  0 <= n < n' -> n < 32400 -> round_sqrt_360 n < round_sqrt_360 n'.
Proof.
  intros Hn Hsmall. unfold round_sqrt_360.
  pose proof (Z.sqrt_spec (4 * 360 * 360 * n) ltac:(lia)) as [Hlo _].
  pose proof (Z.sqrt_nonneg (4 * 360 * 360 * n)) as Hs.
  set (s := Z.sqrt (4 * 360 * 360 * n)) in *.
  assert (Hbound : s < 129600) by nia.
  assert (Hnext : s + 2 <= Z.sqrt (4 * 360 * 360 * n')).
  { apply Z.sqrt_le_square; [lia | lia | nia]. }
  set (s' := Z.sqrt (4 * 360 * 360 * n')) in *.
  assert (H : (s + 1) / 2 + 1 <= (s' + 1) / 2).
  { replace ((s + 1) / 2 + 1) with ((s + 3) / 2)
      by (replace (s + 3) with (s + 1 + 1 * 2) by lia; rewrite Z.div_add by lia; lia).
    apply Z.div_le_mono; lia. }
  lia.
Qed.

Lemma largest_sums (i q : Z) :
  0 <= i <= 128 -> 0 <= q <= 128 -> 32400 <= i * i + q * q ->
  i * i + q * q = 32513 \/ i * i + q * q = 32768.
Proof.
  intros Hi Hq Hbig.
  assert (Hi' : 127 <= i) by nia.
  assert (Hq' : 127 <= q) by nia.
  assert (Ei : i = 127 \/ i = 128) by lia.
  assert (Eq : q = 127 \/ q = 128) by lia.
  destruct Ei as [-> | ->], Eq as [-> | ->]; lia.
Qed.

Lemma table_strict (i q i' q' : Z) :
  0 <= i <= 128 -> 0 <= q <= 128 -> 0 <= i' <= 128 -> 0 <= q' <= 128 ->
  i * i + q * q < i' * i' + q' * q' ->
  round_sqrt_360 (i * i + q * q) < round_sqrt_360 (i' * i' + q' * q').
Proof.
  intros Hi Hq Hi' Hq' Hlt.
  destruct (Z_lt_le_dec (i * i + q * q) 32400) as [Hsmall | Hbig].
  - apply round_sqrt_360_strict; [nia | exact Hsmall].
  - destruct (largest_sums i q Hi Hq Hbig) as [E | E],
             (largest_sums i' q' Hi' Hq' ltac:(lia)) as [E' | E'];
      rewrite E, E' in *; try lia.
    vm_compute. reflexivity.
Qed.

Lemma round_sqrt_360_square (i : Z) : 0 <= i -> round_sqrt_360 (i * i) = 360 * i.
Proof.
  intros Hi. unfold round_sqrt_360.
  rewrite (Z.sqrt_unique (4 * 360 * 360 * (i * i)) (720 * i)) by nia.
  replace (720 * i + 1) with (1 + 360 * i * 2) by lia.
  rewrite Z.div_add by lia. reflexivity.
Qed.

(** X15.  The table orders its entries exactly as the true magnitudes: for
    deviations in [0,128], one entry is smaller than another if and only if
    its [i * i + q * q] is smaller, and two entries are equal if and only if
    their [i * i + q * q] are equal (rounding never merges two different
    magnitudes, and [(i, q)] and [(q, i)] share their value).  On both axes
    the entry is exactly 360 times the deviation. *)
Theorem MAG_LUT_orders_magnitudes (i q i' q' : Z) :
  0 <= i <= 128 -> 0 <= q <= 128 -> 0 <= i' <= 128 -> 0 <= q' <= 128 ->
  (rd build_MAG_LUT (i * 129 + q) < rd build_MAG_LUT (i' * 129 + q')
     <-> i * i + q * q < i' * i' + q' * q') /\
  (rd build_MAG_LUT (i * 129 + q) = rd build_MAG_LUT (i' * 129 + q')
     <-> i * i + q * q = i' * i' + q' * q') /\
  rd build_MAG_LUT (i * 129 + q) = rd build_MAG_LUT (q * 129 + i) /\
  rd build_MAG_LUT (i * 129 + 0) = 360 * i /\
  rd build_MAG_LUT (0 * 129 + q) = 360 * q.
Proof.
  intros Hi Hq Hi' Hq'.
  rewrite !MAG_LUT_entry by lia.
  assert (Hmono : forall n n', 0 <= n <= n' -> round_sqrt_360 n <= round_sqrt_360 n')
    by (intros n n'; apply round_sqrt_360_mono).
  pose proof (table_strict i q i' q' Hi Hq Hi' Hq') as Hup.
  pose proof (table_strict i' q' i q Hi' Hq' Hi Hq) as Hdown.
  split; [| split; [| split; [| split]]].
  - split; [| exact Hup].
    intros Hlt. destruct (Z_lt_le_dec (i * i + q * q) (i' * i' + q' * q')) as [H | H];
      [exact H |].
    specialize (Hmono (i' * i' + q' * q') (i * i + q * q) ltac:(nia)). lia.
  - split.
    + intros Heq.
      destruct (Z.lt_total (i * i + q * q) (i' * i' + q' * q')) as [H | [H | H]];
        [specialize (Hup H); lia | exact H | specialize (Hdown H); lia].
    + intros ->. reflexivity.
  - f_equal. lia.
  - replace (i * i + 0 * 0) with (i * i) by lia. apply round_sqrt_360_square. lia.
  - replace (0 * 0 + q * q) with (q * q) by lia. apply round_sqrt_360_square. lia.
Qed.

Lemma MAG_LUT_orders_magnitudes_witness :
  rd build_MAG_LUT (3 * 129 + 4) = rd build_MAG_LUT (5 * 129 + 0) /\
  rd build_MAG_LUT (5 * 129 + 0) = 1800.
Proof.
  destruct (MAG_LUT_orders_magnitudes 3 4 5 0) as (_ & Heq & _ & _ & _);
    [lia | lia | lia | lia |].
  destruct (MAG_LUT_orders_magnitudes 5 0 5 0) as (_ & _ & _ & Haxis & _);
    [lia | lia | lia | lia |].
  split; [apply Heq; reflexivity | exact Haxis].
Defined.

(** ** The signed encoding *)

Lemma readInt8_outside (data : list Z) (j : Z) :
  Z.of_nat (length data) <= j -> readInt8 data j = None.
Proof.
  intros Hj. unfold readInt8. destruct (Z.ltb_spec j 0); [reflexivity |].
  rewrite (proj2 (lookup_ge_None data (Z.to_nat j))) by lia. reflexivity.
Qed.

Lemma whole_pairs_bounds (data : list Z) :
  2 * whole_pairs data <= Z.of_nat (length data) <= 2 * whole_pairs data + 1.
Proof.
  unfold whole_pairs.
  pose proof (Z.div_mod (Z.of_nat (length data)) 2 ltac:(lia)).
  pose proof (Z.mod_pos_bound (Z.of_nat (length data)) 2 ltac:(lia)). lia.
Qed.

Lemma signed_loop_runs (lut data m : list Z) (size : Z) :
  signed_loop_state lut data m (Z.max 0 ((size + 1) / 2))
    (for_loop 0 size 2 (magnitude_signed lut data) (Returned m)).
Proof.
  pose proof (whole_pairs_bounds data) as Hw.
  replace (Z.max 0 ((size + 1) / 2)) with (trip_count 0 size 2)
    by (unfold trip_count; do 2 f_equal; lia).
  apply for_loop_invariant with (I := signed_loop_state lut data m); [lia | |].
  - split; [| lia]. intros _. exists m. split; [reflexivity | apply pairs_written_start].
  - intros t c Ht Hlt [Hrun Hthrown].
    replace (0 + 2 * t) with (2 * t) by lia.
    destruct (Z_lt_le_dec t (whole_pairs data)) as [Hin | Hout].
    + destruct (Hrun ltac:(lia)) as (out & -> & Hwritten).
      destruct (readInt8_inside data (2 * t) ltac:(lia)) as [a Ha].
      destruct (readInt8_inside data (2 * t + 1) ltac:(lia)) as [b Hb].
      split; [intros _ | lia].
      unfold magnitude_signed. rewrite Ha, Hb.
      replace (2 * t / 2) with t by (rewrite Z.mul_comm, Z.div_mul; lia).
      eexists. split; [reflexivity |].
      assert (Hval : signed_value lut data t = rd lut (absolute a * 129 + absolute b))
        by (unfold signed_value, pair_magnitude_signed; rewrite Ha, Hb; reflexivity).
      rewrite <- Hval.
      exact (pairs_written_step (signed_value lut data) m out t Ht Hwritten).
    + split; [lia | intros _].
      destruct (Z.eq_dec t (whole_pairs data)) as [Heq | Hne].
      * destruct (Hrun ltac:(lia)) as (out & -> & Hwritten).
        exists out. rewrite <- Heq. split; [| exact Hwritten].
        unfold magnitude_signed.
        rewrite (readInt8_outside data (2 * t + 1)) by lia.
        destruct (readInt8 data (2 * t)); reflexivity.
      * destruct (Hthrown ltac:(lia)) as (out & -> & Hwritten).
        exists out. split; [reflexivity | exact Hwritten].
Qed.

(** X16.  When the signed encoding throws.  With [signedInt] set, the call
    returns normally exactly when [size] does not go past the last whole
    pair of [data]; the pairs below [ceil (size / 2)] are then written.
    Otherwise the read that leaves the buffer throws a [RangeError], after
    every whole pair of [data] has been written to the output array: the
    failure is found at the end of the data, not before the loop. *)
Theorem signed_encoding_throws_at_the_end (lut data m : list Z) (size : Z) :
  (size <= 2 * whole_pairs data ->
     exists out, computeMagnitudeVector lut data m size true = Returned out /\
       pairs_written (signed_value lut data) m (Z.max 0 ((size + 1) / 2)) out) /\
  (2 * whole_pairs data < size ->
     exists out, computeMagnitudeVector lut data m size true = RangeError out /\
       pairs_written (signed_value lut data) m (whole_pairs data) out).
Proof.
  unfold computeMagnitudeVector.
  pose proof (whole_pairs_bounds data) as Hw.
  destruct (signed_loop_runs lut data m size) as [Hrun Hthrown].
  split; intros Hsize.
  - apply Hrun.
    assert ((size + 1) / 2 < whole_pairs data + 1)
      by (apply Z.div_lt_upper_bound; lia).
    lia.
  - apply Hthrown.
    assert (whole_pairs data + 1 <= (size + 1) / 2)
      by (apply Z.div_le_lower_bound; lia).
    lia.
Qed.

Lemma signed_encoding_throws_at_the_end_witness :
  exists out,
    computeMagnitudeVector [5; 6; 7; 8] [0; 3; 0; 1; 9] [7; 7; 7; 7] 6 true
      = RangeError out /\
    rd out 0 = 8 /\ rd out 1 = 6 /\ rd out 2 = 7.
Proof.
  destruct (signed_encoding_throws_at_the_end
              [5; 6; 7; 8] [0; 3; 0; 1; 9] [7; 7; 7; 7] 6)
    as [_ Hthrown].
  destruct (Hthrown ltac:(vm_compute; reflexivity)) as (out & Hout & _ & Hrd).
  exists out. split; [exact Hout |].
  rewrite !Hrd. vm_compute. repeat split.
Defined.

(** ** The two encodings agree *)

Lemma rd_ext (a b : list Z) :
  length a = length b -> (forall k, rd a k = rd b k) -> a = b.
Proof.
  intros Hlen Hrd. apply list_eq. intros i.
  specialize (Hrd (Z.of_nat i)). unfold rd in Hrd.
  destruct (Z.ltb_spec (Z.of_nat i) 0); [lia |].
  rewrite Nat2Z.id in Hrd.
  destruct (a !! i) as [x |] eqn:Ea, (b !! i) as [y |] eqn:Eb; simpl in Hrd.
  - rewrite Hrd. reflexivity.
  - apply lookup_lt_Some in Ea. apply lookup_ge_None in Eb. lia.
  - apply lookup_ge_None in Ea. apply lookup_lt_Some in Eb. lia.
  - reflexivity.
Qed.

Lemma to_signed_byte_deviation (u : Z) :
  is_byte u ->
  absolute (if 128 <=? to_signed_byte u then to_signed_byte u - 256 else to_signed_byte u)
  = absolute (u - 127).
Proof.
  intros [Hlo Hhi]. unfold to_signed_byte.
  destruct (Z_lt_le_dec u 127) as [Hneg | Hpos].
  - replace ((u - 127) mod 256) with (u + 129)
      by (apply (Z.mod_unique _ _ (-1)); lia).
    destruct (Z.leb_spec 128 (u + 129)); [| lia]. f_equal. lia.
  - rewrite Z.mod_small by lia.
    destruct (Z.leb_spec 128 (u - 127)); [| reflexivity].
    assert (u = 255) as -> by lia. reflexivity.
Qed.

Lemma signed_pair_of_unsigned (lut data : list Z) (k : Z) :
  Forall is_byte data -> 0 <= k -> 2 * k + 1 < Z.of_nat (length data) ->
  signed_value lut (to_signed_byte <$> data) k = pair_magnitude lut data k.
Proof.
  intros Hbytes Hk Hin.
  destruct (byte_at_inside data (2 * k) Hbytes ltac:(lia)) as (a & Ha & Hra).
  destruct (byte_at_inside data (2 * k + 1) Hbytes ltac:(lia)) as (b & Hb & Hrb).
  unfold signed_value, pair_magnitude_signed, pair_magnitude, readInt8.
  rewrite Ha, Hb. unfold byte_at in Ha, Hb.
  destruct (Z.ltb_spec (2 * k) 0); [lia |].
  destruct (Z.ltb_spec (2 * k + 1) 0); [lia |].
  rewrite !list_lookup_fmap, Ha, Hb. simpl.
  rewrite !to_signed_byte_deviation by assumption. reflexivity.
Qed.

(** X17.  The two encodings agree.  Re-encoding a buffer of offset-binary
    bytes (bias 127) as signed bytes and setting [signedInt] gives the same
    output array as the default encoding on the original buffer, for every
    [size] that stays within the whole pairs of the buffer; the byte 255,
    whose sample 128 has no signed byte, is covered too, because it becomes
    -128 and only the absolute value is used. *)
Theorem encodings_agree (lut data m : list Z) (size : Z) :
  Forall is_byte data -> size <= 2 * whole_pairs data ->
  computeMagnitudeVector lut (to_signed_byte <$> data) m size true
  = computeMagnitudeVector lut data m size false.
Proof.
  intros Hbytes Hsize.
  pose proof (whole_pairs_bounds data) as Hw.
  assert (Hsame : whole_pairs (to_signed_byte <$> data) = whole_pairs data)
    by (unfold whole_pairs; rewrite length_fmap; reflexivity).
  destruct (signed_loop_runs lut (to_signed_byte <$> data) m size) as [Hrun _].
  assert (Htrip : Z.max 0 ((size + 1) / 2) <= whole_pairs data).
  { assert ((size + 1) / 2 < whole_pairs data + 1) by (apply Z.div_lt_upper_bound; lia).
    lia. }
  destruct (Hrun ltac:(lia)) as (out & Hout & Hlen & Hrd).
  destruct (unsigned_loop_pairs lut data m size) as [Hlen' Hrd'].
  unfold computeMagnitudeVector. rewrite Hout. f_equal.
  apply rd_ext; [congruence |].
  intros k. rewrite Hrd, Hrd'.
  destruct (Z.leb_spec 0 k); [| reflexivity].
  destruct (Z.ltb_spec k (Z.max 0 ((size + 1) / 2))); [| reflexivity].
  destruct (Z.ltb_spec k (Z.of_nat (length m))); [| reflexivity].
  simpl. apply signed_pair_of_unsigned; [exact Hbytes | lia | lia].
Qed.

Lemma encodings_agree_witness :
  computeMagnitudeVector build_MAG_LUT (to_signed_byte <$> [255; 0; 127; 130]) [0; 0] 4 true
  = computeMagnitudeVector build_MAG_LUT [255; 0; 127; 130] [0; 0] 4 false.
Proof.
  apply encodings_agree.
  - repeat constructor; unfold is_byte; lia.
  - vm_compute. congruence.
Defined.

(** ** The preamble tests and the gain *)

Lemma Qgtb_third (a b : Z) : Qgtb (num a) (num b / 3) = (b <? 3 * a).
Proof.
  unfold Qgtb, Qltb, Qle_bool, num, Qdiv, Qmult, Qinv, inject_Z. cbn [Qnum Qden].
  destruct (Z.leb_spec (a * Z.pos (1 * 3)) (b * 1 * 1)), (Z.ltb_spec b (3 * a));
    simpl; try reflexivity; lia.
Qed.

Lemma Qgeb_sixth (a s : Z) : Qgeb (num a) (num s / 6) = (s <=? 6 * a).
Proof.
  unfold Qgeb, Qle_bool, num, Qdiv, Qmult, Qinv, inject_Z. cbn [Qnum Qden].
  destruct (Z.leb_spec (s * 1 * 1) (a * Z.pos (1 * 6))), (Z.leb_spec s (6 * a));
    simpl; try reflexivity; lia.
Qed.

Lemma rd_amplified (c : Z) (m : list Z) (k : Z) : rd (amplified c m) k = c * rd m k.
Proof.
  unfold rd, amplified. destruct (k <? 0); [lia |].
  rewrite list_lookup_fmap. destruct (m !! Z.to_nat k); simpl; lia.
Qed.

Lemma gtb_scale (c x y : Z) : 0 < c -> (c * x >? c * y) = (x >? y).
Proof. intros Hc. destruct (Z.gtb_spec (c * x) (c * y)), (Z.gtb_spec x y); try reflexivity; nia. Qed.

Lemma ltb_scale (c x y : Z) : 0 < c -> (c * x <? c * y) = (x <? y).
Proof. intros Hc. destruct (Z.ltb_spec (c * x) (c * y)), (Z.ltb_spec x y); try reflexivity; nia. Qed.

Lemma third_scale (c a b : Z) : 0 < c -> (c * b <? 3 * (c * a)) = (b <? 3 * a).
Proof.
  intros Hc. destruct (Z.ltb_spec (c * b) (3 * (c * a))), (Z.ltb_spec b (3 * a));
    try reflexivity; nia.
Qed.

Lemma sixth_scale (c a b d e x : Z) :
  0 < c -> (c * a + c * b + c * d + c * e <=? 6 * (c * x)) = (a + b + d + e <=? 6 * x).
Proof.
  intros Hc.
  destruct (Z.leb_spec (c * a + c * b + c * d + c * e) (6 * (c * x))),
           (Z.leb_spec (a + b + d + e) (6 * x)); try reflexivity; nia.
Qed.

(** The two tests on whole numbers: a sample exceeds a third of another, or
    reaches a sixth of the sum of the four pulses. *)
Lemma detectOutOfPhase_integers (m : list Z) (offset : Z) :
  detectOutOfPhase m offset =
  if rd m (offset + 2) <? 3 * rd m (offset + 3) then 1
  else if rd m (offset + 9) <? 3 * rd m (offset + 10) then 1
  else if rd m (offset + 7) <? 3 * rd m (offset + 6) then -1
  else if rd m (offset + 1) <? 3 * rd m (offset + -1) then -1
  else 0.
Proof. unfold detectOutOfPhase. rewrite !Qgtb_third. reflexivity. Qed.

Lemma first_pass_integers (m : list Z) (j : Z) :
  first_pass m j =
  let pulses := rd m j + rd m (j + 2) + rd m (j + 7) + rd m (j + 9) in
  preamble_shape m j &&
  negb ((pulses <=? 6 * rd m (j + 4)) || (pulses <=? 6 * rd m (j + 5))) &&
  negb ((pulses <=? 6 * rd m (j + 11)) || (pulses <=? 6 * rd m (j + 12)) ||
        (pulses <=? 6 * rd m (j + 13)) || (pulses <=? 6 * rd m (j + 14))).
Proof.
  unfold first_pass, spike_level. rewrite !Qgeb_sixth. cbv zeta.
  destruct (preamble_shape m j); [| reflexivity]. cbn [negb andb].
  destruct (_ || _); [reflexivity |]. cbn [negb].
  destruct (_ || _ || _ || _); reflexivity.
Qed.

(** X18.  The preamble tests do not depend on the gain.  On the magnitudes
    of the same signal received [c] times stronger ([c > 0]) the first-pass
    preamble test accepts the same offsets and, away from the start of the
    buffer, [detectOutOfPhase] returns the same value, because both only
    compare samples with each other or with fixed fractions of each
    other. *)
Theorem preamble_tests_ignore_gain (c : Z) (m : list Z) (j : Z) :
  0 < c -> 0 <= j -> j + 14 < Z.of_nat (length m) ->
  first_pass (amplified c m) j = first_pass m j /\
  (1 <= j -> detectOutOfPhase (amplified c m) j = detectOutOfPhase m j).
Proof.
  intros Hc _ _. split.
  - rewrite !first_pass_integers. unfold preamble_shape. cbv zeta.
    rewrite !rd_amplified.
    rewrite !gtb_scale, !ltb_scale, !sixth_scale by exact Hc. reflexivity.
  - intros _. rewrite !detectOutOfPhase_integers. rewrite !rd_amplified.
    rewrite !third_scale by exact Hc. reflexivity.
Qed.

Lemma preamble_tests_ignore_gain_witness :
  first_pass (amplified 2 clean_signal) 0 = true /\
  detectOutOfPhase (amplified 2 shifted_signal) 1 = 0.
Proof.
  destruct (preamble_tests_ignore_gain 2 clean_signal 0 ltac:(lia) ltac:(lia)
              ltac:(vm_compute; reflexivity)) as [H _].
  destruct (preamble_tests_ignore_gain 2 shifted_signal 1 ltac:(lia) ltac:(lia)
              ltac:(vm_compute; reflexivity)) as [_ H'].
  rewrite H, (H' ltac:(lia)). vm_compute. split; reflexivity.
Defined.

(** ** Strong signals *)

Lemma strong_bit (m : list Z) (j b prev : Z) :
  256 <= pair_difference m j b -> bit_rule m j b prev = Z.b2z (pulse_bit m j b).
Proof.
  unfold pair_difference, bit_rule, pulse_bit. cbv zeta. intros Hstrong.
  destruct (Z.ltb_spec (Z.abs (rd m (j + 16 + 2 * b) - rd m (j + 16 + 2 * b + 1))) 256);
    [lia |].
  rewrite andb_false_r.
  destruct (Z.eqb_spec (rd m (j + 16 + 2 * b)) (rd m (j + 16 + 2 * b + 1))); [lia |].
  destruct (_ >? _); reflexivity.
Qed.

Lemma difference_sum_strong (m : list Z) (j floor L : Z) :
  0 <= L -> (forall b, 0 <= b < L -> floor <= pair_difference m j b) ->
  floor * L <= difference_sum m j L.
Proof.
  intros HL. pattern L. apply natlike_ind; [| | exact HL].
  - intros _. unfold difference_sum. simpl. lia.
  - intros k Hk IH Hall. unfold Z.succ. rewrite difference_sum_snoc by lia.
    specialize (IH ltac:(intros b Hb; apply Hall; lia)).
    specialize (Hall k ltac:(lia)). lia.
Qed.

Lemma all_below (P : Z -> bool) (n : Z) :
  forallb P (seqZ 0 n) = true -> forall b, 0 <= b < n -> P b = true.
Proof.
  intros H b Hb. rewrite forallb_forall in H. apply H.
  apply list_elem_of_In. apply elem_of_seqZ. lia.
Qed.

Section Strong.

Context {Fields DecState : Type}.
Variable msgLen : Z -> Z.
Variable parse : DecState -> list Z -> bool -> Message Fields * DecState.

(** X19.  A strong candidate is read pulse by pulse.  When the two samples
    of each of the 112 pairs of the sliced window, inside the array, differ
    by at least 256, no bit is copied from its neighbour or erased: the
    error counter is 0, bit [b] is 1 exactly when the leading sample of
    pair [b] is the higher one, and bit [7 - i] of message byte [k] is that
    of pair [8 k + i].  Separately, the signal-quality gate reads the
    magnitudes as restored after the slicing (on a first pass, the sliced
    magnitudes themselves): when their pairs differ by at least 1275 over
    the resolved length [L], the gate lets the candidate through, and the
    decoder is consulted with the packed message if the first sliced pair
    differs or the aggressive mode is on. *)
Theorem strong_signal_decodes (o : Options) (s : Scan) (m aux : list Z) :
  0 <= scan_j s -> scan_j s + FULL_LEN * 2 <= Z.of_nat (length m) ->
  let j := scan_j s in
  let msg := packBits (fst (sliceBits m j)) in
  let L := msgLen (Z.shiftr (rd msg 0) 3) in
  let m' := restore (scan_useCorrection s) m aux j in
  ((forall b, 0 <= b < 112 -> 256 <= pair_difference m j b) ->
     snd (sliceBits m j) = 0 /\
     (forall b, 0 <= b < 112 ->
        rd (fst (sliceBits m j)) b = Z.b2z (pulse_bit m j b)) /\
     (forall k i, 0 <= k < 14 -> 0 <= i < 8 ->
        Z.testbit (rd msg k) (7 - i) = pulse_bit m j (8 * k + i))) /\
  (0 < L <= 112 ->
   (forall b, 0 <= b < L -> 1275 <= pair_difference m' j b) ->
     below_threshold (signal_delta m' j (num L / 8)) (num L / 8) = false /\
     (rd m (j + 16) <> rd m (j + 17) \/ aggressive o = true ->
      scan_decoder (decode_candidate msgLen parse o s m aux)
        = snd (parse (scan_decoder s) msg (crcOnly o)))).
Proof.
  intros _ _. cbv zeta. split.
  - intros Hstrong.
    destruct (sliceBits_sliced m (scan_j s)) as (_ & Hbits & _).
    assert (Hread : forall b, 0 <= b < 112 ->
              rd (fst (sliceBits m (scan_j s))) b = Z.b2z (pulse_bit m (scan_j s) b)).
    { intros b Hb. rewrite Hbits by lia. apply strong_bit. apply Hstrong. exact Hb. }
    split; [| split; [exact Hread |]].
    + rewrite sliced_errors.
      specialize (Hstrong 0 ltac:(lia)). unfold pair_difference in Hstrong.
      replace (scan_j s + 16 + 2 * 0) with (scan_j s + 16) in Hstrong by lia.
      replace (scan_j s + 16 + 1) with (scan_j s + 17) in Hstrong by lia.
      destruct (Z.eqb_spec (rd m (scan_j s + 16)) (rd m (scan_j s + 17)));
        [lia | reflexivity].
    + intros k i Hk Hi.
      destruct (packBits_packed (fst (sliceBits m (scan_j s)))) as (_ & Hdone & _).
      rewrite Hdone by lia.
      destruct (packed_byte_decided (fst (sliceBits m (scan_j s))) k) as [Htest _].
      * intros i' Hi'. rewrite Hread by lia.
        destruct (pulse_bit m (scan_j s) (8 * k + i')); [right | left]; reflexivity.
      * rewrite Htest by exact Hi. rewrite Hread by lia.
        destruct (pulse_bit m (scan_j s) (8 * k + i)); reflexivity.
  - set (j := scan_j s). set (msg := packBits _). set (L := msgLen _).
    set (m' := restore _ _ _ _). intros HL Hloud.
    assert (Hgate : below_threshold (signal_delta m' j (num L / 8)) (num L / 8) = false).
    { rewrite signal_delta_sum by lia. rewrite below_threshold_as_integers by lia.
      pose proof (difference_sum_strong m' j 1275 L ltac:(lia) Hloud) as Hsum.
      destruct (Z.ltb_spec (2 * difference_sum m' j L) (2550 * L));
        [lia | reflexivity]. }
    split; [exact Hgate |].
    intros Hfirst. rewrite decode_candidate_cases.
    fold j. fold msg. fold L. fold m'. rewrite Hgate.
    unfold dispatch. rewrite dispatch_errors_test.
    assert (Htest : negb (rd m (j + 16) =? rd m (j + 17)) || aggressive o = true).
    { destruct Hfirst as [Hne | ->]; [| apply orb_true_r].
      destruct (Z.eqb_spec (rd m (j + 16)) (rd m (j + 17))); [contradiction | reflexivity]. }
    rewrite Htest. clearbody msg L m'.
    unfold accept. destruct (parse _ _ _) as [mm dec'].
    cbn [acc_goodMessage acc_decoder snd].
    destruct (negb (crcOk mm) && negb (scan_useCorrection s)); reflexivity.
Qed.

End Strong.

Lemma strong_signal_decodes_witness :
  Z.testbit (rd (packBits (fst (sliceBits clean_signal 0))) 3) (7 - 2) = true /\
  below_threshold (signal_delta clean_signal 0 (num 56 / 8)) (num 56 / 8) = false.
Proof.
  assert (Hstrong : forall b, 0 <= b < 112 -> 1275 <= pair_difference clean_signal 0 b).
  { intros b Hb.
    apply Z.leb_le.
    apply (all_below (fun b => 1275 <=? pair_difference clean_signal 0 b) 112);
      [vm_compute; reflexivity | exact Hb]. }
  assert (HL : sample_msgLen (Z.shiftr (rd (packBits (fst (sliceBits clean_signal 0))) 0) 3)
               = 56) by (vm_compute; reflexivity).
  pose proof (strong_signal_decodes sample_msgLen (sample_parse true) (stored_options None)
                (examine (scan_start clean_signal tt)) clean_signal (new_array 224)
                ltac:(vm_compute; congruence) ltac:(vm_compute; congruence)) as H.
  cbv zeta in H. cbn [scan_j scan_useCorrection examine scan_start restore] in H.
  rewrite HL in H. destruct H as [Hread Hgate].
  destruct Hread as (_ & _ & Hbytes).
  { intros b Hb. specialize (Hstrong b Hb). lia. }
  split.
  - rewrite Hbytes by lia. vm_compute. reflexivity.
  - destruct Hgate as [Hpass _].
    + lia.
    + intros b Hb. apply Hstrong. lia.
    + exact Hpass.
Defined.

(** ** Weak candidates *)

Lemma difference_sum_weak (m : list Z) (j ceiling L : Z) :
  0 <= L -> (forall b, 0 <= b < L -> pair_difference m j b <= ceiling) ->
  difference_sum m j L <= ceiling * L.
Proof.
  intros HL. pattern L. apply natlike_ind; [| | exact HL].
  - intros _. unfold difference_sum. simpl. lia.
  - intros k Hk IH Hall. unfold Z.succ. rewrite difference_sum_snoc by lia.
    specialize (IH ltac:(intros b Hb; apply Hall; lia)).
    specialize (Hall k ltac:(lia)). lia.
Qed.

Section Weak.

Context {Fields DecState : Type}.
Variable msgLen : Z -> Z.
Variable parse : DecState -> list Z -> bool -> Message Fields * DecState.

(** X20.  A weak candidate is dropped without a second look.  When the
    pairs of the resolved length [L] of a candidate inside the array all
    differ by less than 1275 (on the magnitudes as restored after the
    slicing), the iteration ends at the signal-quality gate: the decoder is
    not consulted, nothing is delivered, no retry with phase correction is
    scheduled even on a first pass, and the scan goes on at [j + 1]. *)
Theorem weak_candidate_is_dropped (o : Options) (s : Scan) (m aux : list Z) :
  0 <= scan_j s -> scan_j s + FULL_LEN * 2 <= Z.of_nat (length m) ->
  let j := scan_j s in
  let msg := packBits (fst (sliceBits m j)) in
  let L := msgLen (Z.shiftr (rd msg 0) 3) in
  let m' := restore (scan_useCorrection s) m aux j in
  let s' := decode_candidate msgLen parse o s m aux in
  0 < L ->
  (forall b, 0 <= b < L -> pair_difference m' j b < 1275) ->
  scan_j s' = j + 1 /\ scan_useCorrection s' = false /\
  scan_decoder s' = scan_decoder s /\ scan_delivered s' = scan_delivered s /\
  scan_mag s' = m'.
Proof.
  intros _ _. cbv zeta.
  set (j := scan_j s). set (L := msgLen _). set (m' := restore _ _ _ _).
  intros HL Hweak. rewrite decode_candidate_cases.
  fold j. fold L. fold m'.
  rewrite signal_delta_sum by lia. rewrite below_threshold_as_integers by exact HL.
  assert (Hsum : difference_sum m' j L <= 1274 * L).
  { apply difference_sum_weak; [lia |].
    intros b Hb. specialize (Hweak b Hb). lia. }
  destruct (Z.ltb_spec (2 * difference_sum m' j L) (2550 * L)); [| lia].
  unfold reject. cbn [scan_j scan_useCorrection scan_decoder scan_delivered scan_mag].
  repeat split.
Qed.

End Weak.

Lemma weak_candidate_is_dropped_witness :
  scan_j
    (decode_candidate sample_msgLen (sample_parse true) (stored_options None)
       (examine (scan_start weak_signal tt)) weak_signal (new_array 224)) = 1.
Proof.
  pose proof (weak_candidate_is_dropped sample_msgLen (sample_parse true) (stored_options None)
                (examine (scan_start weak_signal tt)) weak_signal (new_array 224)
                ltac:(vm_compute; congruence) ltac:(vm_compute; congruence)) as H.
  cbv zeta in H.
  destruct H as [Hj _].
  - vm_compute. reflexivity.
  - intros b Hb. apply Z.ltb_lt.
    apply (all_below (fun b => pair_difference weak_signal 0 b <? 1275) 56);
      [vm_compute; reflexivity |].
    revert Hb. vm_compute. intros [H1 H2]. split; [exact H1 | exact H2].
  - exact Hj.
Defined.

(** ** Delivered messages do not overlap *)

Section Budget.

Context {Fields DecState : Type}.
Variable msgLen : Z -> Z.
Variable parse : DecState -> list Z -> bool -> Message Fields * DecState.
Hypothesis msgLen_short_or_long : forall t, 56 <= msgLen t <= 112.

Lemma decode_candidate_budget (o : Options) (s : Scan) (m aux : list Z) :
  checkCrc o = true ->
  let s' := decode_candidate msgLen parse o s m aux in
  (scan_delivered s' = scan_delivered s /\ scan_j s <= scan_j s' <= scan_j s + 1) \/
  (exists mm, scan_delivered s' = scan_delivered s ++ [mm] /\
              scan_j s + 129 <= scan_j s' <= scan_j s + 241).
Proof.
  intros Hcrc. cbv zeta. unfold decode_candidate.
  destruct (sliceBits m (scan_j s)) as [bits errors].
  pose proof (msgLen_short_or_long (Z.shiftr (rd (packBits bits) 0) 3)) as HL.
  set (L := msgLen _) in *. clearbody L.
  set (m' := restore _ _ _ _). clearbody m'.
  destruct (below_threshold _ _).
  - left. unfold reject. cbn [scan_j scan_delivered]. split; [reflexivity | lia].
  - unfold dispatch.
    destruct ((errors =? 0) || aggressive o && (errors <? 3)).
    + unfold accept. destruct (parse _ _ _) as [mm dec'].
      rewrite jump_length, Hcrc.
      destruct (crcOk mm), (scan_useCorrection s);
        cbn [scan_j scan_delivered acc_j acc_goodMessage acc_delivered negb andb orb];
        try (left; split; [reflexivity | lia]);
        right; eexists; (split; [reflexivity | lia]).
    + destruct (scan_useCorrection s);
        cbn [scan_j scan_delivered acc_j acc_goodMessage acc_delivered negb andb];
        left; (split; [reflexivity | lia]).
Qed.

Lemma iteration_budget (o : Options) (maglen : Q) (s : Scan) :
  checkCrc o = true -> delivery_budget maglen s -> in_scan (scan_j s) maglen = true ->
  delivery_budget maglen (iteration msgLen parse o s).
Proof.
  intros Hcrc [Hcount Hj] Hin.
  rewrite in_scan_bound in Hin. apply Z.ltb_lt in Hin.
  unfold scan_bound, FULL_LEN, PREAMBLE_US, LONG_MSG_BITS in Hin.
  assert (Hcases :
    (scan_delivered (iteration msgLen parse o s) = scan_delivered s /\
     scan_j s <= scan_j (iteration msgLen parse o s) <= scan_j s + 1) \/
    (exists mm, scan_delivered (iteration msgLen parse o s) = scan_delivered s ++ [mm] /\
                scan_j s + 129 <= scan_j (iteration msgLen parse o s) <= scan_j s + 241)).
  { unfold iteration.
    change (scan_useCorrection (examine s)) with (scan_useCorrection s).
    change (scan_j (examine s)) with (scan_j s).
    change (scan_mag (examine s)) with (scan_mag s).
    change (scan_aux (examine s)) with (scan_aux s).
    destruct (scan_useCorrection s).
    - destruct (retry_prepare _ _ _) as [m aux].
      exact (decode_candidate_budget o (examine s) m aux Hcrc).
    - destruct (first_pass _ _).
      + exact (decode_candidate_budget o (examine s) (scan_mag s) (scan_aux s) Hcrc).
      + left. cbn [scan_j scan_delivered examine]. split; [reflexivity | lia]. }
  unfold delivery_budget.
  destruct Hcases as [[-> Hnext] | (mm & -> & Hnext)].
  - lia.
  - rewrite length_app. cbn [length]. lia.
Qed.

Lemma reached_budget (o : Options) (m : list Z) (dec : DecState) (maglen : Q) (s : Scan) :
  checkCrc o = true ->
  reached msgLen parse o maglen (scan_start m dec) s -> delivery_budget maglen s.
Proof.
  intros Hcrc. induction 1 as [| s Hreached IH Hin].
  - unfold delivery_budget, scan_start. cbn [scan_j scan_delivered length]. lia.
  - apply iteration_budget; assumption.
Qed.

(** X21.  Delivered messages do not overlap.  With a length lookup that
    answers 56 or more bits and the [checkCrc] that every constructed
    Demodulator stores, each delivered message moves the scan at least 129
    samples ahead, so a call of [detectMessage] on [maglen] samples
    delivers at most [ceil maglen / 129] messages, and the final offset
    does not go past [ceil maglen]. *)
Theorem delivered_messages_do_not_overlap (o : Options) (dec : DecState) (m : list Z)
    (maglen : Q) (s : Scan) :
  checkCrc o = true ->
  (maglen <= num (Z.of_nat (length m)))%Q ->
  detectMessage msgLen parse o dec m maglen = Some s ->
  129 * Z.of_nat (length (scan_delivered s)) <= Z.max 0 (Qceiling maglen) /\
  scan_j s <= Z.max 0 (Qceiling maglen).
Proof.
  intros Hcrc _ Hrun.
  assert (Hreached : reached msgLen parse o maglen (scan_start m dec) s).
  { unfold detectMessage in Hrun.
    assert (Hloop : forall fuel (a b : Scan),
              reached msgLen parse o maglen (scan_start m dec) a ->
              scan_loop msgLen parse fuel o maglen a = Some b ->
              reached msgLen parse o maglen (scan_start m dec) b).
    { induction fuel as [| fuel IH]; intros a b Ha; simpl;
        destruct (in_scan (scan_j a) maglen) eqn:Hin; try discriminate.
      - intros [= <-]. exact Ha.
      - apply IH. apply reached_step; assumption.
      - intros [= <-]. exact Ha. }
    exact (Hloop _ _ _ (reached_start _ _ _ _ _) Hrun). }
  destruct (reached_budget o m dec maglen s Hcrc Hreached) as [Hcount Hj].
  split; lia.
Qed.

End Budget.

Lemma sample_msgLen_short_or_long (t : Z) : 56 <= sample_msgLen t <= 112.
Proof. unfold sample_msgLen. destruct (_ || _); lia. Qed.

Lemma delivered_messages_do_not_overlap_witness :
  match detectMessage sample_msgLen (sample_parse true) (stored_options None) tt
          clean_signal (num 245) with
  | Some s => 129 * Z.of_nat (length (scan_delivered s)) <= 245 /\ scan_j s <= 245
  | None => False
  end.
Proof.
  destruct (detectMessage sample_msgLen (sample_parse true) (stored_options None) tt
              clean_signal (num 245)) as [s |] eqn:Hrun.
  - apply (delivered_messages_do_not_overlap sample_msgLen (sample_parse true)
             sample_msgLen_short_or_long
             (stored_options None) tt clean_signal (num 245) s
             ltac:(reflexivity) ltac:(vm_compute; congruence) Hrun).
  - vm_compute in Hrun. discriminate Hrun.
Defined.

(** ** Erased bits in the packed message *)

Lemma testbit_erased_0 (x : Z) : is_bit_or_erased x -> Z.testbit x 0 = (x =? 1).
Proof. intros [-> | [-> | ->]]; reflexivity. Qed.

Lemma testbit_erased_1 (x : Z) : is_bit_or_erased x -> Z.testbit x 1 = (x =? 2).
Proof. intros [-> | [-> | ->]]; reflexivity. Qed.

Lemma testbit_erased_high (x c : Z) : is_bit_or_erased x -> 2 <= c -> Z.testbit x c = false.
Proof.
  intros Hx Hc. destruct (Z.eq_dec x 0) as [-> | Hne]; [apply Z.bits_0 |].
  apply Z.bits_above_log2; [destruct Hx as [-> | [-> | ->]]; lia |].
  destruct Hx as [-> | [-> | ->]]; simpl; lia.
Qed.

Ltac erased_bits :=
  change 256 with (2 ^ 8);
  rewrite Z.mod_pow2_bits_low by lia;
  rewrite !Z.lor_spec; rewrite !Z.shiftl_spec by lia;
  repeat match goal with
         | |- context [Z.testbit ?x (?a - ?b)] =>
             let c := eval vm_compute in (a - b) in change (a - b) with c
         end;
  rewrite ?Z.testbit_neg_r by lia;
  rewrite ?testbit_erased_0, ?testbit_erased_1 by assumption;
  rewrite ?testbit_erased_high by (assumption || lia);
  rewrite ?orb_false_l, ?orb_false_r; try reflexivity.

Lemma byte_of_erased_bits (x0 x1 x2 x3 x4 x5 x6 x7 : Z) :
  is_bit_or_erased x0 -> is_bit_or_erased x1 -> is_bit_or_erased x2 ->
  is_bit_or_erased x3 -> is_bit_or_erased x4 -> is_bit_or_erased x5 ->
  is_bit_or_erased x6 -> is_bit_or_erased x7 ->
  let v := ToUint8
             (Z.lor (Z.lor (Z.lor (Z.lor (Z.lor (Z.lor (Z.lor
                (Z.shiftl x0 7) (Z.shiftl x1 6)) (Z.shiftl x2 5)) (Z.shiftl x3 4))
                (Z.shiftl x4 3)) (Z.shiftl x5 2)) (Z.shiftl x6 1)) x7) in
  Z.testbit v 7 = (x0 =? 1) || (x1 =? 2) /\
  Z.testbit v 6 = (x1 =? 1) || (x2 =? 2) /\
  Z.testbit v 5 = (x2 =? 1) || (x3 =? 2) /\
  Z.testbit v 4 = (x3 =? 1) || (x4 =? 2) /\
  Z.testbit v 3 = (x4 =? 1) || (x5 =? 2) /\
  Z.testbit v 2 = (x5 =? 1) || (x6 =? 2) /\
  Z.testbit v 1 = (x6 =? 1) || (x7 =? 2) /\
  Z.testbit v 0 = (x7 =? 1).
Proof.
  intros H0 H1 H2 H3 H4 H5 H6 H7. cbv zeta. unfold ToUint8.
  repeat split; erased_bits.
Qed.

(** X22.  What an erased bit does to the packed message.  The slicer marks
    an erased bit with the value 2, and the packing shifts it like a bit:
    an erased bit reads as 0 in its own position and sets the position of
    the bit before it in the same byte (for the first bit of a byte the
    overflow falls off the byte).  So bit [7 - i] of byte [k] is set exactly
    when bit [8 k + i] is 1 or bit [8 k + i + 1], in the same byte, is
    erased. *)
Theorem erased_bit_sets_its_left_neighbour (bits : list Z) (k i : Z) :
  (forall b, 0 <= b < 112 -> is_bit_or_erased (rd bits b)) ->
  0 <= k < 14 -> 0 <= i < 8 ->
  Z.testbit (rd (packBits bits) k) (7 - i)
  = (rd bits (8 * k + i) =? 1) || ((i <? 7) && (rd bits (8 * k + i + 1) =? 2)).
Proof.
  intros Hbits Hk Hi. destruct (packBits_packed bits) as (_ & Hdone & _).
  rewrite Hdone by lia. unfold packed_byte. cbv zeta.
  destruct (byte_of_erased_bits
              (rd bits (8 * k)) (rd bits (8 * k + 1)) (rd bits (8 * k + 2))
              (rd bits (8 * k + 3)) (rd bits (8 * k + 4)) (rd bits (8 * k + 5))
              (rd bits (8 * k + 6)) (rd bits (8 * k + 7)))
    as (B7 & B6 & B5 & B4 & B3 & B2 & B1 & B0); try (apply Hbits; lia).
  cbv zeta in B7, B6, B5, B4, B3, B2, B1, B0.
  assert (Hcase : i = 0 \/ i = 1 \/ i = 2 \/ i = 3 \/ i = 4 \/ i = 5 \/ i = 6 \/ i = 7)
    by lia.
  destruct Hcase as [-> | [-> | [-> | [-> | [-> | [-> | [-> | ->]]]]]]].
  - change (7 - 0) with 7. rewrite B7, Z.add_0_r. reflexivity.
  - change (7 - 1) with 6. rewrite B6.
    replace (8 * k + 1 + 1) with (8 * k + 2) by lia. reflexivity.
  - change (7 - 2) with 5. rewrite B5.
    replace (8 * k + 2 + 1) with (8 * k + 3) by lia. reflexivity.
  - change (7 - 3) with 4. rewrite B4.
    replace (8 * k + 3 + 1) with (8 * k + 4) by lia. reflexivity.
  - change (7 - 4) with 3. rewrite B3.
    replace (8 * k + 4 + 1) with (8 * k + 5) by lia. reflexivity.
  - change (7 - 5) with 2. rewrite B2.
    replace (8 * k + 5 + 1) with (8 * k + 6) by lia. reflexivity.
  - change (7 - 6) with 1. rewrite B1.
    replace (8 * k + 6 + 1) with (8 * k + 7) by lia. reflexivity.
  - change (7 - 7) with 0. rewrite B0.
    change (7 <? 7) with false. cbn [andb]. rewrite orb_false_r. reflexivity.
Qed.

Lemma erased_bit_sets_its_left_neighbour_witness :
  rd (packBits [0; 2; 0; 0; 0; 0; 0; 0]) 0 = 128.
Proof.
  apply Z.bits_inj'. intros n Hn.
  destruct (Z_lt_le_dec n 8) as [Hlow | Hhigh].
  - replace n with (7 - (7 - n)) by lia.
    rewrite (erased_bit_sets_its_left_neighbour [0; 2; 0; 0; 0; 0; 0; 0] 0 (7 - n)).
    + assert (Hcase : n = 0 \/ n = 1 \/ n = 2 \/ n = 3 \/ n = 4 \/ n = 5 \/ n = 6 \/ n = 7)
        by lia.
      destruct Hcase as [-> | [-> | [-> | [-> | [-> | [-> | [-> | ->]]]]]]]; reflexivity.
    + intros b Hb.
      assert (Hb' : b = 1 \/ b <> 1) by lia. destruct Hb' as [-> | Hne].
      * right. right. reflexivity.
      * left. unfold rd. destruct (Z.ltb_spec b 0); [reflexivity |].
        destruct (Z.to_nat b) as [| [| [| [| [| [| [| [| n']]]]]]]] eqn:E;
          try reflexivity.
        lia.
    + lia.
    + lia.
  - destruct (packBits_packed [0; 2; 0; 0; 0; 0; 0; 0]) as (_ & Hdone & _).
    rewrite Hdone by lia.
    pose proof (packed_byte_range [0; 2; 0; 0; 0; 0; 0; 0] 0) as Hrange.
    rewrite (Z.bits_above_log2 128 n); [| lia | change (Z.log2 128) with 7; lia].
    destruct (Z.eq_dec (packed_byte [0; 2; 0; 0; 0; 0; 0; 0] 0) 0) as [-> | Hne];
      [apply Z.bits_0 |].
    apply Z.bits_above_log2; [lia |].
    apply Z.log2_lt_pow2; [lia |].
    apply Z.lt_le_trans with (2 ^ 8); [lia | apply Z.pow_le_mono_r; lia].
Defined.

(** ** memcpy *)

(** X23.  What [memcpy] copies.  The call keeps the length of [dst],
    stores [src[i]] at [dst[dstOffset + i]] for the indices
    [srcOffset <= i < length] whose destination lies inside [dst], and
    changes no other element.  So it copies [length] elements from the
    start of [src] when [srcOffset] is 0, it copies [length - srcOffset]
    elements, read and written [srcOffset] places further on, when
    [0 < srcOffset < length], and it copies nothing when
    [length <= srcOffset]. *)
Theorem memcpy_copies (dst src : list Z) (dstOffset srcOffset len : Z) :
  let result := memcpy dst dstOffset src srcOffset len in
  length result = length dst /\
  (forall i, srcOffset <= i < len -> 0 <= dstOffset + i < Z.of_nat (length dst) ->
     rd result (dstOffset + i) = rd src i) /\
  (forall k, k < dstOffset + srcOffset \/ dstOffset + len <= k -> rd result k = rd dst k) /\
  (len <= srcOffset -> result = dst).
Proof.
  cbv zeta. split; [exact (proj1 (memcpy_rd dst src dstOffset srcOffset len 0)) |].
  split; [| split].
  - intros i Hi Hin. rewrite (proj2 (memcpy_rd dst src dstOffset srcOffset len _)).
    replace (dstOffset + i - dstOffset) with i by lia.
    destruct (Z.leb_spec srcOffset i); [| lia].
    destruct (Z.ltb_spec i len); [| lia].
    destruct (Z.leb_spec 0 (dstOffset + i)); [| lia].
    destruct (Z.ltb_spec (dstOffset + i) (Z.of_nat (length dst))); [| lia].
    reflexivity.
  - intros k Hk. rewrite (proj2 (memcpy_rd dst src dstOffset srcOffset len _)).
    destruct (Z.leb_spec srcOffset (k - dstOffset)); [| reflexivity].
    destruct (Z.ltb_spec (k - dstOffset) len); [lia | reflexivity].
  - intros Hempty. apply rd_ext;
      [exact (proj1 (memcpy_rd dst src dstOffset srcOffset len 0)) |].
    intros k. rewrite (proj2 (memcpy_rd dst src dstOffset srcOffset len _)).
    destruct (Z.leb_spec srcOffset (k - dstOffset)); [| reflexivity].
    destruct (Z.ltb_spec (k - dstOffset) len); [lia | reflexivity].
Qed.

Lemma memcpy_copies_witness :
  rd (memcpy [0; 0; 0; 0; 0; 0] 1 [5; 6; 7; 8] 2 4) (1 + 3) = 8 /\
  memcpy [0; 0; 0; 0; 0; 0] 1 [5; 6; 7; 8] 4 4 = [0; 0; 0; 0; 0; 0].
Proof.
  pose proof (memcpy_copies [0; 0; 0; 0; 0; 0] [5; 6; 7; 8] 1 2 4) as H.
  pose proof (memcpy_copies [0; 0; 0; 0; 0; 0] [5; 6; 7; 8] 1 4 4) as H'.
  cbv zeta in H, H'.
  destruct H as (_ & Hcopy & _ & _). destruct H' as (_ & _ & _ & Hnone).
  split.
  - rewrite Hcopy; [reflexivity | lia | simpl; lia].
  - apply Hnone. lia.
Defined.

(** ** Calls of process *)

Lemma table_prefix_entry (r i q : Z) :
  0 <= i <= r -> 0 <= q <= r -> r <= 128 ->
  rd (table_prefix (r * 129 + r + 1)) (i * 129 + q) = round_sqrt_360 (i * i + q * q).
Proof.
  intros Hi Hq Hr. unfold rd, table_prefix.
  destruct (Z.ltb_spec (i * 129 + q) 0); [lia |].
  rewrite list_lookup_fmap. rewrite lookup_seqZ_lt by nia.
  cbn [fmap option_fmap option_map]. rewrite Z2Nat.id by lia. rewrite Z.add_0_l.
  replace ((i * 129 + q) / 129) with i by (apply (Z.div_unique _ 129 i q); lia).
  replace ((i * 129 + q) mod 129) with q by (apply (Z.mod_unique _ 129 i q); lia).
  reflexivity.
Qed.

Lemma near_bias_deviation (r b : Z) : near_bias r b -> 0 <= absolute (b - 127) <= r.
Proof. unfold near_bias, absolute. destruct (Z.ltb_spec (b - 127) 0); lia. Qed.

Lemma byte_near_bias (r : Z) (data : list Z) (j b : Z) :
  Forall (near_bias r) data -> byte_at data j = Some b -> near_bias r b.
Proof.
  unfold byte_at. destruct (j <? 0); [discriminate |]. intros Hall E.
  rewrite Forall_forall in Hall. apply Hall. eapply list_elem_of_lookup_2. exact E.
Qed.

Lemma all_near_bias (r : Z) (data : list Z) :
  forallb (fun b => (127 - r <=? b) && (b <=? 127 + r)) data = true ->
  Forall (near_bias r) data.
Proof.
  induction data as [| b data IH]; intros H; [constructor |].
  cbn [forallb] in H. apply andb_true_iff in H as [Hb Hrest].
  apply andb_true_iff in Hb as [Hlo Hhi].
  constructor; [unfold near_bias; lia | exact (IH Hrest)].
Qed.

(** For bytes within [r] of the bias the loop reads the table below index
    [r * 129 + r + 1] only. *)
Lemma pair_magnitude_prefix (r : Z) (data : list Z) (k : Z) :
  0 <= r <= 128 -> Forall (near_bias r) data ->
  pair_magnitude build_MAG_LUT data k
  = pair_magnitude (table_prefix (r * 129 + r + 1)) data k.
Proof.
  intros Hr Hall. unfold pair_magnitude.
  destruct (byte_at data (2 * k)) as [a |] eqn:Ea; [| reflexivity].
  destruct (byte_at data (2 * k + 1)) as [b |] eqn:Eb; [| reflexivity].
  pose proof (near_bias_deviation r a (byte_near_bias r data _ a Hall Ea)) as Ha.
  pose proof (near_bias_deviation r b (byte_near_bias r data _ b Hall Eb)) as Hb.
  rewrite MAG_LUT_entry by lia. rewrite (table_prefix_entry r) by lia. reflexivity.
Qed.

Lemma computeMagnitudeVector_tables (lut1 lut2 data m : list Z) (size : Z) :
  (forall k, pair_magnitude lut1 data k = pair_magnitude lut2 data k) ->
  computeMagnitudeVector lut1 data m size false
  = computeMagnitudeVector lut2 data m size false.
Proof.
  intros Hsame. unfold computeMagnitudeVector. f_equal.
  destruct (unsigned_loop_pairs lut1 data m size) as [Hlen1 Hrd1].
  destruct (unsigned_loop_pairs lut2 data m size) as [Hlen2 Hrd2].
  apply rd_ext; [congruence |]. intros k. rewrite Hrd1, Hrd2, Hsame. reflexivity.
Qed.

Lemma ceiling_of_half (size : Z) : Qceiling (num size / 2) = (size + 1) / 2.
Proof.
  unfold Qceiling, Qfloor, num, Qdiv, Qmult, Qinv, Qopp, inject_Z. cbn [Qnum Qden].
  change (Z.pos (1 * 2)) with 2. rewrite Z.mul_1_r.
  pose proof (Z.div_mod (- size) 2 ltac:(lia)).
  pose proof (Z.mod_pos_bound (- size) 2 ltac:(lia)).
  pose proof (Z.div_mod (size + 1) 2 ltac:(lia)).
  pose proof (Z.mod_pos_bound (size + 1) 2 ltac:(lia)).
  lia.
Qed.

Lemma first_size_fits (size : Z) :
  -1 <= size -> size <= 2 * Z.of_nat (Z.to_nat (Z.quot size 2)) + 1.
Proof.
  intros Hsize. destruct (Z_le_gt_dec 0 size) as [Hpos | Hneg].
  - rewrite Z.quot_div_nonneg by lia.
    pose proof (Z.div_mod size 2 ltac:(lia)).
    pose proof (Z.mod_pos_bound size 2 ltac:(lia)).
    assert (0 <= size / 2) by (apply Z.div_pos; lia). lia.
  - assert (size = -1) as -> by lia. vm_compute. discriminate.
Qed.

Section Calls.

Context {Fields DecState : Type}.
Variable msgLen : Z -> Z.
Variable new_Decoder : Options -> DecState.
Variable parse : DecState -> list Z -> bool -> Message Fields * DecState.
Variable allocates : Z -> bool.

(** A call reads the table through the magnitudes of its pairs only. *)
Lemma process_with_table (lut : list Z) (d d' : Demodulator) (data : list Z) (size : Z)
    (out : list (Message Fields)) :
  (forall k, pair_magnitude (MAG_LUT d) data k = pair_magnitude lut data k) ->
  process msgLen parse allocates d data size = Done d' out ->
  exists d'', process msgLen parse allocates (with_table lut d) data size = Done d'' out.
Proof.
  intros Hsame. unfold process, with_table. cbn [options decoder MAG_LUT _mag].
  destruct (match _mag d with Some m => Some m | None => allocate_mag allocates size end)
    as [m |]; [| discriminate].
  rewrite (computeMagnitudeVector_tables _ lut) by exact Hsame.
  destruct (detectMessage _ _ _ _ _ _) as [s |]; [| discriminate].
  intros [= <- <-]. eexists. reflexivity.
Qed.

Lemma process_keeps_table (d d' : Demodulator) (data : list Z) (size : Z)
    (out : list (Message Fields)) :
  process msgLen parse allocates d data size = Done d' out -> MAG_LUT d' = MAG_LUT d.
Proof.
  unfold process.
  destruct (match _mag d with Some m => Some m | None => allocate_mag allocates size end)
    as [m |]; [| discriminate].
  destruct (detectMessage _ _ _ _ _ _) as [s |]; [| discriminate].
  intros [= <- _]. reflexivity.
Qed.

Lemma process_calls_with_table (lut : list Z) (calls : list (list Z * Z)) :
  forall d : Demodulator,
  Forall (fun call => forall k, pair_magnitude (MAG_LUT d) (fst call) k
                                = pair_magnitude lut (fst call) k) calls ->
  process_calls msgLen parse allocates d calls
  = process_calls msgLen parse allocates (with_table lut d) calls.
Proof.
  induction calls as [| [data size] rest IH]; intros d Hall; [reflexivity |].
  inversion Hall as [| ? ? Hcall Hrest]; subst. cbn [fst] in Hcall.
  cbn [process_calls].
  unfold process, with_table at 1. cbn [options decoder MAG_LUT _mag].
  destruct (match _mag d with Some m => Some m | None => allocate_mag allocates size end)
    as [m |]; [| f_equal; apply IH; exact Hrest].
  rewrite (computeMagnitudeVector_tables _ lut) by exact Hcall.
  destruct (detectMessage _ _ _ _ _ _) as [s |]; [| f_equal; apply IH; exact Hrest].
  f_equal. rewrite IH by exact Hrest. reflexivity.
Qed.

Lemma allocate_mag_cases (size : Z) :
  (-1 <= size -> allocates (Z.quot size 2) = true ->
   allocate_mag allocates size = Some (new_array (Z.quot size 2))) /\
  (size < -1 \/ allocates (Z.quot size 2) = false -> allocate_mag allocates size = None).
Proof.
  unfold allocate_mag.
  assert (Htrunc : truncate (num size / 2) = Z.quot size 2).
  { unfold truncate, num, inject_Z, Qdiv, Qmult, Qinv. simpl.
    rewrite Z.mul_1_r. reflexivity. }
  rewrite Htrunc.
  assert (Hsign : -1 <= size <-> 0 <= Z.quot size 2).
  { split; intros H.
    - destruct (Z_le_gt_dec 0 size).
      + apply Z.quot_pos; lia.
      + replace size with (-1) by lia. reflexivity.
    - destruct (Z_le_gt_dec (-1) size); [assumption |].
      assert (Z.quot size 2 <= Z.quot (-2) 2) by (apply Z.quot_le_mono; lia).
      change (Z.quot (-2) 2) with (-1) in *. lia. }
  split.
  - intros Hsize ->. destruct (Z.ltb_spec (Z.quot size 2) 0); [| reflexivity].
    apply Hsign in Hsize. lia.
  - intros [Hneg | ->]; [| rewrite orb_true_r; reflexivity].
    destruct (Z.ltb_spec (Z.quot size 2) 0); [reflexivity |].
    assert (-1 <= size) by (apply Hsign; assumption). lia.
Qed.

Hypothesis msgLen_range : forall t, 0 <= msgLen t <= 112.

(** A call whose array is there, or can be allocated, runs to its end:
    the scan returns, and the object keeps its options and its table and
    holds an array of the length it started from, whose elements from
    index [ceil (size / 2)] on are those it started from. *)
Lemma process_runs (d : Demodulator) (data : list Z) (size : Z) :
  match _mag d with
  | Some array => size <= 2 * Z.of_nat (length array) + 1
  | None => -1 <= size /\ allocates (Z.quot size 2) = true
  end ->
  exists d' out array',
    process msgLen parse allocates d data size = Done d' out /\
    options d' = options d /\ MAG_LUT d' = MAG_LUT d /\ _mag d' = Some array' /\
    length array' = match _mag d with
                    | Some array => length array
                    | None => Z.to_nat (Z.quot size 2)
                    end /\
    (forall array k, _mag d = Some array -> Z.max 0 ((size + 1) / 2) <= k ->
       rd array' k = rd array k).
Proof.
  intros Hfit.
  assert (Harray : exists m,
            match _mag d with Some m => Some m | None => allocate_mag allocates size end
            = Some m /\
            length m = match _mag d with
                       | Some array => length array
                       | None => Z.to_nat (Z.quot size 2)
                       end).
  { destruct (_mag d) as [array |]; [exists array; split; reflexivity |].
    destruct Hfit as [Hsize Hgrant]. exists (new_array (Z.quot size 2)).
    split; [apply allocate_mag_cases; assumption | apply length_new_array]. }
  destruct Harray as (m & Hm & Hlen).
  unfold process. rewrite Hm.
  destruct (detectMessage_returns msgLen parse msgLen_range (options d) (decoder d)
              (completion_array (computeMagnitudeVector (MAG_LUT d) data m size false))
              (num size / 2)) as [s Hs].
  rewrite Hs. eexists. eexists. exists (scan_mag s).
  split; [reflexivity |]. cbn [options MAG_LUT _mag].
  split; [reflexivity |]. split; [reflexivity |]. split; [reflexivity |].
  unfold computeMagnitudeVector in Hs. cbn [completion_array] in Hs.
  destruct (unsigned_loop_pairs (MAG_LUT d) data m size) as [Hsame Hwritten].
  split.
  - unfold detectMessage in Hs. apply (scan_loop_length msgLen parse) in Hs.
    rewrite Hs. unfold scan_start. cbn [scan_mag]. rewrite Hsame. exact Hlen.
  - intros array k Hfound Hk. rewrite Hfound in Hm. injection Hm as <-.
    apply (detectMessage_reached msgLen parse) in Hs.
    apply (reached_invariant msgLen parse msgLen_range) in Hs.
    destruct Hs as (_ & _ & _ & _ & Hframe & _).
    rewrite Hframe by (right; rewrite ceiling_of_half; lia).
    rewrite Hwritten.
    destruct (Z.leb_spec 0 k); [| reflexivity].
    destruct (Z.ltb_spec k (Z.max 0 ((size + 1) / 2))); [lia | reflexivity].
Qed.

Lemma process_calls_return (calls : list (list Z * Z)) :
  forall (d : Demodulator) (array : list Z),
  _mag d = Some array ->
  Forall (fun call => snd call <= 2 * Z.of_nat (length array) + 1) calls ->
  exists results, process_calls msgLen parse allocates d calls = Some <$> results.
Proof.
  induction calls as [| [data size] rest IH]; intros d array Hmag Hall.
  - exists []. reflexivity.
  - inversion Hall as [| ? ? Hcall Hrest]; subst. cbn [snd] in Hcall.
    destruct (process_runs d data size)
      as (d' & out & array' & Hrun & _ & _ & Hmag' & Hlen & _).
    { rewrite Hmag. exact Hcall. }
    rewrite Hmag in Hlen.
    destruct (IH d' array' Hmag') as [results Hres].
    { rewrite Hlen. exact Hrest. }
    exists (out :: results). cbn [process_calls]. rewrite Hrun, Hres. reflexivity.
Qed.

(** C9.  Provided the decoder built by the constructor does not depend on
    the [mag] option, take two Demodulators constructed from options that
    differ only in [mag], a first call of [process] whose array the engine
    grants, and any later calls whose sizes do not exceed the first.  Every
    call returns, and the two objects deliver the same messages call by
    call.  The first call does not look at the supplied array: on both
    objects it allocates an array of [size / 2] elements, truncated toward
    zero, fills it the same way and keeps it in [_mag], and it leaves the
    stored [mag] option as it was.  Every later call that fits the array
    it finds in [_mag] works on that array: it returns with an array of the
    same length there, whose elements from index [ceil (size / 2)] on are
    still those of the call before, and with the stored [mag] option
    unchanged. *)
Theorem process_ignores_mag_option
    (a c co : option bool) (mag1 mag2 : option (list Z))
    (data : list Z) (size : Z) (later : list (list Z * Z)) :
  (forall o1 o2, same_but_mag o1 o2 -> new_Decoder o1 = new_Decoder o2) ->
  -1 <= size -> allocates (Z.quot size 2) = true ->
  Forall (fun call => snd call <= size) later ->
  let opts1 := {| opt_aggressive := a; opt_checkCrc := c; opt_crcOnly := co;
                  opt_mag := mag1 |} in
  let opts2 := {| opt_aggressive := a; opt_checkCrc := c; opt_crcOnly := co;
                  opt_mag := mag2 |} in
  let d1 := constructor new_Decoder (Some opts1) in
  let d2 := constructor new_Decoder (Some opts2) in
  (exists results,
     process_calls msgLen parse allocates d1 ((data, size) :: later) = Some <$> results /\
     process_calls msgLen parse allocates d2 ((data, size) :: later) = Some <$> results) /\
  (exists d1' d2' out array,
     process msgLen parse allocates d1 data size = Done d1' out /\
     process msgLen parse allocates d2 data size = Done d2' out /\
     mag (options d1') = mag1 /\ mag (options d2') = mag2 /\
     _mag d1' = Some array /\ _mag d2' = Some array /\
     length array = Z.to_nat (Z.quot size 2)) /\
  (forall (d : Demodulator) array data' size',
     _mag d = Some array -> size' <= 2 * Z.of_nat (length array) + 1 ->
     exists d' out array',
       process msgLen parse allocates d data' size' = Done d' out /\
       mag (options d') = mag (options d) /\
       _mag d' = Some array' /\ length array' = length array /\
       (forall k, Z.max 0 ((size' + 1) / 2) <= k -> rd array' k = rd array k)).
Proof.
  intros Hdecoder Hsize Hgrant Hlater. cbv zeta. unfold constructor.
  generalize build_MAG_LUT. intros lut.
  set (d1 := {| options := stored_options (Some {| opt_aggressive := a; opt_checkCrc := c;
                                                   opt_crcOnly := co; opt_mag := mag1 |});
                decoder := _; MAG_LUT := lut; _mag := None |}).
  set (d2 := {| options := stored_options (Some {| opt_aggressive := a; opt_checkCrc := c;
                                                   opt_crcOnly := co; opt_mag := mag2 |});
                decoder := _; MAG_LUT := lut; _mag := None |}).
  assert (Hsame : same_but_mag (options d1) (options d2)) by repeat split.
  assert (Hdec : decoder d1 = decoder d2) by (apply Hdecoder; repeat split).
  destruct (process_runs d1 data size)
    as (d1' & out & array & Hrun & Hopt & _ & Hmag & Hlen & _).
  { cbn [_mag d1]. split; assumption. }
  cbn [_mag d1] in Hlen.
  split; [| split].
  - destruct (process_calls_return later d1' array Hmag) as [results Hres].
    { eapply Forall_impl; [exact Hlater |]. intros call Hcall. cbv beta in Hcall.
      rewrite Hlen. pose proof (first_size_fits size Hsize). lia. }
    exists (out :: results).
    rewrite <- (process_calls_same_but_mag msgLen parse allocates _ d1 d2 Hsame Hdec
                  eq_refl eq_refl).
    split; cbn [process_calls]; rewrite Hrun, Hres; reflexivity.
  - pose proof (process_same_but_mag msgLen parse allocates d1 d2 data size Hsame Hdec
                  eq_refl eq_refl) as H.
    rewrite Hrun in H.
    destruct (process msgLen parse allocates d2 data size) as [d2' out2 | |] eqn:Hrun2;
      try contradiction.
    destruct H as (<- & Ho1 & Ho2 & _ & _ & Hmag12).
    exists d1', d2', out, array.
    split; [exact Hrun |]. split; [reflexivity |].
    split; [rewrite Ho1; reflexivity |]. split; [rewrite Ho2; reflexivity |].
    split; [exact Hmag |]. split; [rewrite <- Hmag12; exact Hmag | exact Hlen].
  - intros d array' data' size' Hfound Hfit.
    destruct (process_runs d data' size')
      as (d' & out' & array'' & Hrun' & Hopt' & _ & Hmag' & Hlen' & Hkept).
    { rewrite Hfound. exact Hfit. }
    rewrite Hfound in Hlen'.
    exists d', out', array''. split; [exact Hrun' |].
    split; [rewrite Hopt'; reflexivity |]. split; [exact Hmag' |].
    split; [exact Hlen' |]. intros k Hk. apply Hkept; assumption.
Qed.

(** X12.  For a length lookup with values in [0,112], a call of [process]
    returns normally, with the options unchanged and an array of unchanged
    length in [_mag], whenever the object has its working array and the
    size fits it, or has none yet, the size is at least -1 and the engine
    grants an array of [size / 2] elements, truncated toward zero; the scan
    never runs out of iterations.  A first call throws, at the allocation,
    when the size is below -1 or the engine does not grant the array. *)
Theorem process_returns (d : Demodulator) (data : list Z) (size : Z) :
  (match _mag d with
   | Some array => size <= 2 * Z.of_nat (length array) + 1
   | None => -1 <= size /\ allocates (Z.quot size 2) = true
   end ->
   exists d' out array',
     process msgLen parse allocates d data size = Done d' out /\
     options d' = options d /\ _mag d' = Some array' /\
     length array' = match _mag d with
                     | Some array => length array
                     | None => Z.to_nat (Z.quot size 2)
                     end) /\
  (_mag d = None -> size < -1 \/ allocates (Z.quot size 2) = false ->
   process msgLen parse allocates d data size = AllocationError).
Proof.
  split.
  - intros Hfit.
    destruct (process_runs d data size Hfit)
      as (d' & out & array' & Hrun & Hopt & _ & Hmag & Hlen & _).
    exists d', out, array'. repeat split; assumption.
  - intros Hnone Hrefused. unfold process. rewrite Hnone.
    rewrite (proj2 (allocate_mag_cases size) Hrefused). reflexivity.
Qed.

End Calls.

Lemma frames_near_bias :
  Forall (near_bias 8) valid_frame /\ Forall (near_bias 8) invalid_frame.
Proof. split; apply all_near_bias; vm_compute; reflexivity. Qed.

Lemma frames_read_table_prefix :
  Forall (fun call : list Z * Z =>
            forall k, pair_magnitude build_MAG_LUT (fst call) k
                      = pair_magnitude (table_prefix (8 * 129 + 8 + 1)) (fst call) k)
    [(valid_frame, 490); (invalid_frame, 490); (valid_frame, 490)].
Proof.
  destruct frames_near_bias as [Hvalid Hinvalid].
  apply Forall_cons_2; [| apply Forall_cons_2; [| apply Forall_cons_2; [| apply Forall_nil_2]]];
    intros k; apply pair_magnitude_prefix; (lia || assumption).
Qed.

Lemma process_ignores_mag_option_witness :
  exists results,
    process_calls sample_msgLen sample_parse_last_byte sample_allocates
      (constructor sample_new_Decoder
         (Some {| opt_aggressive := None; opt_checkCrc := None; opt_crcOnly := None;
                  opt_mag := Some [1; 2; 3] |}))
      [(valid_frame, 490); (invalid_frame, 490); (valid_frame, 490)] = Some <$> results /\
    process_calls sample_msgLen sample_parse_last_byte sample_allocates
      (constructor sample_new_Decoder
         (Some {| opt_aggressive := None; opt_checkCrc := None; opt_crcOnly := None;
                  opt_mag := None |}))
      [(valid_frame, 490); (invalid_frame, 490); (valid_frame, 490)] = Some <$> results /\
    List.map (List.map crcOk) results = [[true]; []; [true]].
Proof.
  pose proof (process_ignores_mag_option sample_msgLen sample_new_Decoder
                sample_parse_last_byte sample_allocates sample_msgLen_range
                None None None (Some [1; 2; 3]) None valid_frame 490
                [(invalid_frame, 490); (valid_frame, 490)]
                (fun o1 o2 _ => eq_refl) ltac:(lia) ltac:(reflexivity)
                ltac:(repeat constructor; cbn [snd]; lia)) as H.
  cbv zeta in H. destruct H as [(results & H1 & H2) _].
  exists results. split; [exact H1 |]. split; [exact H2 |].
  rewrite (process_calls_with_table _ _ _ (table_prefix (8 * 129 + 8 + 1))) in H2.
  - unfold with_table, constructor in H2. cbn [options decoder MAG_LUT _mag] in H2.
    vm_compute in H2.
    destruct results as [| r1 [| r2 [| r3 [| r4 rest]]]]; try discriminate H2.
    injection H2 as <- <- <-. reflexivity.
  - unfold constructor. cbn [MAG_LUT]. exact frames_read_table_prefix.
Defined.

Lemma delivered_messages_are_crc_valid_witness :
  all_crc_valid
    (process_calls sample_msgLen sample_parse_last_byte sample_allocates
       (constructor sample_new_Decoder
          (Some {| opt_aggressive := None; opt_checkCrc := Some false;
                   opt_crcOnly := None; opt_mag := None |}))
       [(valid_frame, 490); (invalid_frame, 490); (valid_frame, 490)]) /\
  verdicts
    (process_calls sample_msgLen sample_parse_last_byte sample_allocates
       (constructor sample_new_Decoder
          (Some {| opt_aggressive := None; opt_checkCrc := Some false;
                   opt_crcOnly := None; opt_mag := None |}))
       [(valid_frame, 490); (invalid_frame, 490); (valid_frame, 490)])
  = [Some [true]; Some []; Some [true]].
Proof.
  split.
  - apply (delivered_messages_are_crc_valid sample_msgLen sample_new_Decoder
             sample_parse_last_byte sample_allocates).
    repeat constructor; cbn [snd]; lia.
  - rewrite (process_calls_with_table _ _ _ (table_prefix (8 * 129 + 8 + 1))).
    + unfold with_table, constructor. cbn [options decoder MAG_LUT _mag].
      vm_compute. reflexivity.
    + unfold constructor. cbn [MAG_LUT]. exact frames_read_table_prefix.
Defined.

Lemma process_returns_witness :
  (exists d' out,
     process sample_msgLen sample_parse_last_byte sample_allocates
       (constructor sample_new_Decoder None) valid_frame 490 = Done d' out /\
     List.map crcOk out = [true]) /\
  process sample_msgLen sample_parse_last_byte sample_allocates
    (constructor sample_new_Decoder None) [] (2 ^ 34) = AllocationError.
Proof.
  destruct (process_returns sample_msgLen sample_parse_last_byte sample_allocates
              sample_msgLen_range (constructor sample_new_Decoder None) valid_frame 490)
    as [Hret _].
  destruct (process_returns sample_msgLen sample_parse_last_byte sample_allocates
              sample_msgLen_range (constructor sample_new_Decoder None) [] (2 ^ 34))
    as [_ Hthrow].
  split.
  - destruct Hret as (d' & out & array' & Hrun & _).
    { cbn [_mag constructor]. split; [lia | reflexivity]. }
    exists d', out. split; [exact Hrun |].
    assert (Htable : forall k,
              pair_magnitude (MAG_LUT (constructor sample_new_Decoder None)) valid_frame k
              = pair_magnitude (table_prefix (8 * 129 + 8 + 1)) valid_frame k).
    { intros k. unfold constructor. cbn [MAG_LUT].
      apply pair_magnitude_prefix; [lia | exact (proj1 frames_near_bias)]. }
    destruct (process_with_table sample_msgLen sample_parse_last_byte sample_allocates
                (table_prefix (8 * 129 + 8 + 1)) _ _ _ _ _ Htable Hrun) as [d'' E].
    unfold with_table, constructor in E. cbn [options decoder MAG_LUT _mag] in E.
    vm_compute in E. injection E as _ <-. reflexivity.
  - apply Hthrow; [reflexivity | right; reflexivity].
Defined.
